(** * Retrieval cache wrapper and iterative multi-retriever searcher

    A shallow embedding of

    - [batched_cache], [LocalRetriever.search] and [RetrieverBase.test_speed]
      (src/librarian/retriever/retriever_base.py), and
    - [KylinLLMSearcher.inner_search] with its helpers [rewrite_query],
      [verify_contexts] and [summarize_contexts], and the entry points
      [search], [determine_needed_information], [generate_with_context],
      [_answer] and [answer] (kylin/kylin_searcher.py),

    together with the properties of the specification that concern them
    (C1 to C10) and further properties read off the code (X1 to X26).

    Python code is embedded as computations in a small monad that threads
    the state of the outside world (cache store, retrieval backends, the
    language model), may raise a Python exception, and records the calls
    made to the collaborators. *)

From stdpp Require Import base option list gmap strings pretty.
From Stdlib Require Import ZArith Lia Ascii.
From Stdlib Require String.

Open Scope string_scope.
Open Scope list_scope.

(** ** Python values, exceptions and effects *)

Module Py.

(** The exceptions the embedded code can raise.  [BackendError] stands
    for whatever a collaborator (cache store, retriever, language model)
    raises on its own. *)
Inductive exn : Type :=
| TypeError
| AssertionError
| KeyError
| IndexError
| ValueError
| BackendError (tag : string).

Inductive res (A : Type) : Type :=
| Ok (a : A)
| Raise (e : exn).
Arguments Ok {A} a.
Arguments Raise {A} e.

Definition is_ok {A} (r : res A) : bool :=
  match r with Ok _ => true | Raise _ => false end.

(** The values that travel in keyword arguments. *)
Inductive pyval : Type :=
| PyNone
| PyBool (b : bool)
| PyInt (z : Z)
| PyStr (s : string).

#[export] Instance pyval_eq_dec : EqDecision pyval.
Proof. solve_decision. Defined.

(** Python truthiness, as used by [if disable_cache:]. *)
Definition truthy (v : pyval) : bool :=
  match v with
  | PyNone => false
  | PyBool b => b
  | PyInt z => negb (z =? 0)%Z
  | PyStr s => negb (String.eqb s "")
  end.

(** [eff S E A]: a computation over a state [S] that returns an [A] or
    raises, and emits events of type [E].  The state reached and the
    events emitted before an exception are kept, as in Python. *)
Definition eff (S E A : Type) : Type := S -> res A * S * list E.

Definition ret {S E A} (a : A) : eff S E A := fun s => (Ok a, s, []).

Definition raise {S E A} (e : exn) : eff S E A := fun s => (Raise e, s, []).

Definition bind {S E A B} (m : eff S E A) (k : A -> eff S E B) : eff S E B :=
  fun s =>
    match m s with
    | (Ok a, s1, l1) =>
        match k a s1 with
        | (r, s2, l2) => (r, s2, l1 ++ l2)
        end
    | (Raise e, s1, l1) => (Raise e, s1, l1)
    end.

Definition lift_res {S E A} (r : res A) : eff S E A :=
  match r with Ok a => ret a | Raise e => raise e end.

Definition emit {S E} (ev : E) : eff S E unit := fun s => (Ok tt, s, [ev]).

Module Notations.
Notation "x <~ m ;; k" := (bind m (fun x => k))
  (at level 100, m at next level, right associativity,
   format "x  <~  m  ;;  '/' k").
End Notations.
Import Notations.

(** A list comprehension whose element expression may raise. *)
Fixpoint map_res {A B} (f : A -> res B) (l : list A) : res (list B) :=
  match l with
  | [] => Ok []
  | a :: l' =>
      match f a with
      | Ok b =>
          match map_res f l' with
          | Ok bs => Ok (b :: bs)
          | Raise e => Raise e
          end
      | Raise e => Raise e
      end
  end.

(** A list comprehension whose element expression has effects. *)
Fixpoint mapM {S E A B} (f : A -> eff S E B) (l : list A) : eff S E (list B) :=
  match l with
  | [] => ret []
  | a :: l' =>
      b <~ f a ;;
      bs <~ mapM f l' ;;
      ret (b :: bs)
  end.

(** A [for] loop that updates an accumulator. *)
Fixpoint foldM {S E A B} (f : B -> A -> eff S E B) (l : list A) (b : B)
  : eff S E B :=
  match l with
  | [] => ret b
  | a :: l' =>
      b' <~ f b a ;;
      foldM f l' b'
  end.

(** [enumerate]. *)
Definition enumerate {A} (l : list A) : list (nat * A) :=
  zip (seq 0 (length l)) l.

(** ASCII case folding, [str.lower]. *)
Definition lower_ascii (c : ascii) : ascii :=
  let n := nat_of_ascii c in
  if (65 <=? n)%nat && (n <=? 90)%nat then ascii_of_nat (n + 32) else c.

Fixpoint lower (s : string) : string :=
  match s with
  | EmptyString => EmptyString
  | String c s' => String (lower_ascii c) (lower s')
  end.

(** [sub in s] for strings. *)
Fixpoint contains (sub s : string) : bool :=
  String.prefix sub s ||
  match s with
  | EmptyString => false
  | String _ s' => contains sub s'
  end.

Fixpoint drop_string (n : nat) (s : string) : string :=
  match n, s with
  | O, _ => s
  | S n', String _ s' => drop_string n' s'
  | S _, EmptyString => EmptyString
  end.

End Py.

Import Py Py.Notations.

(** ** librarian/retriever/retriever_base.py *)

Module RetrieverBase.

(** The [query] argument of a search: the annotation is [list[str] | str]. *)
Inductive query_arg : Type :=
| QStr (s : string)
| QList (l : list string).

(** [if isinstance(query, str): query = [query]] *)
Definition as_list (query : query_arg) : list string :=
  match query with
  | QStr s => [s]
  | QList l => l
  end.

Section BatchedCache.
(** [Cfg]: the retriever configuration [self.cfg]; [R]: one query's
    result (a [list[RetrievedContext]]); a Python result that may be
    [None] is an [option R]. *)
Context {Cfg R : Type}.

(** [hashkey(cfg=self.cfg, query=q, **search_kwargs)] is the pair of
    the empty tuple and the name-sorted items of the keyword
    dictionary.  Names are distinct, so the sorted items determine and
    are determined by the configuration, the query and the remaining
    keyword dictionary. *)
Definition key : Type := Cfg * string * gmap string pyval.

(** What line 67 stores under a key: the tuple [(r, keys[n])]. *)
Definition entry : Type := option R * key.

(** Passing [cfg=] twice is a [TypeError] of the call.  ([query] and
    [self] are parameters of [wrapper], so they never reach
    [search_kwargs].) *)
Definition hashkey (cfg : Cfg) (q : string) (search_kwargs : gmap string pyval)
  : res key :=
  match search_kwargs !! "cfg" with
  | Some _ => Raise TypeError
  | None => Ok (cfg, q, search_kwargs)
  end.

(** The collaborators.  [RETRIEVAL_CACHE] is a [PersistentCache] of
    librarian/cache, whose code is not embedded here; its two
    operations are taken as parameters, with the contract of the
    specification, [get(key) -> value | absent] and [put(key, value)].
    Reading may reorder the store (recency) and both may fail. *)
Context {Store World : Type}.
Variable cache_get : key -> Store -> res (option entry) * Store.
Variable cache_put : key -> entry -> Store -> res unit * Store.

(** The wrapped batch search [func(self, query, **search_kwargs)]. *)
Variable func :
  list string -> gmap string pyval -> World -> res (list (option R)) * World.

Record state : Type := { store : Store; world : World }.

(** The calls a search makes, in order: cache reads and writes with their
    outcome, and calls of the wrapped operation. *)
Inductive event : Type :=
| EvGet (k : key) (found : res (option entry))
| EvPut (k : key) (done : res unit)
| EvFunc (qs : list string) (kw : gmap string pyval).

Definition is_func (ev : event) : bool :=
  match ev with EvFunc _ _ => true | _ => false end.

Definition is_cache (ev : event) : bool :=
  match ev with EvGet _ _ | EvPut _ _ => true | EvFunc _ _ => false end.

(** [RETRIEVAL_CACHE.get(k, None)]: the stored value, or the default
    [None] when the key is absent. *)
Definition cache_read (k : key) : eff state event (option entry) :=
  fun s =>
    match cache_get k (store s) with
    | (r, st') => (r, {| store := st'; world := world s |}, [EvGet k r])
    end.

(** [RETRIEVAL_CACHE[k] = v] *)
Definition cache_write (k : key) (v : entry) : eff state event unit :=
  fun s =>
    match cache_put k v (store s) with
    | (r, st') => (r, {| store := st'; world := world s |}, [EvPut k r])
    end.

Definition call_func (qs : list string) (kw : gmap string pyval)
  : eff state event (list (option R)) :=
  fun s =>
    match func qs kw (world s) with
    | (r, w') => (r, {| store := store s; world := w' |}, [EvFunc qs kw])
    end.

(** [v[0]]: the first component of a stored tuple; subscripting [None]
    is a [TypeError]. *)
Definition subscript0 (v : option entry) : eff state event (option R) :=
  match v with
  | Some (r, _) => ret r
  | None => raise TypeError
  end.

(** Line 58: [[RETRIEVAL_CACHE.get(k, None)[0] for k in keys]] *)
Definition lookup_all (keys : list key) : eff state event (list (option R)) :=
  mapM (fun k => v <~ cache_read k ;; subscript0 v) keys.

Definition is_None {A} (o : option A) : bool :=
  match o with None => true | Some _ => false end.

(** Line 61: [[q for q, r in zip(query, results) if r is None]] *)
Definition new_query (query : list string) (results : list (option R))
  : list string :=
  map fst (filter (fun qr => is_None (snd qr) = true) (zip query results)).

(** Line 62: [[n for n, r in enumerate(results) if r is None]] *)
Definition new_indices (results : list (option R)) : list nat :=
  map fst (filter (fun nr => is_None (snd nr) = true) (enumerate results)).

(** Lines 65-67, one iteration: [results[n] = r] and
    [RETRIEVAL_CACHE[keys[n]] = r, keys[n]]. *)
Definition write_back_one (keys : list key) (results : list (option R))
    (nr : nat * option R) : eff state event (list (option R)) :=
  let '(n, r) := nr in
  if (n <? length results)%nat then
    match keys !! n with
    | Some k =>
        _ <~ cache_write k (r, k) ;;
        ret (<[n := r]> results)
    | None => raise IndexError
    end
  else raise IndexError.

Definition write_back (keys : list key) (pairs : list (nat * option R))
    (results : list (option R)) : eff state event (list (option R)) :=
  foldM (write_back_one keys) pairs results.

(** [os.environ.get("DISABLE_CACHE", False)] *)
Definition env_default (env : option string) : pyval :=
  match env with
  | Some s => PyStr s
  | None => PyBool false
  end.

(** Line 68: [assert all(r is not None for r in results)] *)
Definition assert_all (results : list (option R)) : res (list (option R)) :=
  if forallb (fun r => negb (is_None r)) results then Ok results
  else Raise AssertionError.

(** Lines 50-52: [search_kwargs.pop("disable_cache", <environment>)]. *)
Definition disable_cache (env : option string) (search_kwargs : gmap string pyval)
  : pyval :=
  default (env_default env) (search_kwargs !! "disable_cache").

(** Line 57: [[hashkey(cfg=self.cfg, query=q, **search_kwargs) for q in query]] *)
Definition hashkeys (cfg : Cfg) (search_kwargs : gmap string pyval)
    (query : list string) : res (list key) :=
  map_res (fun q => hashkey cfg q search_kwargs) query.

(** The [wrapper] that [batched_cache(func)] returns.  [env] is the
    value of the environment variable DISABLE_CACHE, if set. *)
Definition wrapper (cfg : Cfg) (env : option string) (query : query_arg)
    (search_kwargs : gmap string pyval) : eff state event (list (option R)) :=
  let query := as_list query in
  let disable_cache := disable_cache env search_kwargs in
  let search_kwargs := delete "disable_cache" search_kwargs in
  if truthy disable_cache then call_func query search_kwargs
  else
    keys <~ lift_res (hashkeys cfg search_kwargs query) ;;
    results <~ lookup_all keys ;;
    let new_query := new_query query results in
    let new_indices := new_indices results in
    results <~ match new_query with
               | [] => ret results
               | _ :: _ =>
                   new_results <~ call_func new_query search_kwargs ;;
                   write_back keys (zip new_indices new_results) results
               end ;;
    lift_res (assert_all results).

Definition batched_cache := wrapper.

(** The events of a trace that are calls of the wrapped operation. *)
Definition func_calls (tr : list event) : list event :=
  filter (fun ev => is_func ev = true) tr.

Definition cache_ops (tr : list event) : list event :=
  filter (fun ev => is_cache ev = true) tr.

Definition is_get (ev : event) : Prop :=
  match ev with EvGet _ _ => True | _ => False end.

Definition is_put (ev : event) : Prop :=
  match ev with EvPut _ _ => True | _ => False end.

(** A cache read that found a stored result; a stored [None] is no hit
    (line 61 treats it as a miss). *)
Definition hit (ev : event) : Prop :=
  match ev with
  | EvGet _ (Ok (Some (Some _, _))) => True
  | EvGet _ _ => False
  | _ => True
  end.

End BatchedCache.

Arguments key : clear implicits.
Arguments entry : clear implicits.
Arguments event : clear implicits.
Arguments state : clear implicits.

Section LocalRetriever.
Context {R World : Type}.

(** [self.batch_size], [self.query_preprocess_pipeline] and the abstract
    method [search_batch]. *)
Variable batch_size : Z.
Variable query_preprocess_pipeline : string -> string.
Variable search_batch :
  list string -> gmap string pyval -> World -> res (list (option R)) * World.

(** The events of [LocalRetriever.search] are the batches it hands to
    [search_batch]. *)
Definition call_search_batch (batch : list string) (kw : gmap string pyval)
  : eff World (list string) (list (option R)) :=
  fun w =>
    match search_batch batch kw w with
    | (r, w') => (r, w', [batch])
    end.

(** [range(0, n, step)]: a zero step is a [ValueError], a negative one
    gives the empty range. *)
Definition batch_starts (n : nat) (step : Z) : res (list nat) :=
  if (step =? 0)%Z then Raise ValueError
  else if (step <? 0)%Z then Ok []
  else
    let b := Z.to_nat step in
    Ok (map (fun k => k * b)%nat (seq 0 ((n + b - 1) / b))).

(** Lines 199-216, the function that [batched_cache] decorates. *)
Definition search (query : query_arg) (kwargs : gmap string pyval)
  : eff World (list string) (list (option R)) :=
  let no_preprocess := default (PyBool false) (kwargs !! "no_preprocess") in
  let search_kwargs := delete "no_preprocess" kwargs in
  let query := as_list query in
  let query :=
    if negb (truthy no_preprocess) then map query_preprocess_pipeline query
    else query in
  starts <~ lift_res (batch_starts (length query) batch_size) ;;
  foldM (fun final_results idx =>
           let batch := take (Z.to_nat batch_size) (drop idx query) in
           results_ <~ call_search_batch batch search_kwargs ;;
           ret (final_results ++ results_))
    starts [].

(** [search] as the [func] that [wrapper] calls with a list of queries. *)
Definition search_func (query : list string) (kwargs : gmap string pyval)
    (w : World) : res (list (option R)) * World :=
  match search (QList query) kwargs w with
  | (r, w', _) => (r, w')
  end.

End LocalRetriever.

(** Modelled from the spec: the cache store behind [RETRIEVAL_CACHE]
    (the code of [PersistentCache], in librarian/cache, is not embedded).
    A key-value store bounded by a maximal number of entries with
    least-recently-used eviction: [get] returns the value or absent and
    counts as a use, [put] evicts the entry untouched longest when the
    store is full.  A store that cannot be reached fails every operation. *)
Record lru_store (K V : Type) : Type := {
  reachable : bool;
  maxsize : N;
  resident : list (K * V)
}.
Arguments reachable {K V} _.
Arguments maxsize {K V} _.
Arguments resident {K V} _.

Section LruStore.
Context {K V : Type} `{EqDecision K}.

Definition unreachable : exn := BackendError "cache store unreachable".

Definition without (k : K) (l : list (K * V)) : list (K * V) :=
  filter (fun kv => fst kv <> k) l.

Definition lru_get (k : K) (s : lru_store K V) : res (option V) * lru_store K V :=
  if reachable s then
    match list_find (fun kv => fst kv = k) (resident s) with
    | Some (_, (_, v)) =>
        (Ok (Some v),
         {| reachable := true; maxsize := maxsize s;
            resident := (k, v) :: without k (resident s) |})
    | None => (Ok None, s)
    end
  else (Raise unreachable, s).

Definition lru_put (k : K) (v : V) (s : lru_store K V) : res unit * lru_store K V :=
  if reachable s then
    let others := without k (resident s) in
    let others :=
      if (maxsize s <=? N.of_nat (length others))%N then removelast others
      else others in
    (Ok tt,
     {| reachable := true; maxsize := maxsize s; resident := (k, v) :: others |})
  else (Raise unreachable, s).

End LruStore.

End RetrieverBase.



(** ** What a trace of the cached search shows *)

Module RetrieverBaseShape.
Import RetrieverBase.

Section Shape.
Context {Cfg R : Type}.

(** The results that the cache reads of a trace found stored, in order:
    the [r] of every tuple [(r, key)] that a read returned. *)
Definition read_results (tr : list (event Cfg R)) : list (option R) :=
  omap (fun ev =>
          match ev with
          | EvGet _ (Ok (Some (r, _))) => Some r
          | _ => None
          end)
    tr.

(** The keys a trace writes to, in order. *)
Definition put_keys (tr : list (event Cfg R)) : list (key Cfg) :=
  omap (fun ev =>
          match ev with
          | EvPut k _ => Some k
          | _ => None
          end)
    tr.

(** The arguments of the calls of the wrapped operation, in order. *)
Definition func_args (tr : list (event Cfg R))
  : list (list string * gmap string pyval) :=
  omap (fun ev =>
          match ev with
          | EvFunc qs kw => Some (qs, kw)
          | _ => None
          end)
    tr.

(** A cache write that did not fail (and any event that is no write). *)
Definition put_done (ev : event Cfg R) : Prop :=
  match ev with
  | EvPut _ (Raise _) => False
  | _ => True
  end.

(** The keys of a batch, as line 57 builds them from the keyword
    arguments that remain once [disable_cache] is popped. *)
Definition keys_of (cfg : Cfg) (kw : gmap string pyval) (qs : list string)
  : list (key Cfg) :=
  map (fun q => (cfg, q, delete "disable_cache" kw)) qs.

End Shape.

(** The queries [LocalRetriever.search] works on after lines 206-208: the
    queries of the call, passed through the pipeline unless the call says
    [no_preprocess]. *)
Definition preprocessed (query_preprocess_pipeline : string -> string)
    (query : query_arg) (kwargs : gmap string pyval) : list string :=
  if negb (truthy (default (PyBool false) (kwargs !! "no_preprocess")))
  then map query_preprocess_pipeline (as_list query)
  else as_list query.

End RetrieverBaseShape.

(** ** [RetrieverBase.test_speed] (retriever_base.py, lines 143-164), for a
    retriever whose [search] is decorated by [batched_cache], as
    [LocalRetriever.search] is *)

Module RetrieverSpeed.
Import RetrieverBase.

(** What [test_speed] can raise besides the exceptions of the search:
    line 154 takes [i % len(sents)], line 159 divides by [test_times], and
    line 164 reads [end_time], which only the loop assigns. *)
Inductive failure : Type :=
| Raised (e : exn)
| ZeroDivisionError
| UnboundLocalError.

Inductive outcome (A : Type) : Type :=
| Done (a : A)
| Failed (f : failure).
Arguments Done {A} _.
Arguments Failed {A} _.

Section TestSpeed.
Context {Cfg R Store World : Type}.
Variable cache_get : key Cfg -> Store -> res (option (entry Cfg R)) * Store.
Variable cache_put : key Cfg -> entry Cfg R -> Store -> res unit * Store.
Variable func :
  list string -> gmap string pyval -> World -> res (list (option R)) * World.

(** [self.cfg], the environment variable DISABLE_CACHE, [self.top_k] and
    the sentences of the corpus that line 152 joins. *)
Variable cfg : Cfg.
Variable env : option string.
Variable top_k : Z.
Variable sents : list string.

(** A call [self.search(query, *more, **search_kwargs)] of the wrapper of
    line 40, whose signature is [(self, query, **search_kwargs)]: a
    positional argument after the query is a [TypeError] of the call. *)
Definition call_search (query : query_arg) (more : list pyval)
    (search_kwargs : gmap string pyval)
  : eff (state Store World) (event Cfg R) (list (option R)) :=
  match more with
  | [] => wrapper cache_get cache_put func cfg env query search_kwargs
  | _ :: _ => raise TypeError
  end.

(** Line 154: [[sents[i % len(sents)] for i in range(sample_num)]]. *)
Definition sample (sample_num : Z) : outcome (list string) :=
  match Z.to_nat sample_num, sents with
  | O, _ => Done []
  | S _, [] => Failed ZeroDivisionError
  | n, s0 :: _ =>
      Done (map (fun i => nth (i mod length sents) sents s0) (seq 0 n))
  end.

(** Lines 154-158, one round of the loop.  Passing [disable_cache] both by
    name and in [search_kwargs] is a [TypeError] of the call. *)
Definition timed_search (sample_num : Z) (search_kwargs : gmap string pyval)
    (s : state Store World)
  : outcome unit * state Store World * list (event Cfg R) :=
  match sample sample_num with
  | Failed f => (Failed f, s, [])
  | Done query =>
      match search_kwargs !! "disable_cache" with
      | Some _ => (Failed (Raised TypeError), s, [])
      | None =>
          match call_search (QList query) [PyInt top_k]
                  (<["disable_cache" := PyBool true]> search_kwargs) s with
          | (Ok _, s', tr) => (Done tt, s', tr)
          | (Raise e, s', tr) => (Failed (Raised e), s', tr)
          end
      end
  end.

(** Lines 153-158: [for _ in range(test_times)]. *)
Fixpoint rounds (n : nat) (sample_num : Z) (search_kwargs : gmap string pyval)
    (s : state Store World)
  : outcome unit * state Store World * list (event Cfg R) :=
  match n with
  | O => (Done tt, s, [])
  | S k =>
      match timed_search sample_num search_kwargs s with
      | (Done _, s1, tr1) =>
          match rounds k sample_num search_kwargs s1 with
          | (r, s2, tr2) => (r, s2, tr1 ++ tr2)
          end
      | (Failed f, s1, tr1) => (Failed f, s1, tr1)
      end
  end.

(** Lines 143-164.  The times measured play no part in what is called or
    raised; the value returned is left out. *)
Definition test_speed (sample_num test_times : Z)
    (search_kwargs : gmap string pyval) (s : state Store World)
  : outcome unit * state Store World * list (event Cfg R) :=
  match rounds (Z.to_nat test_times) sample_num search_kwargs s with
  | (Done _, s', tr) =>
      if (test_times =? 0)%Z then (Failed ZeroDivisionError, s', tr)
      else if (test_times <? 0)%Z then (Failed UnboundLocalError, s', tr)
      else (Done tt, s', tr)
  | (Failed f, s', tr) => (Failed f, s', tr)
  end.

End TestSpeed.

End RetrieverSpeed.
(** ** kylin/kylin_searcher.py *)

Module Kylin.

(** A chat message [{"role": ..., "content": ...}]; a prompt is a list of
    them. *)
Record message : Type := { role : string; content : string }.

Abbreviation prompt := (list message).

(** What a retriever returns for one query: a dictionary with the entries
    ["texts"] and ["indices"] or ["urls"]. *)
Abbreviation group := (gmap string (list string)).

(** The dictionaries built at lines 288-294.  [ctx_text] is [None] once a
    summary has judged the context irrelevant. *)
Record context : Type := {
  ctx_query : string;
  ctx_retriever : string;
  ctx_text : option string;
  ctx_full_text : string;
  ctx_source : string
}.

(** The dictionaries appended to the history at lines 298-304; the entry
    ["summarized_contexts"] is added at line 308 only. *)
Record record : Type := {
  rec_retriever : string;
  rec_query : string;
  rec_contexts : list context;
  rec_summarized_contexts : option (list context)
}.

(** The fields of [KylinLLMSearcher] the search reads.  [retrievers] lists
    the names under which [self.retrievers] holds the retrievers, in the
    order the dictionary yields them. *)
Record searcher : Type := {
  rewrite : bool;
  verify : bool;
  summary_context : bool;
  retriever_top_k : Z;
  disable_cache : bool;
  retrievers : list string
}.

(** The calls a search makes, in order: [self.rewrite_query] (line 270),
    a retriever's [search] (line 278) and [self.verify_contexts] (line 314),
    each with the turn (and the position of the retriever) it is made in,
    and the calls of the language model; calls of collaborators carry
    their outcome. *)
Inductive event : Type :=
| EvRewrite (turn idx : nat) (engine info : string) (failing_history : list record)
| EvSearch (turn idx : nat) (retriever : string) (queries : list string)
    (top_k : Z) (disable_cache : bool) (found : res (list group))
| EvVerify (turn : nat) (contexts : list context)
| EvChat (prompts : list prompt) (responses : res (list string)).

Definition nl : string := String "010"%char "".

(** [f"{x}"] for a value that may be [None]. *)
Definition format_opt (o : option string) : string :=
  match o with
  | Some s => s
  | None => "None"
  end.

Section Searcher.
(** The collaborators: the language model behind [self.searcher.chat], the
    retrievers behind [self.retrievers[name].search], and the prompts of
    kylin/kylin_prompts.py. *)
Context {World : Type}.
Variable chat : list prompt -> World -> res (list string) * World.
Variable retriever_search :
  string -> list string -> Z -> bool -> World -> res (list group) * World.
Variable rewrite_prompts : gmap string prompt.
Variable verify_prompt : prompt.
Variable summary_prompt : prompt.

Variable self : searcher.

Definition call_chat (prompts : list prompt) : eff World event (list string) :=
  fun w =>
    match chat prompts w with
    | (r, w') => (r, w', [EvChat prompts r])
    end.

(** [l[0]] *)
Definition first {A} (l : list A) : eff World event A :=
  match l with
  | a :: _ => ret a
  | [] => raise IndexError
  end.

(** Lines 331-352. *)
Definition rewrite_query (info engine_name : string)
    (failing_history : list record) : eff World event string :=
  let failing_queries := map rec_query failing_history in
  let user_prompt := "Query: " +:+ info in
  let user_prompt :=
    if (0 <? length failing_queries)%nat then
      fold_left (fun acc q => acc +:+ nl +:+ "Failing Query: " +:+ q)
        failing_queries
        (user_prompt +:+ nl +:+
           "Here are some queries that failed to retrieve the information, " +:+
           "please avoid using them.")
    else user_prompt in
  match rewrite_prompts !! engine_name with
  | None => raise KeyError
  | Some p =>
      responses <~ call_chat [p ++ [{| role := "user"; content := user_prompt |}]] ;;
      first responses
  end.

(** Lines 354-366. *)
Definition verify_contexts (contexts : list context) (question : string)
  : eff World event bool :=
  if negb (verify self) then ret true
  else
    let user_prompt :=
      fold_left
        (fun acc nc =>
           acc +:+ "Context " +:+ pretty (fst nc) +:+ ": " +:+
             format_opt (ctx_text (snd nc)) +:+ nl +:+ nl)
        (enumerate contexts) "" in
    let user_prompt := user_prompt +:+ "Topic: " +:+ question in
    responses <~
      call_chat [verify_prompt ++ [{| role := "user"; content := user_prompt |}]] ;;
    response <~ first responses ;;
    ret (contains "yes" (lower response)).

(** A regular expression without repetition, enough for the two patterns
    of [not_relevant]. *)
Inductive regex : Type :=
| Lit (s : string)
| Seq (a b : regex)
| Alt (a b : regex).

(** The remainders of [s] after each way [r] matches a prefix of it. *)
Fixpoint matches (r : regex) (s : string) : list string :=
  match r with
  | Lit l => if String.prefix l s then [drop_string (String.length l) s] else []
  | Seq a b => concat (map (matches b) (matches a s))
  | Alt a b => matches a s ++ matches b s
  end.

(** [re.match(pattern, text)]: a match at the start of [text]. *)
Definition re_match (pattern : regex) (text : string) : bool :=
  match matches pattern text with
  | [] => false
  | _ :: _ => true
  end.

Definition patterns : list regex :=
  [ Seq (Lit "context does not ") (Alt (Lit "provide") (Lit "contain"));
    Lit "no relevant information" ].

(** Lines 371-379. *)
Definition not_relevant (text : string) : bool :=
  existsb (fun pattern => re_match pattern (lower text)) patterns.

Definition set_text (ctx : context) (text : option string) : context :=
  {| ctx_query := ctx_query ctx;
     ctx_retriever := ctx_retriever ctx;
     ctx_text := text;
     ctx_full_text := ctx_full_text ctx;
     ctx_source := ctx_source ctx |}.

(** Lines 393-398: the loop over [zip(responses, summarized)] on the copy
    of the contexts; a context beyond the last response keeps its text. *)
Fixpoint apply_summaries (responses : list string) (summarized : list context)
  : list context :=
  match responses, summarized with
  | summ :: responses', ctx :: summarized' =>
      set_text ctx (if not_relevant summ then None else Some summ)
        :: apply_summaries responses' summarized'
  | _, _ => summarized
  end.

(** Lines 368-399. *)
Definition summary_prompts (contexts : list context) (question : string)
  : list prompt :=
  map (fun ctx =>
         summary_prompt ++
           [{| role := "user";
               content := "Context: " +:+ ctx_full_text ctx +:+ nl +:+ nl +:+
                          "Question: " +:+ question |}])
    contexts.

Definition summarize_contexts (contexts : list context) (question : string)
  : eff World event (list context) :=
  responses <~ call_chat (summary_prompts contexts question) ;;
  ret (apply_summaries responses contexts).

(** Lines 278-282: [self.retrievers[retriever].search([q], top_k=...,
    disable_cache=...)]. *)
Definition call_search (turn idx : nat) (retriever : string)
    (queries : list string) : eff World event (list group) :=
  fun w =>
    match retriever_search retriever queries (retriever_top_k self)
            (disable_cache self) w with
    | (r, w') =>
        (r, w', [EvSearch turn idx retriever queries (retriever_top_k self)
                   (disable_cache self) r])
    end.

(** Lines 288-294: the dictionary built for a text [t] and its
    identifier [s]. *)
Definition make_context (query_to_search retriever : string)
    (ts : string * string) : context :=
  {| ctx_query := query_to_search;
     ctx_retriever := retriever;
     ctx_text := Some (fst ts);
     ctx_full_text := fst ts;
     ctx_source := snd ts |}.

(** Lines 284-296: the identifiers come from ["indices"], or from ["urls"]
    when there are no ["indices"]; texts and identifiers are zipped. *)
Definition post_process (query_to_search retriever : string) (ctxs : group)
  : res (list context) :=
  let normalised :=
    match ctxs !! "indices" with
    | Some _ => Ok ctxs
    | None =>
        match ctxs !! "urls" with
        | Some urls => Ok (<["indices" := urls]> ctxs)
        | None => Raise AssertionError
        end
    end in
  match normalised with
  | Raise e => Raise e
  | Ok ctxs =>
      match ctxs !! "texts", ctxs !! "indices" with
      | Some texts, Some indices =>
          Ok (map (make_context query_to_search retriever) (zip texts indices))
      | _, _ => Raise KeyError
      end
  end.

(** [l[i]] *)
Definition index {A} (l : list A) (i : nat) : eff World event A :=
  match l !! i with
  | Some a => ret a
  | None => raise IndexError
  end.

Definition with_summary (r : record) (summarized : list context) : record :=
  {| rec_retriever := rec_retriever r;
     rec_query := rec_query r;
     rec_contexts := rec_contexts r;
     rec_summarized_contexts := Some summarized |}.

Definition has_text (c : context) : bool :=
  match ctx_text c with Some _ => true | None => false end.

(** Lines 267-276, [# rewrite query]. *)
Definition query_to_search (query : string) (turn_num idx : nat)
    (retriever : string) (retrieval_history : list (list record))
  : eff World event string :=
  if rewrite self then
    failing_history <~
      mapM (fun i => index i idx) (take turn_num retrieval_history) ;;
    _ <~ emit (EvRewrite turn_num idx retriever query failing_history) ;;
    rewrite_query query retriever failing_history
  else ret query.

(** What lines 278-296 make of the outcome of a retriever's [search]: the
    contexts of its first result. *)
Definition retrieved (query_to_search retriever : string)
    (found : res (list group)) : res (list context) :=
  match found with
  | Ok (ctxs :: _) => post_process query_to_search retriever ctxs
  | Ok [] => Raise IndexError
  | Raise e => Raise e
  end.

(** Lines 277-296, [# retrieve] and [# post process]. *)
Definition retrieve (turn_num idx : nat) (retriever query_to_search : string)
  : eff World event (list context) :=
  groups <~ call_search turn_num idx retriever [query_to_search] ;;
  ctxs <~ first groups ;;
  lift_res (post_process query_to_search retriever ctxs).

(** Lines 266-311: the body of the loop over the retrievers.  The
    accumulator holds [contexts] and [retrieval_history]. *)
Definition retriever_step (query : string) (turn_num : nat)
    (acc : list context * list (list record)) (ir : nat * string)
  : eff World event (list context * list (list record)) :=
  let '(contexts, retrieval_history) := acc in
  let '(idx, retriever) := ir in
  query_to_search <~
    query_to_search query turn_num idx retriever retrieval_history ;;
  ctxs <~ retrieve turn_num idx retriever query_to_search ;;
  round <~ index retrieval_history turn_num ;;
  let new_record :=
    {| rec_retriever := retriever;
       rec_query := query_to_search;
       rec_contexts := ctxs;
       rec_summarized_contexts := None |} in
  if summary_context self then
    summarized <~ summarize_contexts ctxs query ;;
    ret (contexts ++ filter (fun i => has_text i = true) summarized,
         <[turn_num := round ++ [with_summary new_record summarized]]>
           retrieval_history)
  else
    ret (contexts ++ ctxs,
         <[turn_num := round ++ [new_record]]> retrieval_history).

(** Lines 264-311: one turn, [contexts = []], [retrieval_history.append([])]
    and the loop over [enumerate(self.retrievers)]. *)
Definition run_round (query : string) (turn_num : nat)
    (retrieval_history : list (list record))
  : eff World event (list context * list (list record)) :=
  foldM (retriever_step query turn_num) (enumerate (retrievers self))
    ([], retrieval_history ++ [[]]).

(** Lines 263-317: the [while turn_num < total_turn_num] loop, by recursion
    on the turns that remain, [total_turn_num - turn_num]. *)
Fixpoint turns (remaining : nat) (query : string) (turn_num : nat)
    (contexts : list context) (retrieval_history : list (list record))
  : eff World event (list context * list (list record)) :=
  match remaining with
  | O => ret (contexts, retrieval_history)
  | S remaining' =>
      cr <~ run_round query turn_num retrieval_history ;;
      _ <~ emit (EvVerify turn_num (fst cr)) ;;
      verification <~ verify_contexts (fst cr) query ;;
      if verification : bool then ret cr
      else turns remaining' query (S turn_num) (fst cr) (snd cr)
  end.

(** Line 260. *)
Definition total_turn_num : nat := if verify self then 3 else 1.

(** Lines 248-318. *)
Definition inner_search (query : string)
  : eff World event (list context * list (list record)) :=
  turns total_turn_num query 0 [] [].

End Searcher.

(** The contexts a round contributes: per record the summarized contexts
    that kept a text when there is a summary, the retrieved ones else. *)
Definition record_contexts (r : record) : list context :=
  match rec_summarized_contexts r with
  | Some summarized => filter (fun i => has_text i = true) summarized
  | None => rec_contexts r
  end.

Definition round_contexts (round : list record) : list context :=
  concat (map record_contexts round).

(** The queries that the retriever at position [idx] searched in the
    turns before [turn], in order. *)
Definition searched_by (idx turn : nat) (tr : list event) : list string :=
  flat_map
    (fun ev =>
       match ev with
       | EvSearch t i _ qs _ _ _ =>
           if (i =? idx)%nat && (t <? turn)%nat then qs else []
       | _ => []
       end)
    tr.

(** The queries a history records for the retriever at position [idx]. *)
Definition recorded_queries (idx : nat) (history : list (list record))
  : list string :=
  omap (fun round => rec_query <$> round !! idx) history.

Definition is_chat (ev : event) : Prop :=
  match ev with EvChat _ _ => True | _ => False end.

Definition is_search (ev : event) : bool :=
  match ev with EvSearch _ _ _ _ _ _ _ => true | _ => false end.

Definition is_verify (ev : event) : bool :=
  match ev with EvVerify _ _ => true | _ => false end.

(** The events of turn [t], and those of the turns before [t]; calls of
    the language model carry no turn. *)
Definition at_turn (t : nat) (ev : event) : Prop :=
  match ev with
  | EvRewrite t0 _ _ _ _ | EvSearch t0 _ _ _ _ _ _ | EvVerify t0 _ => t0 = t
  | EvChat _ _ => True
  end.

Definition before_turn (t : nat) (ev : event) : Prop :=
  match ev with
  | EvRewrite t0 _ _ _ _ | EvSearch t0 _ _ _ _ _ _ | EvVerify t0 _ => t0 < t
  | EvChat _ _ => True
  end.

(** The phrases of the patterns of [not_relevant]. *)
Definition phrases : list string :=
  [ "context does not provide"; "context does not contain";
    "no relevant information" ].

(** Every call of [rewrite_query] in [tr] is made for the retriever at its
    position, with the query of the search, and gets the records of the
    queries this retriever searched in the turns before. *)
Definition rewrites_ok (self : searcher) (query : string) (tr : list event)
  : Prop :=
  forall t idx eng info fh,
    EvRewrite t idx eng info fh ∈ tr ->
    info = query /\ retrievers self !! idx = Some eng /\
    map rec_query fh = searched_by idx t tr.

(** A summary that begins with one of the phrases, whatever the case of
    its letters. *)
Definition begins_with_phrase (summ : string) : Prop :=
  Exists (fun p => String.prefix p (lower summ) = true) phrases.

(** A search whose first result has neither ["indices"] nor ["urls"]. *)
Definition lacks_identifiers (ev : event) : Prop :=
  match ev with
  | EvSearch _ _ _ _ _ _ (Ok (g :: _)) =>
      g !! "indices" = None /\ g !! "urls" = None
  | _ => False
  end.

(** What the step of the retriever [name] at position [idx] in turn [t]
    guarantees of its events [tr] and of its outcome [r], when it starts
    with the contexts [cs], the finished rounds [history] and the records
    [cur] of the round under way. *)
Definition step_ok (query : string) (t : nat) (history : list (list record))
    (cs : list context) (cur : list record) (idx : nat) (name : string)
    (r : res (list context * list (list record))) (tr : list event) : Prop :=
  Forall (at_turn t) tr /\
  (forall t0 i0 eng info fh,
     EvRewrite t0 i0 eng info fh ∈ tr ->
     i0 = idx /\ eng = name /\ info = query /\
     map rec_query fh = recorded_queries idx history) /\
  (forall i, i <> idx -> searched_by i (S t) tr = []) /\
  (forall cs' h',
     r = Ok (cs', h') ->
     exists rec,
       h' = history ++ [cur ++ [rec]] /\
       cs' = cs ++ record_contexts rec /\
       rec_retriever rec = name /\
       searched_by idx (S t) tr = [rec_query rec] /\
       length (filter (fun ev => is_search ev = true) tr) = 1).

(** What a well-formed retriever result for one query holds. *)
Definition well_formed (g : group) : Prop :=
  is_Some (g !! "texts") /\ (is_Some (g !! "indices") \/ is_Some (g !! "urls")).

(** Collaborators that do their part: the language model answers every
    prompt of a batch, the retrievers answer every query of a batch with a
    well-formed result, and every retriever has a rewrite prompt. *)
Definition answers_every_prompt {World : Type}
    (chat : list prompt -> World -> res (list string) * World) : Prop :=
  forall ps w, exists rs, fst (chat ps w) = Ok rs /\ length rs = length ps.

Definition answers_every_query {World : Type}
    (retriever_search :
       string -> list string -> Z -> bool -> World -> res (list group) * World)
  : Prop :=
  forall name qs k d w,
    exists gs,
      fst (retriever_search name qs k d w) = Ok gs /\
      length gs = length qs /\ Forall well_formed gs.

Definition prompts_cover (rewrite_prompts : gmap string prompt)
    (self : searcher) : Prop :=
  Forall (fun name => is_Some (rewrite_prompts !! name)) (retrievers self).

End Kylin.

(** ** Shapes of histories and traces of [inner_search] *)

Module KylinShape.
Import Kylin.

(** A context as lines 288-294 build it, for the query [q] and the
    retriever [name]: its text is its full text. *)
Definition built_for (q name : string) (c : context) : Prop :=
  ctx_query c = q /\ ctx_retriever c = name /\ ctx_text c = Some (ctx_full_text c).

(** Two contexts that differ at most in their text. *)
Definition same_but_text (c s : context) : Prop :=
  set_text c None = set_text s None.

(** A record as a step of [inner_search] leaves it: its contexts are built
    for its query and retriever, and it carries summarized contexts, one
    per context and equal to it up to the text, exactly when [self]
    summarizes. *)
Definition record_wf (self : searcher) (r : record) : Prop :=
  Forall (built_for (rec_query r) (rec_retriever r)) (rec_contexts r) /\
  match rec_summarized_contexts r with
  | Some summarized =>
      summary_context self = true /\
      Forall2 same_but_text (rec_contexts r) summarized
  | None => summary_context self = false
  end.

(** A round as a turn leaves it: one well-formed record per retriever, in
    the order of the retrievers. *)
Definition round_wf (self : searcher) (round : list record) : Prop :=
  map rec_retriever round = retrievers self /\ Forall (record_wf self) round.

(** An event that is no call of the language model and no call of
    [rewrite_query]. *)
Definition no_model_call (ev : event) : Prop :=
  match ev with
  | EvChat _ _ | EvRewrite _ _ _ _ _ => False
  | _ => True
  end.

(** An event that is no call of [rewrite_query] and, if it is a search,
    searches the one query [query]. *)
Definition searches_only (query : string) (ev : event) : Prop :=
  match ev with
  | EvRewrite _ _ _ _ _ => False
  | EvSearch _ _ _ qs _ _ _ => qs = [query]
  | _ => True
  end.

(** The turn, the position and the name of the searches of a trace, in
    order. *)
Definition search_calls (tr : list event) : list (nat * nat * string) :=
  omap (fun ev =>
          match ev with
          | EvSearch t i name _ _ _ _ => Some (t, i, name)
          | _ => None
          end)
    tr.

(** The searches of [rounds] full rounds, from turn [t] on: every turn
    goes through the retrievers in order. *)
Definition round_calls (names : list string) (t : nat) : list (nat * nat * string) :=
  imap (fun i name => (t, i, name)) names.

Definition rounds_calls (names : list string) (t rounds : nat)
  : list (nat * nat * string) :=
  flat_map (round_calls names) (seq t rounds).

(** A search whose outcome lines 278-296 cannot turn into contexts: the
    retriever raised, it answered with an empty list, or its first result
    lacks the texts or both kinds of identifiers.  [e] is the exception
    that results. *)
Definition failed_search (e : exn) (ev : event) : Prop :=
  match ev with
  | EvSearch _ _ name [q'] _ _ found => retrieved q' name found = Raise e
  | _ => False
  end.

(** A call of [rewrite_query] for a retriever that has no rewrite prompt. *)
Definition unprompted_rewrite (rewrite_prompts : gmap string prompt)
    (ev : event) : Prop :=
  match ev with
  | EvRewrite _ _ engine _ _ => rewrite_prompts !! engine = None
  | _ => False
  end.

End KylinShape.

(** ** kylin/kylin_searcher.py, the entry points: [answer], [_answer],
    [search], [determine_needed_information], [generate_with_context] *)

Module KylinAnswer.
Import Kylin.

(** *** The regular expression of line 328

    [re.findall(r"\[\d+\] (.+?)(?=\[\d+\]|\Z)", response)].  The module
    [re] is Python's; what follows is its backtracking semantics for the
    operators this pattern uses.  Strings are sequences of ASCII
    characters, so [\d] is one of [0-9]; [.] is any character but the line
    feed; [\Z] is the end of the string. *)

Inductive char_class : Type :=
| Digit  (* \d *)
| Dot.   (* . *)

Definition is_digit (a : ascii) : bool :=
  let n := nat_of_ascii a in (48 <=? n)%nat && (n <=? 57)%nat.

Definition line_feed : ascii := "010"%char.

Definition in_class (c : char_class) (a : ascii) : bool :=
  match c with
  | Digit => is_digit a
  | Dot => negb (Ascii.eqb a line_feed)
  end.

Inductive re : Type :=
| Chr (a : ascii)             (* an escaped or plain character *)
| Plus (c : char_class)       (* c+ *)
| LazyPlus (c : char_class)   (* c+? *)
| Group (r : re)              (* ( r ), the one capturing group *)
| Ahead (r : re)              (* (?= r ) *)
| EndZ                        (* \Z *)
| Then (a b : re)             (* a b *)
| Or (a b : re).              (* a | b *)

(** The remainders of [s] after one, two, ... characters of the class
    [c], the shortest run first. *)
Fixpoint spans (c : char_class) (s : string) : list string :=
  match s with
  | String a s' => if in_class c a then s' :: spans c s' else []
  | EmptyString => []
  end.

(** The text that a match starting at [s] and leaving [rest] went over. *)
Definition consumed (s rest : string) : string :=
  String.substring 0 (String.length s - String.length rest) s.

(** The ways [r] matches at the start of [s], in the order in which the
    backtracking matcher tries them: each is the remainder of [s] with
    the text of the group, if the group took part. *)
Fixpoint run (r : re) (s : string) : list (string * option string) :=
  match r with
  | Chr a =>
      match s with
      | String b s' => if Ascii.eqb a b then [(s', None)] else []
      | EmptyString => []
      end
  | Plus c => map (fun rest => (rest, None)) (rev (spans c s))
  | LazyPlus c => map (fun rest => (rest, None)) (spans c s)
  | Group r => map (fun m => (fst m, Some (consumed s (fst m)))) (run r s)
  | Ahead r =>
      match run r s with
      | [] => []
      | _ :: _ => [(s, None)]
      end
  | EndZ =>
      match s with
      | EmptyString => [(s, None)]
      | String _ _ => []
      end
  | Then a b =>
      flat_map
        (fun m1 =>
           map (fun m2 =>
                  (fst m2,
                   match snd m2 with Some g => Some g | None => snd m1 end))
             (run b (fst m1)))
        (run a s)
  | Or a b => run a s ++ run b s
  end.

(** [re.findall] for a pattern with one group: scan from the left; where
    the pattern matches, take the text of the group and go on after the
    match; elsewhere, move on by one character.  [skip] counts the
    characters of a match still to be passed over.  (After a match of no
    character the scan moves on by one character; the pattern of line 328
    has no such match.) *)
Fixpoint scan (r : re) (skip : nat) (s : string) : list string :=
  match skip with
  | S k =>
      match s with
      | String _ s' => scan r k s'
      | EmptyString => []
      end
  | O =>
      match run r s with
      | m :: _ =>
          default "" (snd m) ::
            match s with
            | String _ s' =>
                scan r (String.length s - String.length (fst m) - 1) s'
            | EmptyString => []
            end
      | [] =>
          match s with
          | String _ s' => scan r 0 s'
          | EmptyString => []
          end
      end
  end.

Definition findall (r : re) (s : string) : list string := scan r 0 s.

(** [\[\d+\]] *)
Definition bracketed_number : re :=
  Then (Chr "[") (Then (Plus Digit) (Chr "]")).

(** [\[\d+\] (.+?)(?=\[\d+\]|\Z)] *)
Definition info_pattern : re :=
  Then bracketed_number
    (Then (Chr " ")
       (Then (Group (LazyPlus Dot)) (Ahead (Or bracketed_number EndZ)))).

(** *** The search track *)

(** The dictionaries appended to [search_track["retrieval"]] at lines
    241-243. *)
Record atom_track : Type := {
  atom_query : string;
  retrieval_history : list (list record)
}.

(** [search_track]: the entry ["generation_prompt"] is added by [_answer]
    only (line 225). *)
Record search_track : Type := {
  question : string;
  retrieval : list atom_track;
  retrieved_contexts : list context;
  generation_prompt : option prompt
}.

(** [self]: the fields that [inner_search] reads, and [extract_info]. *)
Record llm_searcher : Type := {
  extract_info : bool;
  inner : searcher
}.

(** The calls an answer makes, in order: those of the search (the
    language model behind [self.searcher], the retrievers) and the calls
    of [self.generator.chat], with their outcome. *)
Inductive event : Type :=
| EvSearcher (ev : Kylin.event)
| EvGenerate (prompts : list prompt) (responses : res (list string)).

Section Answer.
(** The collaborators: those of [inner_search], the language model behind
    [self.generator.chat], and the two further prompts of
    kylin/kylin_prompts.py. *)
Context {World : Type}.
Variable chat : list prompt -> World -> res (list string) * World.
Variable generate : list prompt -> World -> res (list string) * World.
Variable retriever_search :
  string -> list string -> Z -> bool -> World -> res (list group) * World.
Variable rewrite_prompts : gmap string prompt.
Variable verify_prompt : prompt.
Variable summary_prompt : prompt.
Variable determine_info_prompt : prompt.
Variable generate_prompt : prompt.

Variable self : llm_searcher.

(** A method of the searcher run inside an answer: its calls are recorded
    as calls of the search. *)
Definition of_search {A} (m : eff World Kylin.event A) : eff World event A :=
  fun w =>
    match m w with
    | (r, w', tr) => (r, w', map EvSearcher tr)
    end.

Definition call_generate (prompts : list prompt) : eff World event (list string) :=
  fun w =>
    match generate prompts w with
    | (r, w') => (r, w', [EvGenerate prompts r])
    end.

(** [l[0]] *)
Definition item0 {A} (l : list A) : res A :=
  match l with
  | a :: _ => Ok a
  | [] => Raise IndexError
  end.

(** Lines 320-329. *)
Definition determine_needed_information (query : string)
  : eff World Kylin.event (list string * string) :=
  let prompt :=
    determine_info_prompt ++
      [{| role := "user"; content := "Question: " +:+ query |}] in
  responses <~ call_chat chat [prompt] ;;
  response <~ lift_res (item0 responses) ;;
  ret (findall info_pattern response, response).

(** Lines 239-244, one iteration: [contexts] and [search_track["retrieval"]]
    are the accumulator. *)
Definition search_step (acc : list context * list atom_track) (q : string)
  : eff World event (list context * list atom_track) :=
  cr <~ of_search
          (inner_search chat retriever_search rewrite_prompts verify_prompt
             summary_prompt (inner self) q) ;;
  ret (fst acc ++ fst cr,
       snd acc ++ [{| atom_query := q; retrieval_history := snd cr |}]).

(** Lines 228-246. *)
Definition search (question : string)
  : eff World event (list context * search_track) :=
  info_needed <~
    (if extract_info self then
       ir <~ of_search (determine_needed_information question) ;;
       ret (fst ir)
     else ret [question]) ;;
  cr <~ foldM search_step info_needed ([], []) ;;
  ret (fst cr,
       {| question := question;
          retrieval := snd cr;
          retrieved_contexts := fst cr;
          generation_prompt := None |}).

(** Lines 401-419.  The contexts are the dictionaries of lines 288-294,
    which have no entry ["summary"]: line 411 reads their ["text"]. *)
Definition generate_with_context (question : string) (contexts : list context)
  : eff World event (string * prompt) :=
  let usr_prompt :=
    fold_left
      (fun acc nc =>
         acc +:+ "Context " +:+ pretty (fst nc + 1)%nat +:+ ": " +:+
           format_opt (ctx_text (snd nc)) +:+ nl +:+ nl)
      (enumerate contexts) "" in
  let usr_prompt := usr_prompt +:+ "Question: " +:+ question in
  let prompt := generate_prompt ++ [{| role := "user"; content := usr_prompt |}] in
  responses <~ call_generate [prompt] ;;
  response <~ lift_res (item0 responses) ;;
  ret (response, prompt).

Definition with_generation_prompt (t : search_track) (p : prompt) : search_track :=
  {| question := question t;
     retrieval := retrieval t;
     retrieved_contexts := retrieved_contexts t;
     generation_prompt := Some p |}.

(** Lines 219-226. *)
Definition _answer (question : string) : eff World event (string * search_track) :=
  cs <~ search question ;;
  rp <~ generate_with_context question (fst cs) ;;
  ret (fst rp, with_generation_prompt (snd cs) (snd rp)).

(** Lines 208-217. *)
Definition answer (questions : list string)
  : eff World event (list string * list search_track) :=
  foldM (fun acc question =>
           rt <~ _answer question ;;
           ret (fst acc ++ [fst rt], snd acc ++ [snd rt]))
    questions ([], []).

End Answer.

(** The calls of the generator in a trace, in order: the prompts of each. *)
Definition generations (tr : list event) : list (list prompt) :=
  omap (fun ev =>
          match ev with
          | EvGenerate prompts _ => Some prompts
          | EvSearcher _ => None
          end)
    tr.

(** The calls of the search in a trace. *)
Definition searcher_events (tr : list event) : list Kylin.event :=
  omap (fun ev =>
          match ev with
          | EvSearcher ev => Some ev
          | EvGenerate _ _ => None
          end)
    tr.

(** The contexts the last round of a retrieval history contributes. *)
Definition last_round_contexts (history : list (list record)) : list context :=
  match last history with
  | Some round => round_contexts round
  | None => []
  end.

(** A numbered list as the prompt asks the model for it, on one line: every
    item after its number in brackets and a space. *)
Definition numbered_item (ni : string * string) : string :=
  "[" +:+ fst ni +:+ "] " +:+ snd ni.

Definition numbered_list (items : list (string * string)) : string :=
  fold_right (fun ni acc => numbered_item ni +:+ acc) "" items.

(** Strings of digits, and strings free of a character. *)
Fixpoint all_digits (s : string) : bool :=
  match s with
  | EmptyString => true
  | String a s' => is_digit a && all_digits s'
  end.

Fixpoint free_of (a : ascii) (s : string) : bool :=
  match s with
  | EmptyString => true
  | String b s' => negb (Ascii.eqb a b) && free_of a s'
  end.

(** Where the look-ahead of the pattern holds: at the end of the string
    and before a bracketed number. *)
Definition item_ends (rest : string) : Prop :=
  rest = "" \/
  exists ds t, rest = String "[" (ds +:+ String "]" t) /\
               all_digits ds = true /\ ds <> "".

End KylinAnswer.

(** ** Concrete collaborators, for running the embedded code *)

Module Examples.
Import RetrieverBase.

(** A retriever whose configuration is trivial, whose results are lists of
    texts and whose backend has no state: every query [q] yields the one
    text ["doc:" ++ q]. *)
Definition ex_key : Type := key unit.
Definition ex_entry : Type := entry unit (list string).
Definition ex_store : Type := lru_store ex_key ex_entry.
Definition ex_state : Type := state ex_store unit.
Definition ex_event : Type := event unit (list string).

Definition ex_func (qs : list string) (kw : gmap string pyval) (w : unit)
  : res (list (option (list string))) * unit :=
  (Ok (map (fun q => Some ["doc:" +:+ q]) qs), w).

Definition ex_wrapper (env : option string) (query : query_arg)
    (kw : gmap string pyval)
  : eff ex_state ex_event (list (option (list string))) :=
  wrapper lru_get lru_put ex_func tt env query kw.

(** The same retriever as a [LocalRetriever]: batches of 32 queries, a
    pipeline that leaves the queries as they are. *)
Definition ex_search_batch (qs : list string) (kw : gmap string pyval) (w : unit)
  : res (list (option (list string))) * unit :=
  (Ok (map (fun q => Some ["doc:" +:+ q]) qs), w).

Definition ex_cached_search (env : option string) (query : query_arg)
    (kw : gmap string pyval)
  : eff ex_state ex_event (list (option (list string))) :=
  wrapper lru_get lru_put (search_func 32 (fun q => q) ex_search_batch)
    tt env query kw.

Definition top_k_10 : gmap string pyval := {[ "top_k" := PyInt 10 ]}.

Definition ex_key_of (q : string) : ex_key := (tt, q, top_k_10).

(** A fresh store, a store that holds the result of ["a"], and a store
    that cannot be reached. *)
Definition cold : ex_state :=
  {| store := {| reachable := true; maxsize := 10000000; resident := [] |};
     world := tt |}.

Definition warm_a : ex_state :=
  {| store := {| reachable := true; maxsize := 10000000;
                 resident := [(ex_key_of "a", (Some ["doc:a"], ex_key_of "a"))] |};
     world := tt |}.

Definition down : ex_state :=
  {| store := {| reachable := false; maxsize := 10000000; resident := [] |};
     world := tt |}.


(** The stored tuple of ["a"] and the cache read that finds it. *)
Definition entry_a : ex_entry := (Some ["doc:a"], ex_key_of "a").

Definition read_a : ex_event := EvGet (ex_key_of "a") (Ok (Some entry_a)).

(** Keyword arguments that pass [disable_cache] explicitly. *)
Definition with_disable_cache (b : bool) : gmap string pyval :=
  <["disable_cache" := PyBool b]> top_k_10.


(** *** A searcher over two retrievers

    The language model counts its calls.  It answers a verification
    prompt with ["No."], a summary prompt with a sentence about Paris when
    the context mentions Paris and with ["No relevant information."]
    otherwise, and a rewrite prompt with the number of the call.  The
    retriever ["bm25"] identifies its texts by ["indices"], the retriever
    ["web"] by ["urls"]. *)
Import Kylin.

Definition system (text : string) : prompt :=
  [{| role := "system"; content := text |}].

Definition ex_rewrite_prompts : gmap string prompt :=
  <["bm25" := system "rewrite"]> {[ "web" := system "rewrite for the web" ]}.

Definition ex_verify_prompt : prompt := system "verify".

Definition ex_summary_prompt : prompt := system "summarize".

Definition ex_answer (n : nat) (p : prompt) : string :=
  match p with
  | {| content := "verify" |} :: _ => "No."
  | {| content := "summarize" |} :: {| content := c |} :: _ =>
      if contains "Paris" c then "Paris is the capital."
      else "No relevant information."
  | _ => "query " +:+ pretty n
  end.

Definition ex_chat (ps : list prompt) (n : nat) : res (list string) * nat :=
  (Ok (map (ex_answer n) ps), S n).

Definition ex_group (name : string) : group :=
  <["texts" := ["Paris is the capital of France."; "Berlin is in Germany."] ]>
    (if String.eqb name "web" then {[ "urls" := ["http://a"; "http://b"] ]}
     else {[ "indices" := ["doc1"; "doc2"] ]}).

Definition ex_search (name : string) (qs : list string) (top_k : Z)
    (disable_cache : bool) (n : nat) : res (list group) * nat :=
  (Ok (map (fun _ => ex_group name) qs), n).

(** A retriever that answers with neither ["indices"] nor ["urls"]. *)
Definition bad_search (name : string) (qs : list string) (top_k : Z)
    (disable_cache : bool) (n : nat) : res (list group) * nat :=
  (Ok (map (fun _ => {[ "texts" := ["Paris"] ]} : group) qs), n).

Definition ex_searcher (rewrite verify summary : bool) : searcher :=
  {| rewrite := rewrite; verify := verify; summary_context := summary;
     retriever_top_k := 10; disable_cache := false;
     retrievers := ["bm25"; "web"] |}.

Definition france : string := "capital of France".

Definition ex_texts : list string :=
  ["Paris is the capital of France."; "Berlin is in Germany."].

(** The contexts and the record of ["bm25"] for the query [q]. *)
Definition bm25_contexts (q : string) : list context :=
  map (make_context q "bm25") (zip ex_texts ["doc1"; "doc2"]).

Definition bm25_record (q : string) : record :=
  {| rec_retriever := "bm25"; rec_query := q;
     rec_contexts := bm25_contexts q; rec_summarized_contexts := None |}.

(** The summaries of the two contexts of ["bm25"]. *)
Definition bm25_summaries : list string :=
  ["Paris is the capital."; "No relevant information."].

Definition bm25_summarized (q : string) : list context :=
  apply_summaries bm25_summaries (bm25_contexts q).

(** A language model whose summaries all say ["does not contain"], in
    the middle of a sentence. *)
Definition evasive : string := "This does not contain the answer.".

Definition evasive_chat (ps : list prompt) (n : nat) : res (list string) * nat :=
  (Ok (map (fun _ => evasive) ps), S n).

(** The search of ["bm25"] that [bad_search] answers. *)
Definition bad_event : event :=
  EvSearch 0 0 "bm25" [france] 10 false (Ok [{[ "texts" := ["Paris"] ]}]).

Definition ex_inner_search (self : searcher) (query : string)
  : eff nat event (list context * list (list record)) :=
  inner_search ex_chat ex_search ex_rewrite_prompts ex_verify_prompt
    ex_summary_prompt self query.

End Examples.

(** ** More concrete collaborators and runs *)

Module MoreExamples.
Import RetrieverBase Examples.

(** *** The cached batch search *)

(** A store that holds the result of ["a"] and, for ["b"], a stored
    [None]. *)
Definition stale_b : ex_state :=
  {| store := {| reachable := true; maxsize := 10000000;
                 resident := [(ex_key_of "a", (Some ["doc:a"], ex_key_of "a"));
                              (ex_key_of "b", (None, ex_key_of "b"))] |};
     world := tt |}.

Definition ab : query_arg := QList ["a"; "b"].

(** A wrapped search whose backend is down. *)
Definition index_offline : exn := BackendError "index offline".

Definition failing_func (qs : list string) (kw : gmap string pyval) (w : unit)
  : res (list (option (list string))) * unit :=
  (Raise index_offline, w).

(** The batch ["a"], ["b"] on that store: with the retriever of the
    examples, and with the failing one. *)
Definition refill : res (list (option (list string))) * ex_state * list ex_event :=
  ex_wrapper None ab top_k_10 stale_b.

Definition refill_fails
  : res (list (option (list string))) * ex_state * list ex_event :=
  wrapper lru_get lru_put failing_func tt None ab top_k_10 stale_b.

(** The list a call returned, if it returned. *)
Definition returned {A} (r : res (list A)) : list A :=
  match r with
  | Ok l => l
  | Raise _ => []
  end.

(** Two sentences of a corpus, for [test_speed]. *)
Definition corpus : list string :=
  ["The jury praised the administration ."; "It recommended a new law ."].

(** *** [LocalRetriever.search] in batches of two *)

Definition five : query_arg := QList ["a"; "b"; "c"; "d"; "e"].

Definition in_pairs : res (list (option (list string))) * unit * list (list string) :=
  search 2 (fun q => q) ex_search_batch five ∅ tt.

(** *** The searcher *)
Import Kylin KylinAnswer.

(** A language model that answers ["Yes."] to every prompt. *)
Definition yes_chat (ps : list prompt) (n : nat) : res (list string) * nat :=
  (Ok (map (fun _ => "Yes.") ps), S n).

(** The contexts and the history a search returned, if it returned. *)
Definition contexts_of {S E}
    (run : res (list context * list (list record)) * S * E) : list context :=
  match fst (fst run) with
  | Ok (cs, _) => cs
  | Raise _ => []
  end.

Definition history_of {S E}
    (run : res (list context * list (list record)) * S * E)
  : list (list record) :=
  match fst (fst run) with
  | Ok (_, history) => history
  | Raise _ => []
  end.

(** Three searches for [france] on the collaborators of the examples:
    with verification (which the model of the examples never grants),
    with nothing but retrieval, and with summaries. *)
Definition verifying : searcher := ex_searcher false true false.
Definition plain : searcher := ex_searcher false false false.
Definition summarizing : searcher := ex_searcher false false true.

Definition verified_run := ex_inner_search verifying france 0.
Definition plain_run := ex_inner_search plain france 0.
Definition summarized_run := ex_inner_search summarizing france 0.

(** The same with a model that grants the verification at once. *)
Definition granted_run :=
  inner_search yes_chat ex_search ex_rewrite_prompts ex_verify_prompt
    ex_summary_prompt verifying france 0.

(** A retriever that answers every batch with an empty list, and the one
    search that a plain search for [france] makes of it. *)
Definition silent_search (name : string) (qs : list string) (top_k : Z)
    (disable_cache : bool) (n : nat) : res (list group) * nat :=
  (Ok [], n).

Definition silent_run :=
  inner_search ex_chat silent_search ex_rewrite_prompts ex_verify_prompt
    ex_summary_prompt plain france 0.

Definition silent_event : Kylin.event := EvSearch 0 0 "bm25" [france] 10 false (Ok []).

(** Rewrite prompts that have no entry for ["web"], and the call of
    [rewrite_query] that a rewriting search makes for it. *)
Definition only_bm25 : gmap string prompt := {[ "bm25" := system "rewrite" ]}.

Definition unprompted_run :=
  inner_search ex_chat ex_search only_bm25 ex_verify_prompt ex_summary_prompt
    (ex_searcher true false false) france 0.

Definition unprompted_event : Kylin.event := EvRewrite 0 1 "web" france [].

(** A retriever result without texts, and the summaries of the contexts
    of ["bm25"]. *)
Definition no_texts : group := {[ "indices" := ["doc1"; "doc2"] ]}.

Definition summaries_run :=
  summarize_contexts ex_chat ex_summary_prompt (bm25_contexts france) france 0.

(** *** Answers *)

Definition ex_determine_prompt : prompt := system "determine".
Definition ex_generate_prompt : prompt := system "generate".

(** A numbered list on one line, and a language model that answers the
    prompt of [determine_needed_information] with it. *)
Definition two_items : list (string * string) :=
  [("1", "capital of France"); ("2", "capital of Germany")].

Definition listing_chat (ps : list prompt) (n : nat) : res (list string) * nat :=
  (Ok (map (fun p =>
              match p with
              | {| content := "determine" |} :: _ => numbered_list two_items
              | _ => ex_answer n p
              end)
         ps),
   S n).

Definition ex_generate (ps : list prompt) (n : nat) : res (list string) * nat :=
  (Ok (map (fun _ => "Paris.") ps), S n).

Definition extracting : llm_searcher := {| extract_info := true; inner := plain |}.

Definition track_of {S E}
    (run : res (list context * search_track) * S * E) : search_track :=
  match fst (fst run) with
  | Ok (_, track) => track
  | Raise _ =>
      {| question := ""; retrieval := []; retrieved_contexts := [];
         generation_prompt := None |}
  end.

Definition found_of {S E}
    (run : res (list context * search_track) * S * E) : list context :=
  match fst (fst run) with
  | Ok (cs, _) => cs
  | Raise _ => []
  end.

(** A search that extracts the two items, and the answers to two
    questions. *)
Definition extracting_run :=
  KylinAnswer.search listing_chat ex_search ex_rewrite_prompts ex_verify_prompt
    ex_summary_prompt ex_determine_prompt extracting france 0.

Definition two_questions : list string := [france; "capital of Germany"].

Definition answers_run :=
  answer ex_chat ex_generate ex_search ex_rewrite_prompts ex_verify_prompt
    ex_summary_prompt ex_determine_prompt ex_generate_prompt
    {| extract_info := false; inner := plain |} two_questions 0.

Definition answers_of {S E}
    (run : res (list string * list search_track) * S * E)
  : list string * list search_track :=
  match fst (fst run) with
  | Ok rt => rt
  | Raise _ => ([], [])
  end.

(** Three lines of a numbered list, one item per line. *)
Definition two_lines : list string := ["[1] capital of France"; "[2] capital of Germany"].
Definition last_line : string := "[3] capital of Spain".

End MoreExamples.

(** ** Reasoning about effectful computations *)

Module PyFacts.

Section Eff.
Context {S E : Type}.

Lemma bind_ok {A B} (m : eff S E A) (k : A -> eff S E B) s a s1 l1 :
  m s = (Ok a, s1, l1) ->
  bind m k s = (let '(r, s2, l2) := k a s1 in (r, s2, l1 ++ l2)).
Proof. intros Hm. unfold bind. rewrite Hm. reflexivity. Qed.

Lemma bind_raise {A B} (m : eff S E A) (k : A -> eff S E B) s e s1 l1 :
  m s = (Raise e, s1, l1) ->
  bind m k s = (Raise e, s1, l1).
Proof. intros Hm. unfold bind. rewrite Hm. reflexivity. Qed.

(** A bind raises in its first part, or runs both parts. *)
Lemma bind_inv {A B} (m : eff S E A) (k : A -> eff S E B) s r s' l :
  bind m k s = (r, s', l) ->
  (exists e, m s = (Raise e, s', l) /\ r = Raise e) \/
  (exists a s1 l1 l2,
      m s = (Ok a, s1, l1) /\ k a s1 = (r, s', l2) /\ l = l1 ++ l2).
Proof.
  unfold bind. destruct (m s) as [[[a | e] s1] l1].
  - destruct (k a s1) as [[r2 s2] l2] eqn:Hk. intros [= <- <- <-].
    right. exists a, s1, l1, l2. auto.
  - intros [= <- <- <-]. left. exists e. auto.
Qed.

Lemma bind_ret_l {A B} (a : A) (k : A -> eff S E B) s :
  bind (ret a) k s = k a s.
Proof. unfold bind, ret. destruct (k a s) as [[r s2] l2]. reflexivity. Qed.

Lemma bind_inv_ok {A B} (m : eff S E A) (k : A -> eff S E B) s b s' l :
  bind m k s = (Ok b, s', l) ->
  exists a s1 l1 l2,
    m s = (Ok a, s1, l1) /\ k a s1 = (Ok b, s', l2) /\ l = l1 ++ l2.
Proof.
  intros H. apply bind_inv in H as [(e & _ & He) | H]; [discriminate | exact H].
Qed.

Lemma lift_res_eq {A} (r : res A) (s : S) :
  @lift_res S E A r s = (r, s, []).
Proof. destruct r; reflexivity. Qed.

(** A pure list comprehension inside [mapM]. *)
Lemma mapM_lift_res {A B} (f : A -> res B) (l : list A) (s : S) :
  exists r, @mapM S E A B (fun a => lift_res (f a)) l s = (r, s, []).
Proof.
  induction l as [| a l IH]; simpl.
  - eexists. reflexivity.
  - unfold bind at 1. rewrite lift_res_eq. destruct (f a) as [b | e].
    + destruct IH as [r IH]. unfold bind at 1. rewrite IH.
      destruct r as [bs | e]; simpl; eexists; reflexivity.
    + eexists. reflexivity.
Qed.

Lemma mapM_length {A B} (f : A -> eff S E B) (l : list A) s bs s' tr :
  mapM f l s = (Ok bs, s', tr) -> length bs = length l.
Proof.
  revert s bs s' tr. induction l as [| a l IH]; simpl; intros s bs s' tr H.
  - injection H as <- _ _. reflexivity.
  - apply bind_inv_ok in H as (b & s1 & l1 & l2 & _ & H & _).
    apply bind_inv_ok in H as (bs' & s2 & l3 & l4 & Hl & H & _).
    injection H as <- _ _. simpl. f_equal. eapply IH, Hl.
Qed.

(** A property of emitted events that every step of a loop maintains
    holds of the events of the whole loop. *)
Lemma foldM_events {A B} (P : list E -> Prop) (f : B -> A -> eff S E B) :
  P [] ->
  (forall l1 l2, P l1 -> P l2 -> P (l1 ++ l2)) ->
  (forall b a s r s' tr, f b a s = (r, s', tr) -> P tr) ->
  forall l b s r s' tr, foldM f l b s = (r, s', tr) -> P tr.
Proof.
  intros Hnil Happ Hf l. induction l as [| a l IH]; simpl; intros b s r s' tr H.
  - injection H as _ _ <-. exact Hnil.
  - apply bind_inv in H as [(e & H & _) | (b' & s1 & l1 & l2 & H1 & H2 & ->)].
    + eapply Hf, H.
    + apply Happ; [eapply Hf, H1 | eapply IH, H2].
Qed.

Lemma mapM_events {A B} (P : list E -> Prop) (f : A -> eff S E B) :
  P [] ->
  (forall l1 l2, P l1 -> P l2 -> P (l1 ++ l2)) ->
  (forall a s r s' tr, f a s = (r, s', tr) -> P tr) ->
  forall l s r s' tr, mapM f l s = (r, s', tr) -> P tr.
Proof.
  intros Hnil Happ Hf l. induction l as [| a l IH]; simpl; intros s r s' tr H.
  - injection H as _ _ <-. exact Hnil.
  - apply bind_inv in H as [(e & H & _) | (b' & s1 & l1 & l2 & H1 & H2 & ->)].
    + eapply Hf, H.
    + apply Happ; [eapply Hf, H1 |].
      apply bind_inv in H2 as [(e & H & _) | (bs & s2 & l3 & l4 & H3 & H4 & ->)].
      * eapply IH, H.
      * injection H4 as _ _ <-. rewrite app_nil_r. eapply IH, H3.
Qed.

(** An event that makes the step that emits it raise [e] there and then
    does the same to the whole loop. *)
Lemma foldM_fatal {A B} (P : E -> Prop) (e : exn) (f : B -> A -> eff S E B) :
  (forall b a s r s' tr,
     f b a s = (r, s', tr) ->
     forall ev, ev ∈ tr -> P ev -> r = Raise e /\ exists tr0, tr = tr0 ++ [ev]) ->
  forall l b s r s' tr,
    foldM f l b s = (r, s', tr) ->
    forall ev, ev ∈ tr -> P ev -> r = Raise e /\ exists tr0, tr = tr0 ++ [ev].
Proof.
  intros Hf l. induction l as [| a l IH]; simpl; intros b s r s' tr H ev Hin HP.
  - injection H as _ _ <-. inversion Hin.
  - apply bind_inv in H as [(e0 & H & ->) | (b' & s1 & l1 & l2 & H1 & H2 & ->)].
    + eapply Hf; eassumption.
    + apply elem_of_app in Hin as [Hin | Hin].
      * destruct (Hf _ _ _ _ _ _ H1 _ Hin HP) as [Hr _]. discriminate.
      * destruct (IH _ _ _ _ _ H2 _ Hin HP) as [Hr [tr0 ->]].
        split; [exact Hr |]. exists (l1 ++ tr0). apply app_assoc.
Qed.

(** An invariant of the accumulator that every step maintains. *)
Lemma foldM_invariant {A B} (I : B -> Prop) (f : B -> A -> eff S E B) :
  (forall b a s b' s' tr, I b -> f b a s = (Ok b', s', tr) -> I b') ->
  forall l b s b' s' tr, I b -> foldM f l b s = (Ok b', s', tr) -> I b'.
Proof.
  intros Hf l. induction l as [| a l IH]; simpl; intros b s b' s' tr Hb H.
  - injection H as <- _ _. exact Hb.
  - apply bind_inv_ok in H as (b1 & s1 & l1 & l2 & H1 & H2 & _).
    eapply IH; [eapply Hf; eassumption | exact H2].
Qed.

End Eff.

End PyFacts.

(** ** Properties of the cached batch search *)

Module RetrieverBaseProps.
Import RetrieverBase PyFacts.

Section Wrapper.
Context {Cfg R Store World : Type}.
Variable cache_get : key Cfg -> Store -> res (option (entry Cfg R)) * Store.
Variable cache_put : key Cfg -> entry Cfg R -> Store -> res unit * Store.
Variable func :
  list string -> gmap string pyval -> World -> res (list (option R)) * World.

Local Abbreviation state := (state Store World).
Local Abbreviation event := (event Cfg R).

(** Line 58, one key at a time. *)
Lemma lookup_all_cons k keys (s : state) :
  lookup_all cache_get (k :: keys) s =
  match cache_get k (store s) with
  | (Ok (Some (x, k')), st') =>
      match lookup_all cache_get keys {| store := st'; world := world s |} with
      | (Ok bs, s2, l2) => (Ok (x :: bs), s2, EvGet k (Ok (Some (x, k'))) :: l2)
      | (Raise e, s2, l2) => (Raise e, s2, EvGet k (Ok (Some (x, k'))) :: l2)
      end
  | (Ok None, st') =>
      (Raise TypeError, {| store := st'; world := world s |}, [EvGet k (Ok None)])
  | (Raise e, st') =>
      (Raise e, {| store := st'; world := world s |}, [EvGet k (Raise e)])
  end.
Proof.
  unfold lookup_all. simpl. unfold bind, cache_read.
  destruct (cache_get k (store s)) as [[[[x k'] |] | e] st']; simpl; try reflexivity.
  match goal with |- context [mapM ?f keys ?s0] => destruct (mapM f keys s0) as [[[bs | e] s2] l2] end;
    simpl; rewrite ?app_nil_r; reflexivity.
Qed.

(** The lookups only read the cache; a failed read or an absent key stops
    them with an exception; if every read is a hit, every result is there. *)
Lemma lookup_all_spec keys : forall (s : state) r s' tr,
  lookup_all cache_get keys s = (r, s', tr) ->
  world s' = world s /\
  Forall is_get tr /\
  (forall k e, EvGet k (Raise e) ∈ tr -> r = Raise e) /\
  (forall k, EvGet k (Ok None) ∈ tr -> r = Raise TypeError) /\
  (Forall hit tr -> forall results, r = Ok results ->
     Forall (fun x => is_None x = false) results).
Proof.
  induction keys as [| k keys IH]; intros s r s' tr H.
  - injection H as <- <- <-. repeat split; try constructor.
    + intros k e Hin. inversion Hin.
    + intros k Hin. inversion Hin.
    + intros _ results [= <-]. constructor.
  - rewrite lookup_all_cons in H.
    destruct (cache_get k (store s)) as [[[[x k'] |] | e] st'].
    + destruct (lookup_all cache_get keys _) as [[r2 s2] l2] eqn:Hrec.
      apply IH in Hrec as (Hw & Hget & Hfail & Habs & Hhit). simpl in Hw.
      assert (r = match r2 with Ok bs => Ok (x :: bs) | Raise e => Raise e end
              /\ s' = s2 /\ tr = EvGet k (Ok (Some (x, k'))) :: l2) as (-> & -> & ->).
      { destruct r2; injection H as <- <- <-; auto. }
      repeat split.
      * exact Hw.
      * constructor; [exact I | exact Hget].
      * intros k0 e Hin. apply elem_of_cons in Hin as [Hin | Hin]; [discriminate |].
        rewrite (Hfail _ _ Hin). reflexivity.
      * intros k0 Hin. apply elem_of_cons in Hin as [Hin | Hin]; [discriminate |].
        rewrite (Habs _ Hin). reflexivity.
      * intros Hall results Hr. apply Forall_cons in Hall as [Hx Hall].
        destruct r2 as [bs |]; [| discriminate]. injection Hr as <-.
        constructor; [| apply Hhit; auto].
        simpl in Hx. destruct x; [reflexivity | contradiction].
    + injection H as <- <- <-. repeat split.
      * constructor; [exact I | constructor].
      * intros k0 e Hin. apply list_elem_of_singleton in Hin. discriminate.
      * intros Hall. apply Forall_cons in Hall as [[] _].
    + injection H as <- <- <-. repeat split.
      * constructor; [exact I | constructor].
      * intros k0 e0 Hin. apply list_elem_of_singleton in Hin.
        injection Hin as _ <-. reflexivity.
      * intros k0 Hin. apply list_elem_of_singleton in Hin. discriminate.
      * intros Hall. apply Forall_cons in Hall as [[] _].
Qed.


(** Lines 65-67, one iteration at a time. *)
Lemma write_back_cons keys n x pairs results (s : state) :
  write_back cache_put keys ((n, x) :: pairs) results s =
  if (n <? length results)%nat then
    match keys !! n with
    | Some k =>
        match cache_put k (x, k) (store s) with
        | (Ok u, st') =>
            match write_back cache_put keys pairs (<[n := x]> results)
                    {| store := st'; world := world s |} with
            | (r2, s2, l2) => (r2, s2, EvPut k (Ok u) :: l2)
            end
        | (Raise e, st') =>
            (Raise e, {| store := st'; world := world s |}, [EvPut k (Raise e)])
        end
    | None => (Raise IndexError, s, [])
    end
  else (Raise IndexError, s, []).
Proof.
  unfold write_back. simpl.
  destruct (n <? length results)%nat; [| reflexivity].
  destruct (keys !! n) as [k |]; [| reflexivity].
  unfold bind, cache_write.
  destruct (cache_put k (x, k) (store s)) as [[u | e] st']; simpl; [| reflexivity].
  match goal with |- context [foldM ?f pairs ?b ?s0] =>
    destruct (foldM f pairs b s0) as [[r2 s2] l2] end.
  reflexivity.
Qed.

(** Lines 65-67 only write the cache; a failed write stops them. *)
Lemma write_back_spec keys pairs : forall results (s : state) r s' tr,
  write_back cache_put keys pairs results s = (r, s', tr) ->
  world s' = world s /\
  Forall is_put tr /\
  (forall k e, EvPut k (Raise e) ∈ tr -> r = Raise e).
Proof.
  induction pairs as [| [n x] pairs IH]; intros results s r s' tr H.
  - injection H as <- <- <-. repeat split; [constructor |].
    intros k e Hin. inversion Hin.
  - rewrite write_back_cons in H.
    destruct (n <? length results)%nat; [| injection H as <- <- <-].
    2:{ repeat split; [constructor |]. intros k e Hin. inversion Hin. }
    destruct (keys !! n) as [k |]; [| injection H as <- <- <-].
    2:{ repeat split; [constructor |]. intros k e Hin. inversion Hin. }
    destruct (cache_put k (x, k) (store s)) as [[u | e] st'].
    + destruct (write_back _ _ _ _ _) as [[r2 s2] l2] eqn:Hrec.
      injection H as <- <- <-.
      apply IH in Hrec as (Hw & Hput & Hfail). simpl in Hw.
      repeat split; [exact Hw | constructor; [exact I | exact Hput] |].
      intros k0 e Hin. apply elem_of_cons in Hin as [Hin | Hin]; [discriminate |].
      eapply Hfail, Hin.
    + injection H as <- <- <-.
      repeat split; [constructor; [exact I | constructor] |].
      intros k0 e0 Hin. apply list_elem_of_singleton in Hin.
      injection Hin as _ <-. reflexivity.
Qed.

(** The cache-enabled path of [wrapper], phase by phase. *)
Lemma wrapper_enabled cfg env query kw (s : state) :
  truthy (disable_cache env kw) = false ->
  wrapper cache_get cache_put func cfg env query kw s =
  let kw' := delete "disable_cache" kw in
  match hashkeys cfg kw' (as_list query) with
  | Raise e => (Raise e, s, [])
  | Ok keys =>
      match lookup_all cache_get keys s with
      | (Raise e, s1, l1) => (Raise e, s1, l1)
      | (Ok results, s1, l1) =>
          match new_query (as_list query) results with
          | [] => (assert_all results, s1, l1)
          | q0 :: nq =>
              match func (q0 :: nq) kw' (world s1) with
              | (Raise e, w') =>
                  (Raise e, {| store := store s1; world := w' |},
                   l1 ++ [EvFunc (q0 :: nq) kw'])
              | (Ok new_results, w') =>
                  match write_back cache_put keys
                          (zip (new_indices results) new_results) results
                          {| store := store s1; world := w' |} with
                  | (Ok res, s2, l2) =>
                      (assert_all res, s2, l1 ++ EvFunc (q0 :: nq) kw' :: l2)
                  | (Raise e, s2, l2) =>
                      (Raise e, s2, l1 ++ EvFunc (q0 :: nq) kw' :: l2)
                  end
              end
          end
      end
  end.
Proof.
  intros Hen. unfold wrapper. rewrite Hen. cbv zeta.
  unfold bind at 1. rewrite lift_res_eq.
  destruct (hashkeys _ _ _) as [keys | e]; [| reflexivity].
  unfold bind at 1.
  destruct (lookup_all cache_get keys s) as [[[results | e] s1] l1]; [| reflexivity].
  unfold bind at 1.
  destruct (new_query (as_list query) results) as [| q0 nq].
  - unfold ret at 1. rewrite lift_res_eq, !app_nil_r. reflexivity.
  - unfold bind at 1. unfold call_func at 1.
    destruct (func (q0 :: nq) _ (world s1)) as [[new_results | e] w']; [| reflexivity].
    destruct (write_back _ _ _ _ _) as [[[res | e] s2] l2]; [| reflexivity].
    rewrite lift_res_eq, app_nil_r. reflexivity.
Qed.

(** The cache-disabled path delegates the batch. *)
Lemma wrapper_disabled cfg env query kw (s : state) :
  truthy (disable_cache env kw) = true ->
  wrapper cache_get cache_put func cfg env query kw s =
  match func (as_list query) (delete "disable_cache" kw) (world s) with
  | (r, w') =>
      (r, {| store := store s; world := w' |},
       [EvFunc (as_list query) (delete "disable_cache" kw)])
  end.
Proof. intros Hdis. unfold wrapper. rewrite Hdis. reflexivity. Qed.


Lemma func_calls_gets (tr : list event) : Forall is_get tr -> func_calls tr = [].
Proof.
  induction 1 as [| ev tr Hev _ IH]; [reflexivity |].
  unfold func_calls in *. rewrite filter_cons, IH.
  destruct ev; simpl in *; try contradiction; reflexivity.
Qed.

Lemma func_calls_puts (tr : list event) : Forall is_put tr -> func_calls tr = [].
Proof.
  induction 1 as [| ev tr Hev _ IH]; [reflexivity |].
  unfold func_calls in *. rewrite filter_cons, IH.
  destruct ev; simpl in *; try contradiction; reflexivity.
Qed.

Lemma func_calls_app (tr1 tr2 : list event) :
  func_calls (tr1 ++ tr2) = func_calls tr1 ++ func_calls tr2.
Proof. apply filter_app. Qed.

Lemma func_calls_func qs kw (tr : list event) :
  func_calls (EvFunc qs kw :: tr) = EvFunc qs kw :: func_calls tr.
Proof. reflexivity. Qed.

Lemma not_get_in_puts k found (tr : list event) :
  Forall is_put tr -> EvGet k found ∉ tr.
Proof.
  intros Hall Hin. rewrite Forall_forall in Hall. exact (Hall _ Hin).
Qed.

Lemma not_put_in_gets k done (tr : list event) :
  Forall is_get tr -> EvPut k done ∉ tr.
Proof.
  intros Hall Hin. rewrite Forall_forall in Hall. exact (Hall _ Hin).
Qed.

(** No miss, no query for the wrapped operation. *)
Lemma new_query_nil query (results : list (option R)) :
  Forall (fun x => is_None x = false) results -> new_query query results = [].
Proof.
  unfold new_query. intros Hall. revert query.
  induction Hall as [| x results Hx _ IH]; intros [| q query]; try reflexivity.
  simpl. rewrite filter_cons. simpl. rewrite Hx.
  destruct (decide (false = true)) as [Hd | _]; [discriminate | apply IH].
Qed.

(** One call of [wrapper] calls the wrapped operation at most once. *)
Lemma wrapper_calls_func_at_most_once cfg env query kw (s : state) r s' tr :
  wrapper cache_get cache_put func cfg env query kw s = (r, s', tr) ->
  length (func_calls tr) <= 1.
Proof.
  intros H. destruct (truthy (disable_cache env kw)) eqn:Hd.
  - rewrite wrapper_disabled in H by exact Hd.
    destruct (func _ _ _) as [r0 w']. injection H as _ _ <-. simpl. lia.
  - rewrite wrapper_enabled in H by exact Hd. cbv zeta in H.
    destruct (hashkeys _ _ _) as [keys | e]; [| injection H as _ _ <-; simpl; lia].
    destruct (lookup_all cache_get keys s) as [[r1 s1] l1] eqn:Hl.
    apply lookup_all_spec in Hl as (_ & Hget & _).
    apply func_calls_gets in Hget.
    destruct r1 as [results | e]; [| injection H as _ _ <-; rewrite Hget; simpl; lia].
    destruct (new_query _ _) as [| q0 nq];
      [injection H as _ _ <-; rewrite Hget; simpl; lia |].
    destruct (func _ _ _) as [[new_results | e] w'].
    + destruct (write_back _ _ _ _ _) as [[r2 s2] l2] eqn:Hw.
      apply write_back_spec in Hw as (_ & Hput & _). apply func_calls_puts in Hput.
      assert (tr = l1 ++ EvFunc (q0 :: nq) (delete "disable_cache" kw) :: l2) as ->
        by (destruct r2; injection H as _ _ <-; reflexivity).
      rewrite func_calls_app, func_calls_func, Hget, Hput. simpl. lia.
    + injection H as _ _ <-. rewrite func_calls_app, Hget. simpl. lia.
Qed.

(** With the cache enabled, a call all of whose reads are hits does not
    call the wrapped operation. *)
Lemma wrapper_all_hits cfg env query kw (s : state) r s' tr :
  wrapper cache_get cache_put func cfg env query kw s = (r, s', tr) ->
  truthy (disable_cache env kw) = false ->
  Forall hit tr ->
  func_calls tr = [].
Proof.
  intros H Hd Hhit. rewrite wrapper_enabled in H by exact Hd. cbv zeta in H.
  destruct (hashkeys _ _ _) as [keys | e]; [| injection H as _ _ <-; reflexivity].
  destruct (lookup_all cache_get keys s) as [[r1 s1] l1] eqn:Hl.
  apply lookup_all_spec in Hl as (_ & Hget & _ & _ & Hall).
  pose proof (func_calls_gets _ Hget) as Hnone.
  destruct r1 as [results | e]; [| injection H as _ _ <-; exact Hnone].
  destruct (new_query _ _) as [| q0 nq] eqn:Hnq;
    [injection H as _ _ <-; exact Hnone |].
  exfalso.
  assert (Forall hit l1) as Hhit1.
  { destruct (func _ _ _) as [[new_results | e] w'].
    - destruct (write_back _ _ _ _ _) as [[[res | e] s2] l2];
        injection H as _ _ <-; apply Forall_app in Hhit as [Hhit _]; exact Hhit.
    - injection H as _ _ <-. apply Forall_app in Hhit as [Hhit _]. exact Hhit. }
  rewrite (new_query_nil _ _ (Hall Hhit1 results eq_refl)) in Hnq. discriminate.
Qed.

(** C4: if every query of the batch is a cache hit, the wrapped search is
    never invoked; and of two calls with the same queries and parameters,
    the second invokes it at most once. *)
Theorem hits_never_invoke_underlying_search cfg env query kw
    (s : state) r1 s1 tr1 r2 s2 tr2 :
  wrapper cache_get cache_put func cfg env query kw s = (r1, s1, tr1) ->
  wrapper cache_get cache_put func cfg env query kw s1 = (r2, s2, tr2) ->
  (truthy (disable_cache env kw) = false ->
   (Forall hit tr1 -> func_calls tr1 = []) /\
   (Forall hit tr2 -> func_calls tr2 = [])) /\
  length (func_calls tr2) <= 1.
Proof.
  intros H1 H2. split.
  - intros Hd. split; intros Hhit.
    + eapply wrapper_all_hits; eassumption.
    + eapply wrapper_all_hits; eassumption.
  - eapply wrapper_calls_func_at_most_once, H2.
Qed.


(** An absent key makes line 58 subscript [None]: the call raises
    [TypeError] before the wrapped operation is reached. *)
Lemma absent_key_raises cfg env query kw (s : state) r s' tr k :
  wrapper cache_get cache_put func cfg env query kw s = (r, s', tr) ->
  EvGet k (Ok None) ∈ tr ->
  r = Raise TypeError /\ func_calls tr = [].
Proof.
  intros H Hin. destruct (truthy (disable_cache env kw)) eqn:Hd.
  - rewrite wrapper_disabled in H by exact Hd.
    destruct (func _ _ _) as [r0 w']. injection H as _ _ <-.
    apply list_elem_of_singleton in Hin. discriminate.
  - rewrite wrapper_enabled in H by exact Hd. cbv zeta in H.
    destruct (hashkeys _ _ _) as [keys | e];
      [| injection H as _ _ <-; inversion Hin].
    destruct (lookup_all cache_get keys s) as [[r1 s1] l1] eqn:Hl.
    apply lookup_all_spec in Hl as (_ & Hget & _ & Habs & _).
    assert (EvGet k (Ok None) ∈ l1) as Hin1.
    { destruct r1 as [results | e]; [| injection H as _ _ <-; exact Hin].
      destruct (new_query _ _) as [| q0 nq]; [injection H as _ _ <-; exact Hin |].
      destruct (func _ _ _) as [[new_results | e] w'].
      - destruct (write_back _ _ _ _ _) as [[r2 s2] l2] eqn:Hw.
        apply write_back_spec in Hw as (_ & Hput & _).
        assert (tr = l1 ++ EvFunc (q0 :: nq) (delete "disable_cache" kw) :: l2) as ->
          by (destruct r2; injection H as _ _ <-; reflexivity).
        apply elem_of_app in Hin as [Hin | Hin]; [exact Hin |].
        apply elem_of_cons in Hin as [Hin | Hin]; [discriminate |].
        destruct (not_get_in_puts _ _ _ Hput Hin).
      - injection H as _ _ <-.
        apply elem_of_app in Hin as [Hin | Hin]; [exact Hin |].
        apply list_elem_of_singleton in Hin. discriminate. }
    rewrite (Habs _ Hin1) in H. injection H as <- _ <-.
    split; [reflexivity | apply func_calls_gets, Hget].
Qed.

(** C7, as the code has it: a failing cache read or write is not absorbed.
    The exception of the cache operation is the outcome of the search;
    after a failed read the wrapped operation is not invoked at all. *)
Theorem cache_failure_fails_the_search cfg env query kw (s : state) r s' tr k e :
  wrapper cache_get cache_put func cfg env query kw s = (r, s', tr) ->
  (EvGet k (Raise e) ∈ tr -> r = Raise e /\ func_calls tr = []) /\
  (EvPut k (Raise e) ∈ tr -> r = Raise e).
Proof.
  intros H. destruct (truthy (disable_cache env kw)) eqn:Hd.
  - rewrite wrapper_disabled in H by exact Hd.
    destruct (func _ _ _) as [r0 w']. injection H as _ _ <-.
    split; intros Hin; apply list_elem_of_singleton in Hin; discriminate.
  - rewrite wrapper_enabled in H by exact Hd. cbv zeta in H.
    destruct (hashkeys _ _ _) as [keys | e0];
      [| injection H as _ _ <-; split; intros Hin; inversion Hin].
    destruct (lookup_all cache_get keys s) as [[r1 s1] l1] eqn:Hl.
    apply lookup_all_spec in Hl as (_ & Hget & Hfail & _ & _).
    pose proof (func_calls_gets _ Hget) as Hnone.
    destruct r1 as [results | e0].
    2:{ injection H as <- _ <-. split; intros Hin.
        - split; [apply (Hfail _ _ Hin) | exact Hnone].
        - destruct (not_put_in_gets _ _ _ Hget Hin). }
    assert (forall k0 e1, EvGet k0 (Raise e1) ∉ l1) as Hnofail.
    { intros k0 e1 Hin. specialize (Hfail _ _ Hin). discriminate. }
    destruct (new_query _ _) as [| q0 nq].
    { injection H as _ _ <-. split; intros Hin.
      - destruct (Hnofail _ _ Hin).
      - destruct (not_put_in_gets _ _ _ Hget Hin). }
    destruct (func _ _ _) as [[new_results | e0] w'].
    + destruct (write_back _ _ _ _ _) as [[r2 s2] l2] eqn:Hw.
      apply write_back_spec in Hw as (_ & Hput & Hwfail).
      assert (tr = l1 ++ EvFunc (q0 :: nq) (delete "disable_cache" kw) :: l2
              /\ (forall e1, r2 = Raise e1 -> r = Raise e1)) as [-> Hr].
      { destruct r2; injection H as <- _ <-; split; congruence. }
      split; intros Hin.
      * apply elem_of_app in Hin as [Hin | Hin]; [destruct (Hnofail _ _ Hin) |].
        apply elem_of_cons in Hin as [Hin | Hin]; [discriminate |].
        destruct (not_get_in_puts _ _ _ Hput Hin).
      * apply elem_of_app in Hin as [Hin | Hin];
          [destruct (not_put_in_gets _ _ _ Hget Hin) |].
        apply elem_of_cons in Hin as [Hin | Hin]; [discriminate |].
        apply Hr, (Hwfail _ _ Hin).
    + injection H as _ _ <-. split; intros Hin.
      * apply elem_of_app in Hin as [Hin | Hin]; [destruct (Hnofail _ _ Hin) |].
        apply list_elem_of_singleton in Hin. discriminate.
      * apply elem_of_app in Hin as [Hin | Hin];
          [destruct (not_put_in_gets _ _ _ Hget Hin) |].
        apply list_elem_of_singleton in Hin. discriminate.
Qed.

(** C8, as the code has it: the environment flag is the default of the
    per-call setting.  Set to a non-empty value it makes a call that does
    not pass [disable_cache] delegate the whole batch, with no cache read
    or write; a call that passes [disable_cache] is decided by that value
    alone, whatever the environment. *)
Theorem env_flag_is_the_default_of_the_call cfg env query kw (s : state) :
  (forall v r s' tr,
     env = Some v -> v <> "" -> kw !! "disable_cache" = None ->
     wrapper cache_get cache_put func cfg env query kw s = (r, s', tr) ->
     tr = [EvFunc (as_list query) kw] /\ cache_ops tr = [] /\
     store s' = store s /\ func (as_list query) kw (world s) = (r, world s')) /\
  (forall v env',
     kw !! "disable_cache" = Some v ->
     wrapper cache_get cache_put func cfg env query kw s =
     wrapper cache_get cache_put func cfg env' query kw s).
Proof.
  split.
  - intros v r s' tr -> Hv Hkw H.
    rewrite wrapper_disabled in H.
    2:{ unfold disable_cache. rewrite Hkw. simpl.
        destruct v; [contradiction | reflexivity]. }
    rewrite delete_id in H by exact Hkw.
    destruct (func _ _ _) as [r0 w']. injection H as <- <- <-. auto.
  - intros v env' Hkw. unfold wrapper, disable_cache. rewrite Hkw. reflexivity.
Qed.

Lemma hashkeys_length cfg kw query (keys : list (key Cfg)) :
  hashkeys cfg kw query = Ok keys -> length keys = length query.
Proof.
  unfold hashkeys. revert keys. induction query as [| q query IH]; simpl; intros keys H.
  - injection H as <-. reflexivity.
  - destruct (hashkey cfg q kw); [| discriminate].
    destruct (map_res _ query) as [ks |]; [| discriminate].
    injection H as <-. simpl. f_equal. apply IH. reflexivity.
Qed.

Lemma lookup_all_length keys (s : state) results s' tr :
  lookup_all cache_get keys s = (Ok results, s', tr) -> length results = length keys.
Proof. apply mapM_length. Qed.

Lemma write_back_length keys pairs : forall results (s : state) res s' tr,
  write_back cache_put keys pairs results s = (Ok res, s', tr) ->
  length res = length results.
Proof.
  induction pairs as [| [n x] pairs IH]; intros results s res s' tr H.
  - injection H as <- _ _. reflexivity.
  - rewrite write_back_cons in H.
    destruct (n <? length results)%nat; [| discriminate].
    destruct (keys !! n) as [k |]; [| discriminate].
    destruct (cache_put k (x, k) (store s)) as [[u | e] st']; [| discriminate].
    destruct (write_back _ _ _ _ _) as [[r2 s2] l2] eqn:Hrec.
    injection H as -> _ _. apply IH in Hrec. rewrite Hrec. apply length_insert.
Qed.

Lemma assert_all_ok (results res : list (option R)) :
  assert_all results = Ok res -> res = results.
Proof.
  unfold assert_all. destruct (forallb _ _); [| discriminate]. congruence.
Qed.

(** With the cache enabled, a call that returns returns one result per
    query. *)
Lemma wrapper_enabled_length cfg env query kw (s : state) results s' tr :
  truthy (disable_cache env kw) = false ->
  wrapper cache_get cache_put func cfg env query kw s = (Ok results, s', tr) ->
  length results = length (as_list query).
Proof.
  intros Hd H. rewrite wrapper_enabled in H by exact Hd. cbv zeta in H.
  destruct (hashkeys _ _ _) as [keys | e] eqn:Hk; [| discriminate].
  apply hashkeys_length in Hk.
  destruct (lookup_all cache_get keys s) as [[[rs | e] s1] l1] eqn:Hl; [| discriminate].
  apply lookup_all_length in Hl.
  destruct (new_query _ _) as [| q0 nq].
  - injection H as H _ _. apply assert_all_ok in H as ->. congruence.
  - destruct (func _ _ _) as [[new_results | e] w']; [| discriminate].
    destruct (write_back _ _ _ _ _) as [[[res | e] s2] l2] eqn:Hw; [| discriminate].
    apply write_back_length in Hw.
    injection H as H _ _. apply assert_all_ok in H as ->. congruence.
Qed.

(** A single string is searched as the one-element list that holds it,
    and the call returns a list of one result (given that the wrapped
    operation answers every query of a batch). *)
Lemma wrapper_string_query cfg env q kw (s : state) results s' tr :
  (forall qs kw0 w rs w', func qs kw0 w = (Ok rs, w') -> length rs = length qs) ->
  wrapper cache_get cache_put func cfg env (QStr q) kw s = (Ok results, s', tr) ->
  (forall s0 : state,
     wrapper cache_get cache_put func cfg env (QStr q) kw s0 =
     wrapper cache_get cache_put func cfg env (QList [q]) kw s0) /\
  length results = 1.
Proof.
  intros Hfunc H. split; [reflexivity |].
  destruct (truthy (disable_cache env kw)) eqn:Hd.
  - rewrite wrapper_disabled in H by exact Hd.
    destruct (func _ _ _) as [r0 w'] eqn:Hf. injection H as -> _ _.
    apply Hfunc in Hf. exact Hf.
  - apply wrapper_enabled_length in H; [exact H | exact Hd].
Qed.

End Wrapper.

(** *** [LocalRetriever.search], the decorated search *)

Section Local.
Context {R World : Type}.
Variable batch_size : Z.
Variable query_preprocess_pipeline : string -> string.
Variable search_batch :
  list string -> gmap string pyval -> World -> res (list (option R)) * World.

Local Abbreviation search := (search batch_size query_preprocess_pipeline search_batch).

(** Line 206 repeats the coercion of the wrapper. *)
Lemma search_string_query q kw (w : World) :
  search (QStr q) kw w = search (QList [q]) kw w.
Proof. reflexivity. Qed.

(** The batches cover the queries: [ceil(n / b)] batches of [b]. *)
Lemma batches_cover n b : 0 < b -> n <= (n + b - 1) / b * b.
Proof.
  intros Hb. pose proof (Nat.div_mod_eq (n + b - 1) b) as Hdiv.
  pose proof (Nat.mod_upper_bound (n + b - 1) b ltac:(lia)) as Hmod. nia.
Qed.

Section Batches.
Variable b : nat.
Variable query : list string.
Variable kw : gmap string pyval.
Hypothesis batch_answers :
  forall batch kw0 w rs w',
    search_batch batch kw0 w = (Ok rs, w') -> length rs = length batch.

(** Lines 211-215: after the batches [k0 .. k0 + m - 1] the results cover
    the queries up to the end of the last batch. *)
Lemma batches_loop_length m : forall k0 acc (w : World) rs w' tr,
  length acc = (k0 * b) `min` length query ->
  foldM (fun final_results idx =>
           bind (call_search_batch search_batch (take b (drop idx query)) kw)
             (fun results_ => ret (final_results ++ results_)))
    (map (fun k => k * b) (seq k0 m)) acc w = (Ok rs, w', tr) ->
  length rs = ((k0 + m) * b) `min` length query.
Proof.
  induction m as [| m IH]; intros k0 acc w rs w' tr Hacc H.
  - injection H as <- _ _. rewrite Nat.add_0_r. exact Hacc.
  - simpl in H. apply bind_inv_ok in H as (acc' & w1 & l1 & l2 & Hstep & Hrest & _).
    apply bind_inv_ok in Hstep as (results_ & w2 & l3 & l4 & Hbatch & Hret & _).
    injection Hret as <- _ _.
    unfold call_search_batch in Hbatch.
    destruct (search_batch _ _ w) as [rb wb] eqn:Hsb.
    injection Hbatch as -> -> _. apply batch_answers in Hsb.
    rewrite length_take, length_drop in Hsb.
    apply IH in Hrest.
    + rewrite Hrest. f_equal. lia.
    + rewrite length_app, Hacc, Hsb. lia.
Qed.

End Batches.

(** With a positive batch size and a [search_batch] that answers every
    query of a batch, [search] answers every query. *)
Lemma search_answers_every_query query kw (w : World) rs w' tr :
  (0 < batch_size)%Z ->
  (forall batch kw0 w0 rs0 w1,
     search_batch batch kw0 w0 = (Ok rs0, w1) -> length rs0 = length batch) ->
  search query kw w = (Ok rs, w', tr) ->
  length rs = length (as_list query).
Proof.
  intros Hpos Hbatch. unfold RetrieverBase.search.
  set (q' := if negb (truthy (default (PyBool false) (kw !! "no_preprocess")))
             then map query_preprocess_pipeline (as_list query)
             else as_list query).
  assert (length q' = length (as_list query)) as Hlen.
  { unfold q'. destruct (negb _); [apply length_map | reflexivity]. }
  unfold bind at 1. rewrite lift_res_eq. unfold batch_starts.
  destruct (Z.eqb_spec batch_size 0); [lia |].
  destruct (Z.ltb_spec batch_size 0); [lia |]. cbv zeta.
  match goal with |- context [foldM ?f ?l [] w] =>
    destruct (foldM f l [] w) as [[r0 w0] tr0] eqn:Hfold end.
  intros [= -> _ _].
  apply (batches_loop_length (Z.to_nat batch_size) q' _ Hbatch) in Hfold;
    [| simpl; lia].
  rewrite Hfold, <- Hlen. simpl.
  pose proof (batches_cover (length q') (Z.to_nat batch_size) ltac:(lia)). lia.
Qed.

Lemma search_func_answers_every_query query kw (w : World) rs w' :
  (0 < batch_size)%Z ->
  (forall batch kw0 w0 rs0 w1,
     search_batch batch kw0 w0 = (Ok rs0, w1) -> length rs0 = length batch) ->
  search_func batch_size query_preprocess_pipeline search_batch query kw w
    = (Ok rs, w') ->
  length rs = length query.
Proof.
  intros Hpos Hbatch. unfold search_func.
  destruct (search (QList query) kw w) as [[r0 w0] tr0] eqn:Hs.
  intros [= -> _]. eapply (search_answers_every_query (QList query)); eassumption.
Qed.

End Local.

(** *** The cached search entry point: [search] decorated by
    [batched_cache] *)

Section CachedSearch.
Context {Cfg R Store World : Type}.
Variable cache_get : key Cfg -> Store -> res (option (entry Cfg R)) * Store.
Variable cache_put : key Cfg -> entry Cfg R -> Store -> res unit * Store.
Variable batch_size : Z.
Variable query_preprocess_pipeline : string -> string.
Variable search_batch :
  list string -> gmap string pyval -> World -> res (list (option R)) * World.

Local Abbreviation cached_search :=
  (wrapper cache_get cache_put
     (search_func batch_size query_preprocess_pipeline search_batch)).

(** C10: called with a single string, the cached search behaves exactly
    as called with the one-element list that holds the string, and the
    list it returns has one element (for a positive batch size and a
    [search_batch] that answers every query of a batch). *)
Theorem string_query_is_singleton_batch cfg env q kw
    (s : state Store World) results s' tr :
  (0 < batch_size)%Z ->
  (forall batch kw0 w0 rs0 w1,
     search_batch batch kw0 w0 = (Ok rs0, w1) -> length rs0 = length batch) ->
  cached_search cfg env (QStr q) kw s = (Ok results, s', tr) ->
  (forall s0 : state Store World,
     cached_search cfg env (QStr q) kw s0 = cached_search cfg env (QList [q]) kw s0) /\
  (forall kw0 (w0 : World),
     search batch_size query_preprocess_pipeline search_batch (QStr q) kw0 w0 =
     search batch_size query_preprocess_pipeline search_batch (QList [q]) kw0 w0) /\
  length results = 1.
Proof.
  intros Hpos Hbatch Hrun.
  destruct (wrapper_string_query cache_get cache_put
              (search_func batch_size query_preprocess_pipeline search_batch)
              cfg env q kw s results s' tr)
    as [Hsame Hone].
  - intros qs kw0 w rs w'.
    apply search_func_answers_every_query; assumption.
  - exact Hrun.
  - split; [exact Hsame |]. split; [reflexivity | exact Hone].
Qed.

End CachedSearch.

End RetrieverBaseProps.

(** ** The cached batch search on concrete stores *)

Module CacheRuns.
Import RetrieverBase Examples.

(** C1: on a store that does not hold the key of the query, the cached
    search raises [TypeError] where the cache-disabled search returns the
    result of the wrapped operation: caching is not transparent. *)
Theorem cold_cache_search_raises :
  ex_wrapper None (QList ["q"]) top_k_10 cold =
    (Raise TypeError, cold, [EvGet (ex_key_of "q") (Ok None)]) /\
  ex_wrapper None (QList ["q"]) (with_disable_cache true) cold =
    (Ok [Some ["doc:q"]], cold, [EvFunc ["q"] top_k_10]).
Proof. split; vm_compute; reflexivity. Qed.

(** C3: on a batch of one hit and one miss, the cached search returns no
    result list at all; it raises [TypeError] at the miss, and the wrapped
    operation is not invoked with the miss subset. *)
Theorem hit_and_miss_batch_raises :
  ex_wrapper None (QList ["a"; "b"]) top_k_10 warm_a =
    (Raise TypeError, warm_a, [read_a; EvGet (ex_key_of "b") (Ok None)]).
Proof. vm_compute. reflexivity. Qed.

Lemma hits_never_invoke_underlying_search_witness :
  (truthy (disable_cache None top_k_10) = false ->
   (Forall hit [read_a] -> func_calls [read_a] = []) /\
   (Forall hit [read_a] -> func_calls [read_a] = [])) /\
  length (func_calls [read_a]) <= 1.
Proof.
  apply (RetrieverBaseProps.hits_never_invoke_underlying_search
           lru_get lru_put ex_func tt None (QList ["a"]) top_k_10
           warm_a (Ok [Some ["doc:a"]]) warm_a [read_a]
           (Ok [Some ["doc:a"]]) warm_a [read_a]);
    vm_compute; reflexivity.
Defined.

(** C7, refuted as stated: with the store out of reach the cached search
    raises the store's exception; it neither calls the wrapped operation
    nor returns a result. *)
Lemma unreachable_store_fails_the_search :
  ex_wrapper None (QList ["a"]) top_k_10 down =
    (Raise unreachable, down, [EvGet (ex_key_of "a") (Raise unreachable)]).
Proof. vm_compute. reflexivity. Qed.

Lemma cache_failure_fails_the_search_witness :
  (EvGet (ex_key_of "a") (Raise unreachable)
     ∈ [EvGet (ex_key_of "a") (Raise unreachable) : ex_event] ->
   Raise unreachable = Raise unreachable :> res (list (option (list string))) /\
   func_calls [EvGet (ex_key_of "a") (Raise unreachable) : ex_event] = []) /\
  (EvPut (ex_key_of "a") (Raise unreachable)
     ∈ [EvGet (ex_key_of "a") (Raise unreachable) : ex_event] ->
   Raise unreachable = Raise unreachable :> res (list (option (list string)))).
Proof.
  apply (RetrieverBaseProps.cache_failure_fails_the_search
           lru_get lru_put ex_func tt None (QList ["a"]) top_k_10 down
           (Raise unreachable) down
           [EvGet (ex_key_of "a") (Raise unreachable)]
           (ex_key_of "a") unreachable).
  vm_compute. reflexivity.
Defined.

(** C8, refuted as stated: with DISABLE_CACHE set in the environment, a
    call that passes [disable_cache=False] is answered from the cache; the
    wrapped operation is not called. *)
Lemma env_flag_overridden_by_call :
  ex_wrapper (Some "1") (QList ["a"]) (with_disable_cache false) warm_a =
    (Ok [Some ["doc:a"]], warm_a, [read_a]) /\
  cache_ops [read_a] = [read_a] /\ func_calls [read_a] = [].
Proof. repeat split; vm_compute; reflexivity. Qed.

Lemma env_flag_is_the_default_of_the_call_witness :
  ex_wrapper (Some "1") (QList ["a"]) top_k_10 warm_a =
    (Ok [Some ["doc:a"]], warm_a, [EvFunc ["a"] top_k_10]) /\
  ex_wrapper (Some "1") (QList ["a"]) (with_disable_cache false) warm_a =
  ex_wrapper None (QList ["a"]) (with_disable_cache false) warm_a.
Proof.
  pose proof (RetrieverBaseProps.env_flag_is_the_default_of_the_call
                lru_get lru_put ex_func tt (Some "1") (QList ["a"]) top_k_10 warm_a)
    as [Hdefault _].
  pose proof (RetrieverBaseProps.env_flag_is_the_default_of_the_call
                lru_get lru_put ex_func tt (Some "1") (QList ["a"])
                (with_disable_cache false) warm_a)
    as [_ Hcall].
  split.
  - destruct (ex_wrapper (Some "1") (QList ["a"]) top_k_10 warm_a)
      as [[r s'] tr] eqn:Hrun.
    destruct (Hdefault "1" r s' tr eq_refl ltac:(discriminate) eq_refl Hrun)
      as (-> & _ & _ & _).
    vm_compute in Hrun. injection Hrun as <- <-. reflexivity.
  - apply (Hcall (PyBool false) None). reflexivity.
Defined.

Lemma string_query_is_singleton_batch_witness :
  (forall s0 : ex_state,
     ex_cached_search None (QStr "a") (with_disable_cache true) s0 =
     ex_cached_search None (QList ["a"]) (with_disable_cache true) s0) /\
  (forall kw0 (w0 : unit),
     search 32 (fun q => q) ex_search_batch (QStr "a") kw0 w0 =
     search 32 (fun q => q) ex_search_batch (QList ["a"]) kw0 w0) /\
  length [Some ["doc:a"]] = 1.
Proof.
  apply (RetrieverBaseProps.string_query_is_singleton_batch
           lru_get lru_put 32 (fun q => q) ex_search_batch tt None "a"
           (with_disable_cache true) cold
           [Some ["doc:a"]] cold [EvFunc ["a"] top_k_10]).
  - reflexivity.
  - intros batch kw0 w0 rs0 w1 [= <- _]. apply length_map.
  - vm_compute. reflexivity.
Defined.

End CacheRuns.

(** ** Properties of the iterative search *)

Module KylinProps.
Import Kylin PyFacts.

Section Searcher.
Context {World : Type}.
Variable chat : list prompt -> World -> res (list string) * World.
Variable retriever_search :
  string -> list string -> Z -> bool -> World -> res (list group) * World.
Variable rewrite_prompts : gmap string prompt.
Variable verify_prompt : prompt.
Variable summary_prompt : prompt.
Variable self : searcher.

Local Abbreviation rewrite_query := (rewrite_query chat rewrite_prompts).
Local Abbreviation verify_contexts := (verify_contexts chat verify_prompt self).
Local Abbreviation summarize_contexts := (summarize_contexts chat summary_prompt).
Local Abbreviation query_to_search := (query_to_search chat rewrite_prompts self).
Local Abbreviation retrieve := (retrieve retriever_search self).
Local Abbreviation retriever_step :=
  (retriever_step chat retriever_search rewrite_prompts summary_prompt self).
Local Abbreviation run_round :=
  (run_round chat retriever_search rewrite_prompts summary_prompt self).
Local Abbreviation turns :=
  (turns chat retriever_search rewrite_prompts verify_prompt summary_prompt self).
Local Abbreviation inner_search :=
  (inner_search chat retriever_search rewrite_prompts verify_prompt
     summary_prompt self).

(** *** The phases of a retriever step *)

Lemma call_chat_eq ps (w : World) :
  call_chat chat ps w = (fst (chat ps w), snd (chat ps w), [EvChat ps (fst (chat ps w))]).
Proof. unfold call_chat. destruct (chat ps w). reflexivity. Qed.

Lemma first_eq {A} (l : list A) (w : World) :
  first l w = (match l with a :: _ => Ok a | [] => Raise IndexError end, w, []).
Proof. destruct l; reflexivity. Qed.

Lemma rewrite_query_events info engine fh (w : World) r w' tr :
  rewrite_query info engine fh w = (r, w', tr) -> Forall is_chat tr.
Proof.
  unfold Kylin.rewrite_query. destruct (rewrite_prompts !! engine) as [p |].
  - unfold bind. rewrite call_chat_eq.
    destruct (fst (chat _ w)) as [rs | e].
    + rewrite first_eq. intros [= _ _ <-]. repeat constructor.
    + intros [= _ _ <-]. repeat constructor.
  - intros [= _ _ <-]. constructor.
Qed.

(** [[i[idx] for i in history]] *)
Lemma failing_history_eq idx (history : list (list record)) (w : World) :
  mapM (E := event) (fun i => index i idx) history w =
  (map_res (fun i : list record =>
              match i !! idx with Some a => Ok a | None => Raise IndexError end)
     history, w, []).
Proof.
  induction history as [| i history IH]; simpl; [reflexivity |].
  unfold bind at 1. unfold index at 1.
  destruct (i !! idx) as [a |]; simpl; [| reflexivity].
  unfold bind at 1. rewrite IH.
  destruct (map_res _ history); reflexivity.
Qed.

Lemma failing_history_queries idx (history : list (list record)) fh :
  map_res (fun i : list record =>
             match i !! idx with Some a => Ok a | None => Raise IndexError end)
    history = Ok fh ->
  map rec_query fh = recorded_queries idx history.
Proof.
  revert fh. induction history as [| i history IH]; simpl; intros fh H.
  - injection H as <-. reflexivity.
  - unfold recorded_queries. simpl. destruct (i !! idx) as [a |]; [| discriminate].
    destruct (map_res _ history) as [fh' |]; [| discriminate].
    injection H as <-. simpl. f_equal. apply IH. reflexivity.
Qed.

(** The rewrite phase: at most one call of [rewrite_query], which gets
    the records of this retriever in the turns before. *)
Lemma query_to_search_spec query t idx name history (w : World) r w' tr :
  query_to_search query t idx name history w = (r, w', tr) ->
  (rewrite self = false /\ r = Ok query /\ w' = w /\ tr = []) \/
  (rewrite self = true /\ tr = [] /\ exists e, r = Raise e) \/
  (rewrite self = true /\
   exists fh trc,
     map rec_query fh = recorded_queries idx (take t history) /\
     tr = EvRewrite t idx name query fh :: trc /\ Forall is_chat trc).
Proof.
  unfold Kylin.query_to_search. destruct (rewrite self).
  - intros H. right. unfold bind at 1 in H. rewrite failing_history_eq in H.
    destruct (map_res _ _) as [fh | e] eqn:Hfh.
    + right. split; [reflexivity |].
      unfold bind at 1, emit at 1 in H.
      destruct (rewrite_query query name fh w) as [[r2 s2] l2] eqn:Hrw.
      injection H as <- <- <-. exists fh, l2.
      split; [apply failing_history_queries, Hfh |].
      split; [reflexivity | eapply rewrite_query_events, Hrw].
    + left. injection H as <- _ <-. eauto.
  - intros [= <- <- <-]. left. auto.
Qed.

(** The retrieval phase: one call of the retriever's search. *)
Lemma retrieve_eq t idx name q' (w : World) :
  retrieve t idx name q' w =
  match retriever_search name [q'] (retriever_top_k self) (disable_cache self) w with
  | (found, w') =>
      (retrieved q' name found, w',
       [EvSearch t idx name [q'] (retriever_top_k self) (disable_cache self) found])
  end.
Proof.
  unfold Kylin.retrieve, bind, call_search.
  destruct (retriever_search _ _ _ _ _) as [[groups | e] w']; [| reflexivity].
  rewrite first_eq. destruct groups as [| g groups]; [reflexivity |].
  rewrite lift_res_eq. reflexivity.
Qed.

Lemma summarize_contexts_eq ctxs question (w : World) :
  summarize_contexts ctxs question w =
  match chat (summary_prompts summary_prompt ctxs question) w with
  | (Ok responses, w') =>
      (Ok (apply_summaries responses ctxs), w',
       [EvChat (summary_prompts summary_prompt ctxs question) (Ok responses)])
  | (Raise e, w') =>
      (Raise e, w',
       [EvChat (summary_prompts summary_prompt ctxs question) (Raise e)])
  end.
Proof.
  unfold Kylin.summarize_contexts, bind. rewrite call_chat_eq.
  destruct (chat _ w) as [[responses | e] w']; reflexivity.
Qed.


(** A retriever step, phase by phase. *)
Lemma retriever_step_eq query t cs history idx name (w : World) :
  retriever_step query t (cs, history) (idx, name) w =
  match query_to_search query t idx name history w with
  | (Raise e, w1, trq) => (Raise e, w1, trq)
  | (Ok q', w1, trq) =>
      match retriever_search name [q'] (retriever_top_k self)
              (disable_cache self) w1 with
      | (found, w2) =>
          let ev := EvSearch t idx name [q'] (retriever_top_k self)
                      (disable_cache self) found in
          match retrieved q' name found with
          | Raise e => (Raise e, w2, trq ++ [ev])
          | Ok ctxs =>
              match history !! t with
              | None => (Raise IndexError, w2, trq ++ [ev])
              | Some round =>
                  let new_record :=
                    {| rec_retriever := name; rec_query := q';
                       rec_contexts := ctxs; rec_summarized_contexts := None |} in
                  if summary_context self then
                    let ps := summary_prompts summary_prompt ctxs query in
                    match chat ps w2 with
                    | (Ok responses, w3) =>
                        let summarized := apply_summaries responses ctxs in
                        (Ok (cs ++ filter (fun i => has_text i = true) summarized,
                             <[t := round ++ [with_summary new_record summarized]]>
                               history),
                         w3, trq ++ [ev; EvChat ps (Ok responses)])
                    | (Raise e, w3) =>
                        (Raise e, w3, trq ++ [ev; EvChat ps (Raise e)])
                    end
                  else
                    (Ok (cs ++ ctxs, <[t := round ++ [new_record]]> history),
                     w2, trq ++ [ev])
              end
          end
      end
  end.
Proof.
  unfold Kylin.retriever_step. unfold bind at 1.
  destruct (query_to_search query t idx name history w) as [[[q' | e] w1] trq];
    [| reflexivity].
  unfold bind at 1. rewrite retrieve_eq.
  destruct (retriever_search _ _ _ _ _) as [found w2]. cbv zeta.
  destruct (retrieved q' name found) as [ctxs | e]; [| reflexivity].
  unfold bind at 1. unfold index at 1.
  destruct (history !! t) as [round |]; simpl; [| rewrite ?app_nil_r; reflexivity].
  destruct (summary_context self).
  - unfold bind at 1. rewrite summarize_contexts_eq.
    destruct (chat _ w2) as [[responses | e] w3]; simpl;
      rewrite ?app_nil_r; reflexivity.
  - simpl. rewrite ?app_nil_r. reflexivity.
Qed.


(** *** Events and the queries they search *)

Lemma searched_by_app i t (tr1 tr2 : list event) :
  searched_by i t (tr1 ++ tr2) = searched_by i t tr1 ++ searched_by i t tr2.
Proof. apply flat_map_app. Qed.

Lemma searched_by_chat i t (tr : list event) :
  Forall is_chat tr -> searched_by i t tr = [].
Proof.
  induction 1 as [| ev tr Hev _ IH]; [reflexivity |].
  unfold searched_by in *. simpl. rewrite IH.
  destruct ev; simpl in *; try contradiction; reflexivity.
Qed.

(** The events of turn [t] search nothing before a turn up to [t]. *)
Lemma searched_by_at_turn i t t0 (tr : list event) :
  Forall (at_turn t) tr -> t0 <= t -> searched_by i t0 tr = [].
Proof.
  intros Hall Hle. induction Hall as [| ev tr Hev _ IH]; [reflexivity |].
  unfold searched_by in *. simpl. rewrite IH, app_nil_r.
  destruct ev; simpl in *; try reflexivity. subst turn.
  destruct (Nat.ltb_spec t t0); [lia |]. rewrite andb_false_r. reflexivity.
Qed.

(** For the events before turn [t], every later turn sees the same
    searches. *)
Lemma searched_by_before i t t1 (tr : list event) :
  Forall (before_turn t) tr -> t <= t1 -> searched_by i t1 tr = searched_by i t tr.
Proof.
  intros Hall Hle. induction Hall as [| ev tr Hev _ IH]; [reflexivity |].
  unfold searched_by in *. simpl. rewrite IH. f_equal.
  destruct ev; simpl in *; try reflexivity.
  destruct (Nat.ltb_spec turn t1), (Nat.ltb_spec turn t); try lia; reflexivity.
Qed.

Lemma at_turn_before t (tr : list event) :
  Forall (at_turn t) tr -> Forall (before_turn (S t)) tr.
Proof.
  intros H. eapply Forall_impl; [exact H |]. intros ev. destruct ev; simpl; lia.
Qed.

Lemma before_turn_S t (tr : list event) :
  Forall (before_turn t) tr -> Forall (before_turn (S t)) tr.
Proof.
  intros H. eapply Forall_impl; [exact H |]. intros ev. destruct ev; simpl; lia.
Qed.

Lemma is_chat_at_turn t (tr : list event) :
  Forall is_chat tr -> Forall (at_turn t) tr.
Proof.
  intros H. eapply Forall_impl; [exact H |].
  intros ev. destruct ev; simpl; try contradiction. auto.
Qed.

Lemma rewrite_not_chat t i eng info fh (tr : list event) :
  Forall is_chat tr -> EvRewrite t i eng info fh ∉ tr.
Proof. intros Hall Hin. rewrite Forall_forall in Hall. exact (Hall _ Hin). Qed.

Lemma filter_search_chat (tr : list event) :
  Forall is_chat tr -> filter (fun ev => is_search ev = true) tr = [].
Proof.
  induction 1 as [| ev tr Hev _ IH]; [reflexivity |].
  rewrite filter_cons, IH. destruct ev; simpl in *; try contradiction.
  destruct (decide (false = true)) as [Hd | _]; [discriminate | reflexivity].
Qed.

Lemma recorded_queries_snoc idx (history : list (list record)) round :
  recorded_queries idx (history ++ [round]) =
  recorded_queries idx history ++
  match round !! idx with Some r => [rec_query r] | None => [] end.
Proof.
  unfold recorded_queries. rewrite omap_app. simpl.
  destruct (round !! idx); reflexivity.
Qed.

(** *** One retriever step of turn [t]

    At the start of the step the history holds the [t] finished rounds
    and the round under way. *)
Section Step.
Variable query : string.
Variable t : nat.
Variable history : list (list record).
Hypothesis history_length : length history = t.

Lemma take_history cur : take t (history ++ [cur]) = history.
Proof. subst t. apply take_app_length. Qed.

Lemma lookup_current cur : (history ++ [cur]) !! t = Some cur.
Proof. subst t. apply list_lookup_middle. reflexivity. Qed.

Lemma insert_current cur new :
  <[t := new]> (history ++ [cur]) = history ++ [new].
Proof.
  subst t. rewrite insert_app_r_alt by lia.
  rewrite Nat.sub_diag. reflexivity.
Qed.

(** A failed step with the events [tr]. *)
Lemma step_ok_raise cs cur idx name e (tr : list event) :
  Forall (at_turn t) tr ->
  (forall t0 i0 eng info fh,
     EvRewrite t0 i0 eng info fh ∈ tr ->
     i0 = idx /\ eng = name /\ info = query /\
     map rec_query fh = recorded_queries idx history) ->
  (forall i, i <> idx -> searched_by i (S t) tr = []) ->
  step_ok query t history cs cur idx name (Raise e) tr.
Proof.
  intros H1 H2 H3. split; [exact H1 |]. split; [exact H2 |]. split; [exact H3 |].
  intros cs' h' [=].
Qed.

(** A call of the language model after the search changes nothing. *)
Lemma step_events_chat idx name ps rr (tr : list event) :
  (Forall (at_turn t) tr /\
   (forall t0 i0 eng info fh,
      EvRewrite t0 i0 eng info fh ∈ tr ->
      i0 = idx /\ eng = name /\ info = query /\
      map rec_query fh = recorded_queries idx history) /\
   (forall i, i <> idx -> searched_by i (S t) tr = [])) ->
  Forall (at_turn t) (tr ++ [EvChat ps rr]) /\
  (forall t0 i0 eng info fh,
     EvRewrite t0 i0 eng info fh ∈ tr ++ [EvChat ps rr] ->
     i0 = idx /\ eng = name /\ info = query /\
     map rec_query fh = recorded_queries idx history) /\
  (forall i, i <> idx -> searched_by i (S t) (tr ++ [EvChat ps rr]) = []).
Proof.
  intros (H1 & H2 & H3). split; [| split].
  - apply Forall_app. split; [exact H1 | repeat constructor].
  - intros t0 i0 eng info fh Hin. apply elem_of_app in Hin as [Hin | Hin];
      [eapply H2, Hin | apply list_elem_of_singleton in Hin; discriminate].
  - intros i Hi. rewrite searched_by_app, H3 by exact Hi. reflexivity.
Qed.

Lemma retriever_step_spec cs cur idx name (w : World) r w' tr :
  retriever_step query t (cs, history ++ [cur]) (idx, name) w = (r, w', tr) ->
  step_ok query t history cs cur idx name r tr.
Proof.
  rewrite retriever_step_eq.
  destruct (query_to_search query t idx name (history ++ [cur]) w)
    as [[rq w1] trq] eqn:Hq.
  apply query_to_search_spec in Hq. rewrite take_history in Hq.
  assert (Forall (at_turn t) trq /\
          (forall t0 i0 eng info fh,
             EvRewrite t0 i0 eng info fh ∈ trq ->
             i0 = idx /\ eng = name /\ info = query /\
             map rec_query fh = recorded_queries idx history) /\
          (forall i t1, searched_by i t1 trq = []) /\
          filter (fun ev => is_search ev = true) trq = [])
    as (Hturn & Hrw & Hnos & Hnof).
  { destruct Hq as [(_ & _ & _ & ->) | [(_ & -> & _) | (_ & fh & trc & Hfh & -> & Hc)]].
    - split; [constructor |]. split; [| split; reflexivity].
      intros ? ? ? ? ? Hin. inversion Hin.
    - split; [constructor |]. split; [| split; reflexivity].
      intros ? ? ? ? ? Hin. inversion Hin.
    - split; [constructor; [reflexivity | apply is_chat_at_turn, Hc] |].
      split; [| split].
      + intros t0 i0 eng info fh0 Hin. apply elem_of_cons in Hin as [Hin | Hin].
        * injection Hin as -> -> -> -> ->. auto.
        * destruct (rewrite_not_chat _ _ _ _ _ _ Hc Hin).
      + intros i t1. change (searched_by i t1 trc = []). apply searched_by_chat, Hc.
      + rewrite filter_cons. simpl.
        destruct (decide (false = true)) as [Hd | _]; [discriminate |].
        apply filter_search_chat, Hc. }
  destruct rq as [q' | e].
  2:{ intros [= <- <- <-]. apply step_ok_raise; auto. }
  destruct (retriever_search _ _ _ _ _) as [found w2]. cbv zeta.
  set (ev := EvSearch t idx name [q'] (retriever_top_k self) (disable_cache self) found).
  assert (Forall (at_turn t) (trq ++ [ev]) /\
          (forall t0 i0 eng info fh,
             EvRewrite t0 i0 eng info fh ∈ trq ++ [ev] ->
             i0 = idx /\ eng = name /\ info = query /\
             map rec_query fh = recorded_queries idx history) /\
          (forall i, i <> idx -> searched_by i (S t) (trq ++ [ev]) = [])) as Hev.
  { split; [| split].
    - apply Forall_app. split; [exact Hturn | repeat constructor].
    - intros t0 i0 eng info fh Hin. apply elem_of_app in Hin as [Hin | Hin];
        [eapply Hrw, Hin | apply list_elem_of_singleton in Hin; discriminate].
    - intros i Hi. rewrite searched_by_app, Hnos. simpl.
      destruct (Nat.eqb_spec idx i); [congruence | reflexivity]. }
  assert (searched_by idx (S t) (trq ++ [ev]) = [q']) as Hmine.
  { rewrite searched_by_app, Hnos. simpl. rewrite Nat.eqb_refl.
    destruct (Nat.ltb_spec t (S t)); [reflexivity | lia]. }
  assert (length (filter (fun ev => is_search ev = true) (trq ++ [ev])) = 1) as Hone.
  { rewrite filter_app, Hnof. reflexivity. }
  destruct (retrieved q' name found) as [ctxs | e].
  2:{ intros [= <- <- <-]. destruct Hev as (? & ? & ?). apply step_ok_raise; auto. }
  rewrite lookup_current.
  destruct (summary_context self).
  - cbv zeta. destruct (chat _ w2) as [[responses | e] w3]; intros [= <- <- <-].
    + change (trq ++ [ev; ?c]) with (trq ++ [ev] ++ [c]). rewrite app_assoc.
      destruct (step_events_chat idx name
                  (summary_prompts summary_prompt ctxs query) (Ok responses) _ Hev)
        as (H1 & H2 & H3).
      split; [exact H1 |]. split; [exact H2 |]. split; [exact H3 |].
      intros cs' h' [= <- <-]. eexists. rewrite insert_current.
      split; [reflexivity |]. split; [reflexivity |]. split; [reflexivity |].
      split; [rewrite searched_by_app, Hmine; reflexivity |].
      rewrite filter_app, length_app, Hone. reflexivity.
    + change (trq ++ [ev; ?c]) with (trq ++ [ev] ++ [c]). rewrite app_assoc.
      destruct (step_events_chat idx name
                  (summary_prompts summary_prompt ctxs query) (Raise e) _ Hev)
        as (H1 & H2 & H3).
      apply step_ok_raise; auto.
  - intros [= <- <- <-]. destruct Hev as (H1 & H2 & H3).
    split; [exact H1 |]. split; [exact H2 |]. split; [exact H3 |].
    intros cs' h' [= <- <-]. eexists. rewrite insert_current.
    split; [reflexivity |]. split; [reflexivity |]. split; [reflexivity |].
    split; [exact Hmine | exact Hone].
Qed.

(** The loop over the retrievers, from position [k] on, with the records
    [cur] of the retrievers before [k] in the round under way. *)
Lemma retrievers_loop_spec names : forall k cs cur (w : World) r w' tr,
  foldM (retriever_step query t) (zip (seq k (length names)) names)
    (cs, history ++ [cur]) w = (r, w', tr) ->
  Forall (at_turn t) tr /\
  (forall t0 i0 eng info fh,
     EvRewrite t0 i0 eng info fh ∈ tr ->
     info = query /\ k <= i0 /\ names !! (i0 - k) = Some eng /\
     map rec_query fh = recorded_queries i0 history) /\
  (forall i, i < k -> searched_by i (S t) tr = []) /\
  (forall cs' h',
     r = Ok (cs', h') ->
     exists recs,
       h' = history ++ [cur ++ recs] /\
       cs' = cs ++ round_contexts recs /\
       map rec_retriever recs = names /\
       (forall i, searched_by (k + i) (S t) tr =
                  match recs !! i with Some rec => [rec_query rec] | None => [] end) /\
       length (filter (fun ev => is_search ev = true) tr) = length names).
Proof.
  induction names as [| name names IH]; intros k cs cur w r w' tr H.
  - injection H as <- <- <-.
    split; [constructor |]. split; [intros ? ? ? ? ? Hin; inversion Hin |].
    split; [reflexivity |].
    intros cs' h' [= <- <-]. exists [].
    rewrite !app_nil_r. repeat split.
  - simpl in H.
    apply bind_inv in H as [(e & Hs & ->) | ([cs1 h1] & w1 & tr1 & tr2 & Hs & Hrest & ->)].
    + apply retriever_step_spec in Hs as (H1 & H2 & H3 & _).
      split; [exact H1 |]. split; [| split].
      * intros t0 i0 eng info fh Hin.
        destruct (H2 _ _ _ _ _ Hin) as (-> & -> & -> & Hfh).
        rewrite Nat.sub_diag. auto.
      * intros i Hi. apply H3. lia.
      * intros cs' h' [=].
    + apply retriever_step_spec in Hs as (H1 & H2 & H3 & H4).
      destruct (H4 _ _ eq_refl) as (rec & -> & -> & Hname & Hmine & Hone).
      apply IH in Hrest as (G1 & G2 & G3 & G4).
      split; [apply Forall_app; auto |]. split; [| split].
      * intros t0 i0 eng info fh Hin. apply elem_of_app in Hin as [Hin | Hin].
        -- destruct (H2 _ _ _ _ _ Hin) as (-> & -> & -> & Hfh).
           rewrite Nat.sub_diag. auto.
        -- destruct (G2 _ _ _ _ _ Hin) as (-> & Hle & Hnth & Hfh).
           split; [reflexivity |]. split; [lia |]. split; [| exact Hfh].
           replace (i0 - k) with (S (i0 - S k)) by lia. exact Hnth.
      * intros i Hi. rewrite searched_by_app, H3, G3 by lia. reflexivity.
      * intros cs' h' ->. destruct (G4 _ _ eq_refl) as (recs & -> & -> & Hnames & Hq & Hlen).
        exists (rec :: recs).
        split; [rewrite <- app_assoc; reflexivity |].
        split; [unfold round_contexts; simpl; rewrite <- app_assoc; reflexivity |].
        split; [simpl; congruence |]. split.
        -- intros [| i]; rewrite searched_by_app.
           ++ rewrite Nat.add_0_r, Hmine, G3 by lia. reflexivity.
           ++ rewrite H3 by lia. replace (k + S i) with (S k + i) by lia.
              rewrite Hq. reflexivity.
        -- rewrite filter_app, length_app, Hone, Hlen. reflexivity.
Qed.

(** One round of turn [t]. *)
Lemma run_round_spec (w : World) r w' tr :
  run_round query t history w = (r, w', tr) ->
  Forall (at_turn t) tr /\
  (forall t0 i0 eng info fh,
     EvRewrite t0 i0 eng info fh ∈ tr ->
     info = query /\ retrievers self !! i0 = Some eng /\
     map rec_query fh = recorded_queries i0 history) /\
  (forall cs' h',
     r = Ok (cs', h') ->
     exists round,
       h' = history ++ [round] /\
       cs' = round_contexts round /\
       map rec_retriever round = retrievers self /\
       (forall i, searched_by i (S t) tr =
                  match round !! i with Some rec => [rec_query rec] | None => [] end) /\
       length (filter (fun ev => is_search ev = true) tr) = length (retrievers self)).
Proof.
  unfold Kylin.run_round, enumerate. intros H.
  apply retrievers_loop_spec in H as (H1 & H2 & _ & H4).
  split; [exact H1 |]. split.
  - intros t0 i0 eng info fh Hin.
    destruct (H2 _ _ _ _ _ Hin) as (-> & _ & Hnth & Hfh).
    rewrite Nat.sub_0_r in Hnth. auto.
  - intros cs' h' Hr. destruct (H4 _ _ Hr) as (recs & -> & -> & Hn & Hq & Hlen).
    exists recs. auto.
Qed.

End Step.


(** *** The loop over the turns *)

Lemma verify_contexts_spec cs question (w : World) r w' tr :
  verify_contexts cs question w = (r, w', tr) ->
  Forall is_chat tr /\
  (verify self = false -> r = Ok true /\ w' = w /\ tr = []).
Proof.
  unfold Kylin.verify_contexts. destruct (verify self); simpl.
  - unfold bind at 1. rewrite call_chat_eq.
    destruct (fst (chat _ w)) as [rs | e].
    + unfold bind at 1. rewrite first_eq. destruct rs as [| response rs].
      * intros [= <- <- <-]. split; [repeat constructor | discriminate].
      * intros [= <- <- <-]. split; [repeat constructor | discriminate].
    + intros [= <- <- <-]. split; [repeat constructor | discriminate].
  - intros [= <- <- <-]. split; [constructor | auto].
Qed.

(** One iteration of the [while] loop. *)
Lemma turns_S remaining query t cs history (w : World) :
  turns (S remaining) query t cs history w =
  match run_round query t history w with
  | (Raise e, w1, tr1) => (Raise e, w1, tr1)
  | (Ok cr, w1, tr1) =>
      match verify_contexts (fst cr) query w1 with
      | (Raise e, w2, trv) => (Raise e, w2, tr1 ++ EvVerify t (fst cr) :: trv)
      | (Ok true, w2, trv) => (Ok cr, w2, tr1 ++ EvVerify t (fst cr) :: trv)
      | (Ok false, w2, trv) =>
          match turns remaining query (S t) (fst cr) (snd cr) w2 with
          | (r, w3, tr3) => (r, w3, tr1 ++ EvVerify t (fst cr) :: trv ++ tr3)
          end
      end
  end.
Proof.
  simpl. unfold bind at 1.
  destruct (run_round query t history w) as [[[cr | e] w1] tr1]; [| reflexivity].
  unfold bind at 1. unfold emit at 1. unfold bind at 1.
  destruct (verify_contexts (fst cr) query w1) as [[[[] | e] w2] trv]; simpl.
  - rewrite app_nil_r. reflexivity.
  - destruct (turns remaining query (S t) (fst cr) (snd cr) w2) as [[r w3] tr3].
    reflexivity.
  - reflexivity.
Qed.

Lemma searched_by_0 i (tr : list event) : searched_by i 0 tr = [].
Proof.
  induction tr as [| ev tr IH]; [reflexivity |].
  unfold searched_by in *. simpl. rewrite IH.
  destruct ev; try reflexivity. simpl. rewrite andb_false_r. reflexivity.
Qed.

(** The events of turn [t] keep the rewrites before them in order, when
    their own rewrites get the queries the history records. *)
Lemma rewrites_ok_turn query t history (tr0 tr1 : list event) :
  rewrites_ok self query tr0 ->
  Forall (before_turn t) tr0 ->
  (forall i, searched_by i t tr0 = recorded_queries i history) ->
  Forall (at_turn t) tr1 ->
  (forall t0 i0 eng info fh,
     EvRewrite t0 i0 eng info fh ∈ tr1 ->
     info = query /\ retrievers self !! i0 = Some eng /\
     map rec_query fh = recorded_queries i0 history) ->
  rewrites_ok self query (tr0 ++ tr1).
Proof.
  intros Hok Hbefore Hrec Hat Hnew t0 i0 eng info fh Hin.
  rewrite searched_by_app. apply elem_of_app in Hin as [Hin | Hin].
  - destruct (Hok _ _ _ _ _ Hin) as (-> & Hname & Hfh).
    split; [reflexivity |]. split; [exact Hname |].
    pose proof (proj1 (Forall_forall _ _) Hbefore _ Hin) as Hlt. simpl in Hlt.
    rewrite (searched_by_at_turn i0 t t0 tr1 Hat) by lia.
    rewrite app_nil_r. exact Hfh.
  - destruct (Hnew _ _ _ _ _ Hin) as (-> & Hname & Hfh).
    split; [reflexivity |]. split; [exact Hname |].
    pose proof (proj1 (Forall_forall _ _) Hat _ Hin) as Heq. simpl in Heq. subst t0.
    rewrite (searched_by_at_turn i0 t t tr1 Hat) by lia.
    rewrite app_nil_r, Hrec. exact Hfh.
Qed.

Lemma turns_rewrites_ok query remaining :
  forall t cs history (w : World) r w' tr tr0,
    length history = t ->
    Forall (before_turn t) tr0 ->
    (forall i, searched_by i t tr0 = recorded_queries i history) ->
    rewrites_ok self query tr0 ->
    turns remaining query t cs history w = (r, w', tr) ->
    rewrites_ok self query (tr0 ++ tr).
Proof.
  induction remaining as [| remaining IH];
    intros t cs history w r w' tr tr0 Hlen Hbefore Hrec Hok H.
  - injection H as _ _ <-. rewrite app_nil_r. exact Hok.
  - rewrite turns_S in H.
    destruct (run_round query t history w) as [[r1 w1] tr1] eqn:Hround.
    apply (run_round_spec query t history Hlen) in Hround as (Hat & Hrw & Hres).
    destruct r1 as [[cs1 h1] | e].
    2:{ injection H as _ _ <-. eapply rewrites_ok_turn; eauto. }
    destruct (Hres _ _ eq_refl) as (round & -> & -> & _ & Hsearched & _).
    simpl in H.
    destruct (verify_contexts (round_contexts round) query w1)
      as [[rv w2] trv] eqn:Hv.
    apply verify_contexts_spec in Hv as [Hchat _].
    set (turn := tr1 ++ EvVerify t (round_contexts round) :: trv).
    assert (Forall (at_turn t) turn) as Hat'.
    { apply Forall_app. split; [exact Hat |].
      constructor; [reflexivity | apply is_chat_at_turn, Hchat]. }
    assert (forall t0 i0 eng info fh,
              EvRewrite t0 i0 eng info fh ∈ turn ->
              info = query /\ retrievers self !! i0 = Some eng /\
              map rec_query fh = recorded_queries i0 history) as Hrw'.
    { intros t0 i0 eng info fh Hin. apply elem_of_app in Hin as [Hin | Hin];
        [eapply Hrw, Hin |].
      apply elem_of_cons in Hin as [Hin | Hin]; [discriminate |].
      destruct (rewrite_not_chat _ _ _ _ _ _ Hchat Hin). }
    pose proof (rewrites_ok_turn _ _ _ _ _ Hok Hbefore Hrec Hat' Hrw') as Hok'.
    destruct rv as [[] | e].
    + injection H as _ _ <-. exact Hok'.
    + destruct (turns remaining query (S t) (round_contexts round)
                  (history ++ [round]) w2) as [[r3 w3] tr3] eqn:Hrest.
      injection H as _ _ <-.
      replace (tr0 ++ tr1 ++ EvVerify t (round_contexts round) :: trv ++ tr3)
        with ((tr0 ++ turn) ++ tr3)
        by (unfold turn; rewrite <- !app_assoc; reflexivity).
      eapply IH; [| | | exact Hok' | exact Hrest].
      * rewrite length_app. simpl. lia.
      * apply Forall_app. split;
          [apply before_turn_S, Hbefore | apply at_turn_before, Hat'].
      * intros i. rewrite searched_by_app, recorded_queries_snoc.
        rewrite (searched_by_before i t (S t)) by (auto; lia).
        rewrite Hrec. f_equal. unfold turn.
        rewrite searched_by_app, Hsearched.
        change (EvVerify t (round_contexts round) :: trv)
          with ([EvVerify t (round_contexts round)] ++ trv).
        rewrite searched_by_app, (searched_by_chat _ _ trv Hchat).
        simpl. rewrite app_nil_r. reflexivity.
    + injection H as _ _ <-. exact Hok'.
Qed.

(** C5: every call of the rewrite collaborator is made with the query of
    the search and for the retriever at its position, and receives the
    records of exactly the queries that this retriever searched in the
    turns before, in order; on the first turn it receives none. *)
Theorem rewrite_gets_own_failed_queries query (w : World) r w' tr
    t idx engine info failing_history :
  inner_search query w = (r, w', tr) ->
  EvRewrite t idx engine info failing_history ∈ tr ->
  info = query /\ retrievers self !! idx = Some engine /\
  map rec_query failing_history = searched_by idx t tr /\
  (t = 0 -> failing_history = []).
Proof.
  intros H Hin.
  assert (rewrites_ok self query ([] ++ tr)) as Hok.
  { eapply (turns_rewrites_ok query _ 0 [] [] w r w' tr []); try reflexivity.
    - constructor.
    - intros ? ? ? ? ? Hnil. inversion Hnil.
    - exact H. }
  destruct (Hok _ _ _ _ _ Hin) as (Hinfo & Hname & Hfh).
  split; [exact Hinfo |]. split; [exact Hname |]. split; [exact Hfh |].
  intros ->. simpl in Hfh. rewrite searched_by_0 in Hfh.
  destruct failing_history; [reflexivity | discriminate].
Qed.


Lemma filter_verify_chat (tr : list event) :
  Forall is_chat tr -> filter (fun ev => is_verify ev = true) tr = [].
Proof.
  induction 1 as [| ev tr Hev _ IH]; [reflexivity |].
  rewrite filter_cons, IH. destruct ev; simpl in *; try contradiction.
  destruct (decide (false = true)) as [Hd | _]; [discriminate | reflexivity].
Qed.

Lemma count_verify_turn t cs (trv tr3 : list event) :
  Forall is_chat trv ->
  length (filter (fun ev => is_verify ev = true) (EvVerify t cs :: trv ++ tr3)) =
  S (length (filter (fun ev => is_verify ev = true) tr3)).
Proof.
  intros Hc. rewrite filter_cons.
  change (decide (is_verify (EvVerify t cs) = true)) with (decide (true = true)).
  destruct (decide (true = true)) as [_ | Hd]; [| congruence].
  simpl. rewrite filter_app, (filter_verify_chat _ Hc). reflexivity.
Qed.

Lemma count_search_turn t cs (trv tr3 : list event) :
  Forall is_chat trv ->
  length (filter (fun ev => is_search ev = true) (EvVerify t cs :: trv ++ tr3)) =
  length (filter (fun ev => is_search ev = true) tr3).
Proof.
  intros Hc. rewrite filter_cons.
  change (decide (is_search (EvVerify t cs) = true)) with (decide (false = true)).
  destruct (decide (false = true)) as [Hd | _]; [discriminate |].
  rewrite filter_app, (filter_search_chat _ Hc). reflexivity.
Qed.

(** A round makes no call of [verify_contexts]. *)
Lemma retriever_step_no_verify query t acc ir (w : World) r w' tr :
  retriever_step query t acc ir w = (r, w', tr) ->
  filter (fun ev => is_verify ev = true) tr = [].
Proof.
  destruct acc as [cs history], ir as [idx name]. rewrite retriever_step_eq.
  destruct (query_to_search query t idx name history w) as [[rq w1] trq] eqn:Hq.
  apply query_to_search_spec in Hq.
  assert (filter (fun ev => is_verify ev = true) trq = []) as Hnv.
  { destruct Hq as [(_ & _ & _ & ->) | [(_ & -> & _) | (_ & fh & trc & _ & -> & Hc)]];
      try reflexivity.
    rewrite filter_cons. simpl.
    destruct (decide (false = true)) as [Hd | _]; [discriminate |].
    apply filter_verify_chat, Hc. }
  destruct rq as [q' | e]; [| intros [= _ _ <-]; exact Hnv].
  destruct (retriever_search _ _ _ _ _) as [found w2]. cbv zeta.
  destruct (retrieved q' name found) as [ctxs | e];
    [| intros [= _ _ <-]; rewrite filter_app, Hnv; reflexivity].
  destruct (history !! t) as [round |];
    [| intros [= _ _ <-]; rewrite filter_app, Hnv; reflexivity].
  destruct (summary_context self).
  - destruct (chat _ w2) as [[responses | e] w3];
      intros [= _ _ <-]; rewrite filter_app, Hnv; reflexivity.
  - intros [= _ _ <-]. rewrite filter_app, Hnv. reflexivity.
Qed.

Lemma run_round_no_verify query t history (w : World) r w' tr :
  run_round query t history w = (r, w', tr) ->
  filter (fun ev => is_verify ev = true) tr = [].
Proof.
  unfold Kylin.run_round.
  apply (foldM_events (fun tr => filter (fun ev => is_verify ev = true) tr = [])).
  - reflexivity.
  - intros l1 l2 H1 H2. rewrite filter_app, H1, H2. reflexivity.
  - intros b a s r0 s' tr0. apply retriever_step_no_verify.
Qed.

(** *** Collaborators that do their part *)

Lemma post_process_total q' name g :
  well_formed g -> exists ctxs, post_process q' name g = Ok ctxs.
Proof.
  intros [[texts Ht] Hids]. unfold post_process.
  destruct (g !! "indices") as [ids |] eqn:Hi.
  - rewrite Ht, Hi. eauto.
  - destruct Hids as [[ids Hids] | [urls Hu]]; [discriminate |].
    rewrite Hu. cbv beta iota zeta.
    rewrite lookup_insert_ne by discriminate.
    rewrite Ht, lookup_insert_eq. eauto.
Qed.

Section Cooperative.
Hypothesis chat_answers : answers_every_prompt chat.
Hypothesis search_answers : answers_every_query retriever_search.
Hypothesis prompts_known : rewrite self = true -> prompts_cover rewrite_prompts self.

Lemma rewrite_query_total info name fh (w : World) :
  is_Some (rewrite_prompts !! name) ->
  exists q' w1 tr, rewrite_query info name fh w = (Ok q', w1, tr).
Proof.
  intros [p Hp]. unfold Kylin.rewrite_query. rewrite Hp.
  unfold bind. rewrite call_chat_eq.
  match goal with |- context [chat ?ps w] =>
    destruct (chat_answers ps w) as (rs & Hrs & Hlen); rewrite Hrs end.
  rewrite first_eq. destruct rs as [| response rs]; [discriminate |]. eauto.
Qed.

Lemma query_to_search_total query t idx name history (w : World) :
  name ∈ retrievers self ->
  Forall (fun round : list record => idx < length round) (take t history) ->
  exists q' w1 trq, query_to_search query t idx name history w = (Ok q', w1, trq).
Proof.
  intros Hname Hall. unfold Kylin.query_to_search.
  destruct (rewrite self) eqn:Hrw; [| unfold ret; eauto].
  unfold bind at 1. rewrite failing_history_eq.
  assert (exists fh,
            map_res (fun i : list record =>
                       match i !! idx with Some a => Ok a | None => Raise IndexError end)
              (take t history) = Ok fh) as [fh ->].
  { induction Hall as [| round l Hround _ IH]; simpl; [eauto |].
    destruct (lookup_lt_is_Some_2 _ _ Hround) as [a ->].
    destruct IH as [fh ->]. eauto. }
  specialize (prompts_known eq_refl). unfold prompts_cover in prompts_known.
  rewrite Forall_forall in prompts_known.
  destruct (rewrite_query_total query name fh w (prompts_known _ Hname))
    as (q' & w1 & tr & Hq).
  unfold bind, emit. rewrite Hq. eauto.
Qed.

Lemma retrieved_total q' name k d (w : World) :
  exists ctxs, retrieved q' name (fst (retriever_search name [q'] k d w)) = Ok ctxs.
Proof.
  destruct (search_answers name [q'] k d w) as (gs & -> & Hlen & Hwf).
  destruct gs as [| g gs]; [discriminate |].
  apply Forall_cons in Hwf as [Hg _]. simpl. apply post_process_total, Hg.
Qed.

Lemma retriever_step_total query t history cs cur idx name (w : World) :
  length history = t ->
  name ∈ retrievers self ->
  Forall (fun round : list record => idx < length round) history ->
  exists res w' tr,
    retriever_step query t (cs, history ++ [cur]) (idx, name) w = (Ok res, w', tr).
Proof.
  intros Hlen Hname Hall. rewrite retriever_step_eq.
  destruct (query_to_search_total query t idx name (history ++ [cur]) w Hname)
    as (q' & w1 & trq & ->).
  { rewrite take_history by exact Hlen. exact Hall. }
  destruct (retrieved_total q' name (retriever_top_k self) (disable_cache self) w1)
    as [ctxs Hctxs].
  destruct (retriever_search _ _ _ _ _) as [found w2]. simpl in Hctxs.
  cbv zeta. rewrite Hctxs, lookup_current by exact Hlen.
  destruct (summary_context self); [| eauto].
  match goal with |- context [chat ?ps w2] =>
    destruct (chat_answers ps w2) as (rs & Hrs & _);
    destruct (chat ps w2) as [rr w3] end.
  simpl in Hrs. subst rr. eauto.
Qed.

Lemma retrievers_loop_total query t history names :
  length history = t ->
  forall k cs cur (w : World),
    names ⊆ retrievers self ->
    Forall (fun round : list record => k + length names <= length round) history ->
    exists res w' tr,
      foldM (retriever_step query t) (zip (seq k (length names)) names)
        (cs, history ++ [cur]) w = (Ok res, w', tr).
Proof.
  intros Hlen. induction names as [| name names IH]; intros k cs cur w Hsub Hall.
  - simpl. unfold ret. eauto.
  - change (foldM ?f (zip (seq k (length (name :: names))) (name :: names)) ?b w)
      with (bind (f b (k, name))
              (fun b' => foldM f (zip (seq (S k) (length names)) names) b') w).
    destruct (retriever_step_total query t history cs cur k name w Hlen)
      as ([cs1 h1] & w1 & tr1 & Hs).
    { apply Hsub. left. }
    { eapply Forall_impl; [exact Hall |]. simpl. intros round. lia. }
    pose proof (retriever_step_spec query t history Hlen _ _ _ _ _ _ _ _ Hs)
      as (_ & _ & _ & Hres).
    destruct (Hres _ _ eq_refl) as (rec & -> & _).
    destruct (IH (S k) cs1 (cur ++ [rec]) w1) as (res & w' & tr2 & Hrest).
    { intros x Hx. apply Hsub. right. exact Hx. }
    { eapply Forall_impl; [exact Hall |]. simpl. intros round. lia. }
    rewrite (bind_ok _ _ _ _ _ _ Hs), Hrest. eauto.
Qed.

(** Every round of a well-formed history succeeds. *)
Lemma run_round_total query t history (w : World) :
  length history = t ->
  Forall (fun round : list record => length round = length (retrievers self))
    history ->
  exists cs round w' tr,
    run_round query t history w = (Ok (cs, history ++ [round]), w', tr) /\
    cs = round_contexts round /\
    length round = length (retrievers self) /\
    Forall (at_turn t) tr /\
    length (filter (fun ev => is_search ev = true) tr) = length (retrievers self).
Proof.
  intros Hlen Hall.
  destruct (retrievers_loop_total query t history (retrievers self) Hlen 0 [] [] w)
    as ([cs h] & w' & tr & Hrun).
  { reflexivity. }
  { eapply Forall_impl; [exact Hall |]. simpl. intros round. lia. }
  change (run_round query t history w = (Ok (cs, h), w', tr)) in Hrun.
  pose proof (run_round_spec query t history Hlen _ _ _ _ Hrun) as (Hat & _ & Hres).
  destruct (Hres _ _ eq_refl) as (round & -> & -> & Hnames & _ & Hcount).
  exists (round_contexts round), round, w', tr.
  split; [exact Hrun |]. split; [reflexivity |].
  split; [rewrite <- Hnames; symmetry; apply length_map |]. auto.
Qed.

(** With a verification that never passes, the loop runs all the turns
    that remain and returns the contexts of the last round. *)
Lemma turns_exhaust query remaining :
  (forall cs0 (w0 : World), fst (fst (verify_contexts cs0 query w0)) = Ok false) ->
  forall t cs history (w : World),
    length history = t ->
    Forall (fun round : list record => length round = length (retrievers self))
      history ->
    exists rounds w' tr,
      turns remaining query t cs history w =
        (Ok (default cs (round_contexts <$> last rounds), history ++ rounds), w', tr) /\
      length rounds = remaining /\
      length (filter (fun ev => is_verify ev = true) tr) = remaining /\
      length (filter (fun ev => is_search ev = true) tr) =
        remaining * length (retrievers self).
Proof.
  intros Hfail. induction remaining as [| remaining IH]; intros t cs history w Hlen Hall.
  - exists [], w, []. rewrite app_nil_r. repeat split.
  - rewrite turns_S.
    destruct (run_round_total query t history w Hlen Hall)
      as (cs1 & round & w1 & tr1 & Hrun & -> & Hround & _ & Hsearch).
    pose proof (run_round_no_verify _ _ _ _ _ _ _ Hrun) as Hnv.
    rewrite Hrun. simpl.
    specialize (Hfail (round_contexts round) w1).
    destruct (verify_contexts (round_contexts round) query w1)
      as [[rv w2] trv] eqn:Hv.
    simpl in Hfail. subst rv.
    apply verify_contexts_spec in Hv as [Hchat _].
    destruct (IH (S t) (round_contexts round) (history ++ [round]) w2)
      as (rounds & w3 & tr3 & Hrest & Hlen3 & Hverify3 & Hsearch3).
    { rewrite length_app. simpl. lia. }
    { apply Forall_app. split; [exact Hall | repeat constructor; exact Hround]. }
    rewrite Hrest.
    exists (round :: rounds), w3,
      (tr1 ++ EvVerify t (round_contexts round) :: trv ++ tr3).
    split; [| split; [| split]].
    + assert (default cs (round_contexts <$> last (round :: rounds)) =
              default (round_contexts round) (round_contexts <$> last rounds)) as ->.
      { destruct rounds as [| r0 rounds]; [reflexivity |].
        rewrite last_cons_cons. destruct (last (r0 :: rounds)) eqn:Hl; [reflexivity |].
        apply last_None in Hl. discriminate. }
      rewrite <- app_assoc. reflexivity.
    + simpl. congruence.
    + rewrite filter_app, length_app, Hnv.
      rewrite (count_verify_turn _ _ _ _ Hchat), Hverify3. reflexivity.
    + rewrite filter_app, length_app, Hsearch.
      rewrite (count_search_turn _ _ _ _ Hchat), Hsearch3. reflexivity.
Qed.

(** C2: with verification enabled and never passing, the search makes
    exactly three rounds and returns, without an exception, the contexts
    of the third round and the history of all three; with verification
    disabled it makes exactly one round. *)
Theorem retry_bound query (w : World) :
  (verify self = true ->
   (forall cs0 (w0 : World), fst (fst (verify_contexts cs0 query w0)) = Ok false) ->
   total_turn_num self = 3 /\
   exists r1 r2 r3 w' tr,
     inner_search query w = (Ok (round_contexts r3, [r1; r2; r3]), w', tr) /\
     length (filter (fun ev => is_verify ev = true) tr) = 3 /\
     length (filter (fun ev => is_search ev = true) tr) =
       3 * length (retrievers self)) /\
  (verify self = false ->
   total_turn_num self = 1 /\
   exists r1 w' tr,
     inner_search query w = (Ok (round_contexts r1, [r1]), w', tr) /\
     length (filter (fun ev => is_verify ev = true) tr) = 1 /\
     length (filter (fun ev => is_search ev = true) tr) =
       length (retrievers self)).
Proof.
  split.
  - intros Hv Hfail. unfold Kylin.inner_search, total_turn_num. rewrite Hv.
    split; [reflexivity |].
    destruct (turns_exhaust query 3 Hfail 0 [] [] w eq_refl (Forall_nil_2 _))
      as (rounds & w' & tr & Hrun & Hlen & Hverify & Hsearch).
    destruct rounds as [| r1 [| r2 [| r3 [| r4 rounds]]]]; try discriminate.
    exists r1, r2, r3, w', tr. auto.
  - intros Hv. unfold Kylin.inner_search, total_turn_num. rewrite Hv.
    split; [reflexivity |]. rewrite turns_S.
    destruct (run_round_total query 0 [] w eq_refl (Forall_nil_2 _))
      as (cs1 & round & w1 & tr1 & Hrun & -> & Hround & _ & Hsearch).
    pose proof (run_round_no_verify _ _ _ _ _ _ _ Hrun) as Hnv.
    rewrite Hrun. simpl.
    destruct (verify_contexts (round_contexts round) query w1)
      as [[rv w2] trv] eqn:Hver.
    apply verify_contexts_spec in Hver as [_ Hoff].
    destruct (Hoff Hv) as (-> & -> & ->).
    exists round, w1, (tr1 ++ [EvVerify 0 (round_contexts round)]).
    split; [reflexivity |]. split.
    + rewrite filter_app, length_app, Hnv. reflexivity.
    + rewrite filter_app, length_app, Hsearch.
      change (length (filter (fun ev => is_search ev = true)
                        [EvVerify 0 (round_contexts round)])) with 0.
      lia.
Qed.

End Cooperative.


(** *** Results without identifiers *)

Lemma lacks_identifiers_not_chat ev (tr : list event) :
  Forall is_chat tr -> ev ∈ tr -> ~ lacks_identifiers ev.
Proof.
  intros Hall Hin Hev. rewrite Forall_forall in Hall. specialize (Hall _ Hin).
  destruct ev; simpl in *; contradiction.
Qed.

Lemma retriever_step_fatal query t acc ir (w : World) r w' tr :
  retriever_step query t acc ir w = (r, w', tr) ->
  forall ev, ev ∈ tr -> lacks_identifiers ev ->
  r = Raise AssertionError /\ exists tr0, tr = tr0 ++ [ev].
Proof.
  destruct acc as [cs history], ir as [idx name]. rewrite retriever_step_eq.
  destruct (query_to_search query t idx name history w) as [[rq w1] trq] eqn:Hq.
  apply query_to_search_spec in Hq.
  assert (forall ev, ev ∈ trq -> ~ lacks_identifiers ev) as Hnone.
  { intros ev Hin.
    destruct Hq as [(_ & _ & _ & ->) | [(_ & -> & _) | (_ & fh & trc & _ & -> & Hc)]];
      try (inversion Hin; fail).
    apply elem_of_cons in Hin as [-> | Hin]; [intros [] |].
    eapply lacks_identifiers_not_chat; eassumption. }
  destruct rq as [q' | e].
  { destruct (retriever_search _ _ _ _ _) as [found w2]. cbv zeta.
    set (evs := EvSearch t idx name [q'] (retriever_top_k self)
                  (disable_cache self) found).
    assert (lacks_identifiers evs -> retrieved q' name found = Raise AssertionError)
      as Hbad.
    { unfold evs. simpl. destruct found as [[| g gs] | e]; try contradiction.
      intros [Hi Hu]. simpl. unfold post_process. rewrite Hi, Hu. reflexivity. }
    assert (forall (r0 : res (list context * list (list record))) tr1 ev,
              (forall ctxs, retrieved q' name found = Ok ctxs ->
                 exists c, tr1 = trq ++ evs :: c /\ Forall is_chat c) ->
              (forall e, retrieved q' name found = Raise e ->
                 r0 = Raise e /\ tr1 = trq ++ [evs]) ->
              ev ∈ tr1 -> lacks_identifiers ev ->
              r0 = Raise AssertionError /\ exists tr0, tr1 = tr0 ++ [ev]) as Hcase.
    { intros r0 tr1 ev Hok Hraise Hin Hev.
      destruct (retrieved q' name found) as [ctxs | e] eqn:Hret.
      - destruct (Hok _ eq_refl) as (c & -> & Hc).
        apply elem_of_app in Hin as [Hin | Hin]; [destruct (Hnone _ Hin Hev) |].
        apply elem_of_cons in Hin as [-> | Hin].
        + specialize (Hbad Hev). discriminate.
        + destruct (lacks_identifiers_not_chat _ _ Hc Hin Hev).
      - destruct (Hraise _ eq_refl) as [-> ->].
        apply elem_of_app in Hin as [Hin | Hin]; [destruct (Hnone _ Hin Hev) |].
        apply list_elem_of_singleton in Hin as ->.
        specialize (Hbad Hev). injection Hbad as ->.
        split; [reflexivity | eauto]. }
    destruct (retrieved q' name found) as [ctxs | e] eqn:Hret.
    - destruct (history !! t) as [round |].
      + destruct (summary_context self).
        * cbv zeta. destruct (chat _ w2) as [[responses | e] w3];
            intros [= <- <- <-] ev Hin Hev;
            (eapply (Hcase _ _ ev); [| intros e0 [=] | exact Hin | exact Hev]);
            intros ctxs0 _; eexists; (split; [reflexivity | repeat constructor]).
        * intros [= <- <- <-] ev Hin Hev.
          eapply (Hcase _ _ ev); [| intros e0 [=] | exact Hin | exact Hev].
          intros ctxs0 _. exists []. split; [reflexivity | constructor].
      + intros [= <- <- <-] ev Hin Hev.
        eapply (Hcase _ _ ev); [| intros e0 [=] | exact Hin | exact Hev].
        intros ctxs0 _. exists []. split; [reflexivity | constructor].
    - intros [= <- <- <-] ev Hin Hev.
      eapply (Hcase _ _ ev); [intros ctxs [=] | | exact Hin | exact Hev].
      intros e0 [= <-]. auto. }
  intros [= <- <- <-] ev Hin Hev. destruct (Hnone _ Hin Hev).
Qed.

Lemma run_round_fatal query t history (w : World) r w' tr :
  run_round query t history w = (r, w', tr) ->
  forall ev, ev ∈ tr -> lacks_identifiers ev ->
  r = Raise AssertionError /\ exists tr0, tr = tr0 ++ [ev].
Proof.
  unfold Kylin.run_round. apply foldM_fatal.
  intros b a s r0 s' tr0. apply retriever_step_fatal.
Qed.

Lemma turns_fatal query remaining : forall t cs history (w : World) r w' tr,
  turns remaining query t cs history w = (r, w', tr) ->
  forall ev, ev ∈ tr -> lacks_identifiers ev ->
  r = Raise AssertionError /\ exists tr0, tr = tr0 ++ [ev].
Proof.
  induction remaining as [| remaining IH]; intros t cs history w r w' tr H ev Hin Hev.
  - injection H as _ _ <-. inversion Hin.
  - rewrite turns_S in H.
    destruct (run_round query t history w) as [[r1 w1] tr1] eqn:Hround.
    pose proof (run_round_fatal _ _ _ _ _ _ _ Hround) as Hfatal.
    destruct r1 as [cr | e].
    2:{ injection H as <- _ <-. eapply Hfatal; eassumption. }
    destruct (verify_contexts (fst cr) query w1) as [[rv w2] trv] eqn:Hv.
    apply verify_contexts_spec in Hv as [Hchat _].
    assert (ev ∉ tr1 ++ EvVerify t (fst cr) :: trv) as Hnot.
    { intros Hin'. apply elem_of_app in Hin' as [Hin' | Hin'].
      - destruct (Hfatal _ Hin' Hev) as [Hr _]. discriminate.
      - apply elem_of_cons in Hin' as [-> | Hin']; [destruct Hev |].
        destruct (lacks_identifiers_not_chat _ _ Hchat Hin' Hev). }
    destruct rv as [[] | e].
    + injection H as _ _ <-. destruct (Hnot Hin).
    + destruct (turns remaining query (S t) (fst cr) (snd cr) w2)
        as [[r3 w3] tr3] eqn:Hrest.
      injection H as <- _ <-.
      change (tr1 ++ EvVerify t (fst cr) :: trv ++ tr3)
        with (tr1 ++ (EvVerify t (fst cr) :: trv) ++ tr3) in *.
      rewrite app_assoc in *.
      apply elem_of_app in Hin as [Hin | Hin]; [destruct (Hnot Hin) |].
      destruct (IH _ _ _ _ _ _ _ Hrest _ Hin Hev) as [Hr [tr0 ->]].
      split; [exact Hr |]. eexists. apply app_assoc.
    + injection H as _ _ <-. destruct (Hnot Hin).
Qed.

Lemma post_process_indices q' name (g : group) texts ids :
  g !! "texts" = Some texts -> g !! "indices" = Some ids ->
  post_process q' name g = Ok (map (make_context q' name) (zip texts ids)).
Proof. intros Ht Hi. unfold post_process. rewrite Hi, Ht, Hi. reflexivity. Qed.

Lemma post_process_urls q' name (g : group) texts urls :
  g !! "texts" = Some texts -> g !! "indices" = None -> g !! "urls" = Some urls ->
  post_process q' name g = Ok (map (make_context q' name) (zip texts urls)).
Proof.
  intros Ht Hi Hu. unfold post_process. rewrite Hi, Hu. cbv beta iota zeta.
  rewrite lookup_insert_ne by discriminate. rewrite Ht, lookup_insert_eq.
  reflexivity.
Qed.

(** C9: a search whose result has neither ["indices"] nor ["urls"] ends
    [inner_search] with an [AssertionError] at once: it is the last call
    the search makes.  When exactly one of the two is there, the contexts
    pair the texts, in order, with the identifiers of that entry. *)
Theorem missing_identifiers_are_fatal query (w : World) r w' tr ev :
  inner_search query w = (r, w', tr) ->
  (ev ∈ tr -> lacks_identifiers ev ->
   r = Raise AssertionError /\ exists tr0, tr = tr0 ++ [ev]) /\
  (forall q' name (g : group) texts ids,
     g !! "texts" = Some texts ->
     (g !! "indices" = Some ids /\ g !! "urls" = None) \/
     (g !! "indices" = None /\ g !! "urls" = Some ids) ->
     post_process q' name g = Ok (map (make_context q' name) (zip texts ids)) /\
     forall i c, map (make_context q' name) (zip texts ids) !! i = Some c ->
       ids !! i = Some (ctx_source c) /\ texts !! i = Some (ctx_full_text c)).
Proof.
  intros H. split.
  - intros Hin Hev. eapply turns_fatal; eassumption.
  - intros q' name g texts ids Ht Hone. split.
    + destruct Hone as [[Hi _] | [Hi Hu]].
      * apply post_process_indices; assumption.
      * apply post_process_urls; assumption.
    + intros i c Hc. rewrite list_lookup_fmap in Hc.
      destruct (zip texts ids !! i) as [[tx id] |] eqn:Hz; [| discriminate].
      injection Hc as <-. simpl.
      apply lookup_zip_with_Some in Hz as (x & y & [= -> ->] & Hx & Hy). auto.
Qed.


(** *** Summaries *)

Lemma prefix_app (a b s : string) :
  String.prefix (a +:+ b) s =
  String.prefix a s && String.prefix b (drop_string (String.length a) s).
Proof.
  revert s. induction a as [| c a IH]; intros s.
  - destruct s; reflexivity.
  - destruct s as [| c' s]; [reflexivity |]. simpl.
    destruct (Ascii.ascii_dec c c'); [apply IH | reflexivity].
Qed.

Lemma prefix_contains (p s : string) :
  String.prefix p s = true -> contains p s = true.
Proof.
  intros H.
  assert (contains p s =
          String.prefix p s ||
          match s with EmptyString => false | String _ s' => contains p s' end) as ->
    by (destruct s; reflexivity).
  rewrite H. reflexivity.
Qed.

Lemma re_match_lit l s : re_match (Lit l) s = String.prefix l s.
Proof. unfold re_match. simpl. destruct (String.prefix l s); reflexivity. Qed.

Lemma re_match_seq_alt a b c s :
  re_match (Seq (Lit a) (Alt (Lit b) (Lit c))) s =
  String.prefix (a +:+ b) s || String.prefix (a +:+ c) s.
Proof.
  rewrite !prefix_app. unfold re_match. simpl.
  destruct (String.prefix a s); simpl; [| reflexivity].
  destruct (String.prefix b _), (String.prefix c _); reflexivity.
Qed.

(** [not_relevant] is a test of the beginning of the lowered summary. *)
Lemma not_relevant_eq summ :
  not_relevant summ =
  String.prefix "context does not provide" (lower summ)
  || String.prefix "context does not contain" (lower summ)
  || String.prefix "no relevant information" (lower summ).
Proof.
  unfold not_relevant, patterns. cbn [existsb].
  rewrite re_match_seq_alt, re_match_lit, orb_false_r. reflexivity.
Qed.

Lemma not_relevant_begins summ :
  begins_with_phrase summ -> not_relevant summ = true.
Proof.
  unfold begins_with_phrase, phrases. rewrite not_relevant_eq. intros H.
  repeat (apply Exists_cons in H as [-> | H]; [rewrite ?orb_true_r; reflexivity |]).
  inversion H.
Qed.

Lemma not_relevant_iff summ :
  not_relevant summ = true <-> begins_with_phrase summ.
Proof.
  split; [| apply not_relevant_begins].
  unfold begins_with_phrase, phrases. rewrite not_relevant_eq. intros H.
  apply orb_true_iff in H as [H | H]; [apply orb_true_iff in H as [H | H] |].
  - apply Exists_cons_hd, H.
  - apply Exists_cons_tl, Exists_cons_hd, H.
  - apply Exists_cons_tl, Exists_cons_tl, Exists_cons_hd, H.
Qed.

Lemma apply_summaries_length responses : forall ctxs,
  length (apply_summaries responses ctxs) = length ctxs.
Proof.
  induction responses as [| summ responses IH]; intros [| ctx ctxs]; simpl;
    try reflexivity.
  f_equal. apply IH.
Qed.

Lemma apply_summaries_lookup responses : forall ctxs i ctx summ,
  ctxs !! i = Some ctx -> responses !! i = Some summ ->
  apply_summaries responses ctxs !! i =
  Some (set_text ctx (if not_relevant summ then None else Some summ)).
Proof.
  induction responses as [| s0 responses IH]; intros [| c0 ctxs] [| i] ctx summ Hc Hr;
    try discriminate; simpl in *.
  - injection Hc as ->. injection Hr as ->. reflexivity.
  - apply IH; assumption.
Qed.

(** C6, as the code has it: with summarization enabled, a context whose
    summary begins (whatever the case) with "context does not provide",
    "context does not contain" or "no relevant information" gets a null
    text and is left out of the contexts the step adds, yet stays in the
    record under the summarized contexts; a context with any other
    summary, also one that has such a phrase further on, keeps the summary
    as its text and is added. *)
Theorem summaries_filter_contexts query t cs history idx name (w : World)
    cs' history' w' tr :
  summary_context self = true ->
  retriever_step query t (cs, history) (idx, name) w = (Ok (cs', history'), w', tr) ->
  exists round rec summarized responses,
    history !! t = Some round /\
    history' = <[t := round ++ [rec]]> history /\
    rec_summarized_contexts rec = Some summarized /\
    EvChat (summary_prompts summary_prompt (rec_contexts rec) query) (Ok responses)
      ∈ tr /\
    cs' = cs ++ filter (fun c => has_text c = true) summarized /\
    Forall (fun c => ctx_text c <> None)
      (filter (fun c => has_text c = true) summarized) /\
    length summarized = length (rec_contexts rec) /\
    forall i ctx summ,
      rec_contexts rec !! i = Some ctx -> responses !! i = Some summ ->
      (begins_with_phrase summ ->
       summarized !! i = Some (set_text ctx None) /\
       set_text ctx None ∉ filter (fun c => has_text c = true) summarized) /\
      (~ begins_with_phrase summ ->
       summarized !! i = Some (set_text ctx (Some summ)) /\
       set_text ctx (Some summ) ∈ filter (fun c => has_text c = true) summarized).
Proof.
  intros Hsum. rewrite retriever_step_eq, Hsum.
  destruct (query_to_search query t idx name history w) as [[[q' | e] w1] trq];
    [| discriminate].
  destruct (retriever_search _ _ _ _ _) as [found w2]. cbv zeta.
  destruct (retrieved q' name found) as [ctxs | e]; [| discriminate].
  destruct (history !! t) as [round |]; [| discriminate].
  destruct (chat _ w2) as [[responses | e] w3]; [| discriminate].
  intros [= <- <- <- <-].
  eexists round, _, (apply_summaries responses ctxs), responses.
  split; [reflexivity |]. split; [reflexivity |]. split; [reflexivity |].
  split; [| split; [reflexivity |]; split; [| split]].
  - simpl. apply elem_of_app. right. right. left.
  - apply Forall_forall. intros c Hc. apply list_elem_of_filter in Hc as [Hc _].
    unfold has_text in Hc. destruct (ctx_text c); [discriminate | discriminate].
  - apply apply_summaries_length.
  - simpl. intros i ctx summ Hctx Hresp.
    pose proof (apply_summaries_lookup _ _ _ _ _ Hctx Hresp) as Hlook.
    split.
    + intros Hbegins. rewrite (not_relevant_begins _ Hbegins) in Hlook.
      split; [exact Hlook |].
      intros Hin. apply list_elem_of_filter in Hin as [Hin _]. discriminate.
    + intros Hnot. destruct (not_relevant summ) eqn:Hrel.
      * destruct (Hnot (proj1 (not_relevant_iff _) Hrel)).
      * split; [exact Hlook |]. apply list_elem_of_filter.
        split; [reflexivity |]. eapply list_elem_of_lookup_2, Hlook.
Qed.

End Searcher.

End KylinProps.

(** ** The iterative search on concrete collaborators *)

Module SearchRuns.
Import Kylin Examples.

Lemma ex_chat_answers : answers_every_prompt ex_chat.
Proof.
  intros ps n. exists (map (ex_answer n) ps). split; [reflexivity | apply length_map].
Qed.

Lemma ex_group_well_formed name : well_formed (ex_group name).
Proof.
  unfold well_formed, ex_group. destruct (String.eqb name "web").
  - split; [eexists; reflexivity | right; eexists; reflexivity].
  - split; [eexists; reflexivity | left; eexists; reflexivity].
Qed.

Lemma ex_search_answers : answers_every_query ex_search.
Proof.
  intros name qs k d n. exists (map (fun _ => ex_group name) qs).
  split; [reflexivity |]. split; [apply length_map |].
  apply Forall_fmap, Forall_forall. intros q _. apply ex_group_well_formed.
Qed.

Lemma ex_prompts_cover r v s : prompts_cover ex_rewrite_prompts (ex_searcher r v s).
Proof. repeat constructor; eexists; reflexivity. Qed.

Lemma retry_bound_witness :
  total_turn_num (ex_searcher true true false) = 3 /\
  exists r1 r2 r3 w' tr,
    ex_inner_search (ex_searcher true true false) france 0 =
      (Ok (round_contexts r3, [r1; r2; r3]), w', tr) /\
    length (filter (fun ev => is_verify ev = true) tr) = 3 /\
    length (filter (fun ev => is_search ev = true) tr) =
      3 * length (retrievers (ex_searcher true true false)).
Proof.
  destruct (KylinProps.retry_bound ex_chat ex_search ex_rewrite_prompts
              ex_verify_prompt ex_summary_prompt (ex_searcher true true false)
              ex_chat_answers ex_search_answers
              (fun _ => ex_prompts_cover true true false) france 0)
    as [Hexhaust _].
  apply Hexhaust; [reflexivity |]. intros cs0 w0. reflexivity.
Defined.

Lemma rewrite_gets_own_failed_queries_witness :
  france = france /\
  retrievers (ex_searcher true true false) !! 0 = Some "bm25" /\
  map rec_query [bm25_record "query 0"; bm25_record "query 3"] =
    searched_by 0 2 (ex_inner_search (ex_searcher true true false) france 0).2 /\
  (2 = 0 -> [bm25_record "query 0"; bm25_record "query 3"] = []).
Proof.
  apply (KylinProps.rewrite_gets_own_failed_queries ex_chat ex_search
           ex_rewrite_prompts ex_verify_prompt ex_summary_prompt
           (ex_searcher true true false) france 0
           (ex_inner_search (ex_searcher true true false) france 0).1.1
           (ex_inner_search (ex_searcher true true false) france 0).1.2
           (ex_inner_search (ex_searcher true true false) france 0).2
           2 0 "bm25" france).
  - vm_compute. reflexivity.
  - apply list_elem_of_lookup_2 with (i := 16). vm_compute. reflexivity.
Defined.

Lemma missing_identifiers_are_fatal_witness :
  (bad_event ∈ [bad_event] -> lacks_identifiers bad_event ->
   Raise AssertionError = Raise AssertionError
     :> res (list context * list (list record)) /\
   exists tr0, [bad_event] = tr0 ++ [bad_event]) /\
  (forall q' name (g : group) texts ids,
     g !! "texts" = Some texts ->
     (g !! "indices" = Some ids /\ g !! "urls" = None) \/
     (g !! "indices" = None /\ g !! "urls" = Some ids) ->
     post_process q' name g = Ok (map (make_context q' name) (zip texts ids)) /\
     forall i c, map (make_context q' name) (zip texts ids) !! i = Some c ->
       ids !! i = Some (ctx_source c) /\ texts !! i = Some (ctx_full_text c)).
Proof.
  apply (KylinProps.missing_identifiers_are_fatal ex_chat bad_search
           ex_rewrite_prompts ex_verify_prompt ex_summary_prompt
           (ex_searcher false true false) france 0
           (Raise AssertionError) 0 [bad_event] bad_event).
  vm_compute. reflexivity.
Defined.

(** C6, refuted as stated: a summary that says "does not contain" in the
    middle of a sentence matches neither pattern; every context keeps it
    as its text and is among the contexts the search returns. *)
Lemma summary_with_phrase_is_kept :
  contains "does not contain" (lower evasive) = true /\
  not_relevant evasive = false /\
  exists hist w' tr,
    inner_search evasive_chat ex_search ex_rewrite_prompts ex_verify_prompt
      ex_summary_prompt (ex_searcher false false true) france 0 =
      (Ok (map (fun c => set_text c (Some evasive))
             (bm25_contexts france ++
              map (make_context france "web") (zip ex_texts ["http://a"; "http://b"])),
           hist), w', tr).
Proof.
  split; [vm_compute; reflexivity |]. split; [vm_compute; reflexivity |].
  do 3 eexists. vm_compute. reflexivity.
Qed.

Lemma summaries_filter_contexts_witness :
  exists round rec summarized responses,
    [[]] !! 0 = Some round /\
    [[with_summary (bm25_record france) (bm25_summarized france)]] =
      <[0 := round ++ [rec]]> [[]] /\
    rec_summarized_contexts rec = Some summarized /\
    EvChat (summary_prompts ex_summary_prompt (rec_contexts rec) france)
      (Ok responses)
      ∈ [EvSearch 0 0 "bm25" [france] 10 false (Ok [ex_group "bm25"]);
         EvChat (summary_prompts ex_summary_prompt (bm25_contexts france) france)
           (Ok bm25_summaries)] /\
    filter (fun c => has_text c = true) (bm25_summarized france) =
      [] ++ filter (fun c => has_text c = true) summarized /\
    Forall (fun c => ctx_text c <> None)
      (filter (fun c => has_text c = true) summarized) /\
    length summarized = length (rec_contexts rec) /\
    forall i ctx summ,
      rec_contexts rec !! i = Some ctx -> responses !! i = Some summ ->
      (begins_with_phrase summ ->
       summarized !! i = Some (set_text ctx None) /\
       set_text ctx None ∉ filter (fun c => has_text c = true) summarized) /\
      (~ begins_with_phrase summ ->
       summarized !! i = Some (set_text ctx (Some summ)) /\
       set_text ctx (Some summ) ∈ filter (fun c => has_text c = true) summarized).
Proof.
  apply (KylinProps.summaries_filter_contexts ex_chat ex_search
           ex_rewrite_prompts ex_summary_prompt (ex_searcher false false true)
           france 0 [] [[]] 0 "bm25" 0 _ _ 1 _).
  - reflexivity.
  - vm_compute. reflexivity.
Defined.

End SearchRuns.

(** ** What a search leaves behind: histories, traces, contexts *)

Module KylinShapeProps.
Import Kylin KylinShape PyFacts.

Section Searcher.
Context {World : Type}.
Variable chat : list prompt -> World -> res (list string) * World.
Variable retriever_search :
  string -> list string -> Z -> bool -> World -> res (list group) * World.
Variable rewrite_prompts : gmap string prompt.
Variable verify_prompt : prompt.
Variable summary_prompt : prompt.
Variable self : searcher.

Local Abbreviation verify_contexts := (verify_contexts chat verify_prompt self).
Local Abbreviation query_to_search := (query_to_search chat rewrite_prompts self).
Local Abbreviation retriever_step :=
  (retriever_step chat retriever_search rewrite_prompts summary_prompt self).
Local Abbreviation run_round :=
  (run_round chat retriever_search rewrite_prompts summary_prompt self).
Local Abbreviation turns :=
  (turns chat retriever_search rewrite_prompts verify_prompt summary_prompt self).
Local Abbreviation inner_search :=
  (inner_search chat retriever_search rewrite_prompts verify_prompt
     summary_prompt self).

(** *** Contexts and records *)

Lemma post_process_built q' name (g : group) ctxs :
  post_process q' name g = Ok ctxs -> Forall (built_for q' name) ctxs.
Proof.
  unfold post_process.
  destruct (g !! "indices") as [ids |] eqn:Hi.
  - cbv beta iota zeta. rewrite Hi.
    destruct (g !! "texts") as [texts |]; [| discriminate].
    intros [= <-]. apply Forall_fmap, Forall_forall. intros ts _. repeat split.
  - destruct (g !! "urls") as [urls |]; [| discriminate]. cbv beta iota zeta.
    destruct (<["indices" := urls]> g !! "texts") as [texts |]; [| discriminate].
    destruct (<["indices" := urls]> g !! "indices") as [ids |]; [| discriminate].
    intros [= <-]. apply Forall_fmap, Forall_forall. intros ts _. repeat split.
Qed.

Lemma retrieved_built q' name found ctxs :
  retrieved q' name found = Ok ctxs -> Forall (built_for q' name) ctxs.
Proof.
  destruct found as [[| g gs] | e]; try discriminate. apply post_process_built.
Qed.

Lemma same_but_text_set c text : same_but_text c (set_text c text).
Proof. reflexivity. Qed.

Lemma apply_summaries_same responses : forall ctxs,
  Forall2 same_but_text ctxs (apply_summaries responses ctxs).
Proof.
  assert (forall ctxs, Forall2 same_but_text ctxs ctxs) as Hrefl.
  { induction ctxs; constructor; [reflexivity | assumption]. }
  induction responses as [| summ responses IH]; intros [| ctx ctxs]; simpl;
    try apply Hrefl.
  constructor; [apply same_but_text_set | apply IH].
Qed.

(** *** Events *)

Lemma search_calls_app (tr1 tr2 : list event) :
  search_calls (tr1 ++ tr2) = search_calls tr1 ++ search_calls tr2.
Proof. apply omap_app. Qed.

Lemma search_calls_chat (tr : list event) :
  Forall is_chat tr -> search_calls tr = [].
Proof.
  induction 1 as [| ev tr Hev _ IH]; [reflexivity |].
  destruct ev; simpl in *; try contradiction. exact IH.
Qed.

Lemma search_calls_query q t idx name history (w : World) r w' tr :
  query_to_search q t idx name history w = (r, w', tr) -> search_calls tr = [].
Proof.
  intros H. apply KylinProps.query_to_search_spec in H
    as [(_ & _ & _ & ->) | [(_ & -> & _) | (_ & fh & trc & _ & -> & Hc)]];
    try reflexivity.
  simpl. apply search_calls_chat, Hc.
Qed.

(** *** One step, one round *)

Lemma retriever_step_shape q t cs h idx name (w : World) cs' h' w' tr :
  retriever_step q t (cs, h) (idx, name) w = (Ok (cs', h'), w', tr) ->
  exists round rec,
    h !! t = Some round /\
    h' = <[t := round ++ [rec]]> h /\
    rec_retriever rec = name /\
    record_wf self rec /\
    cs' = cs ++ record_contexts rec /\
    search_calls tr = [(t, idx, name)].
Proof.
  rewrite KylinProps.retriever_step_eq.
  destruct (query_to_search q t idx name h w) as [[[q' | e] w1] trq] eqn:Hq;
    [| discriminate].
  apply search_calls_query in Hq.
  destruct (retriever_search _ _ _ _ _) as [found w2]. cbv zeta.
  destruct (retrieved q' name found) as [ctxs | e] eqn:Hret; [| discriminate].
  apply retrieved_built in Hret.
  destruct (h !! t) as [round |]; [| discriminate].
  destruct (summary_context self) eqn:Hsum.
  - destruct (chat _ w2) as [[responses | e] w3]; [| discriminate].
    intros [= <- <- <- <-]. eexists round, _.
    split; [reflexivity |]. split; [reflexivity |]. split; [reflexivity |].
    split; [| split; [reflexivity |]].
    + split; [exact Hret |]. simpl. split; [exact Hsum |].
      apply apply_summaries_same.
    + rewrite search_calls_app, Hq. reflexivity.
  - intros [= <- <- <- <-]. eexists round, _.
    split; [reflexivity |]. split; [reflexivity |]. split; [reflexivity |].
    split; [| split; [reflexivity |]].
    + split; [exact Hret | exact Hsum].
    + rewrite search_calls_app, Hq. reflexivity.
Qed.

Section Turn.
Variable query : string.
Variable t : nat.
Variable history : list (list record).
Hypothesis history_length : length history = t.

Lemma retrievers_loop_shape names : forall k cs cur (w : World) cs' h' w' tr,
  foldM (retriever_step query t) (zip (seq k (length names)) names)
    (cs, history ++ [cur]) w = (Ok (cs', h'), w', tr) ->
  exists recs,
    h' = history ++ [cur ++ recs] /\
    Forall (record_wf self) recs /\
    search_calls tr = imap (fun i name => (t, k + i, name)) names.
Proof.
  induction names as [| name names IH]; intros k cs cur w cs' h' w' tr H.
  - injection H as <- <- <- <-. exists []. rewrite app_nil_r. auto.
  - simpl in H.
    apply bind_inv_ok in H as ([cs1 h1] & w1 & tr1 & tr2 & Hs & Hrest & ->).
    apply retriever_step_shape in Hs
      as (round & rec & Hround & -> & _ & Hrec & _ & Hcalls).
    rewrite (KylinProps.lookup_current t history history_length) in Hround.
    injection Hround as <-.
    rewrite (KylinProps.insert_current t history history_length) in Hrest.
    apply IH in Hrest as (recs & -> & Hrecs & Hcalls2).
    exists (rec :: recs). split; [rewrite <- app_assoc; reflexivity |].
    split; [constructor; assumption |].
    rewrite search_calls_app, Hcalls, Hcalls2, imap_cons, Nat.add_0_r.
    simpl. f_equal. apply imap_ext. intros i name0 _. simpl. f_equal. f_equal. lia.
Qed.

(** A round that succeeds appends one well-formed round, made of one
    search per retriever, in order. *)
Lemma run_round_shape (w : World) cs' h' w' tr :
  run_round query t history w = (Ok (cs', h'), w', tr) ->
  exists round,
    h' = history ++ [round] /\
    round_wf self round /\
    cs' = round_contexts round /\
    search_calls tr = round_calls (retrievers self) t /\
    filter (fun ev => is_verify ev = true) tr = [].
Proof.
  intros H.
  pose proof (KylinProps.run_round_no_verify _ _ _ _ _ _ _ _ _ _ _ _ H) as Hnv.
  pose proof (KylinProps.run_round_spec _ _ _ _ _ query t history history_length
                _ _ _ _ H) as (_ & _ & Hres).
  destruct (Hres _ _ eq_refl) as (round & -> & -> & Hnames & _).
  unfold Kylin.run_round, enumerate in H.
  apply retrievers_loop_shape in H as (recs & Heq & Hrecs & Hcalls).
  apply app_inv_head in Heq. injection Heq as ->.
  exists recs. split; [reflexivity |]. split; [split; assumption |].
  split; [reflexivity |]. split; [exact Hcalls | exact Hnv].
Qed.

End Turn.

(** *** The loop over the turns *)

Lemma search_calls_verify t cs (trv : list event) :
  Forall is_chat trv -> search_calls (EvVerify t cs :: trv) = [].
Proof. intros Hc. simpl. apply search_calls_chat, Hc. Qed.

Lemma last_snoc_default {A B} (f : A -> B) (d : B) (x : A) (l : list A) :
  default d (f <$> last (x :: l)) = default (f x) (f <$> last l).
Proof.
  destruct l as [| y l]; [reflexivity |]. rewrite last_cons_cons.
  destruct (last (y :: l)) eqn:Hl; [reflexivity |].
  apply last_None in Hl. discriminate.
Qed.

(** The turns that [turns] runs: at most [remaining], at least one if any
    remains; each leaves a well-formed round; the contexts returned are
    those of the last one. *)
Lemma turns_shape query remaining :
  forall t cs history (w : World) cs' history' w' tr,
    length history = t ->
    turns remaining query t cs history w = (Ok (cs', history'), w', tr) ->
    exists rounds,
      history' = history ++ rounds /\
      length rounds <= remaining /\
      (0 < remaining -> 0 < length rounds) /\
      Forall (round_wf self) rounds /\
      cs' = default cs (round_contexts <$> last rounds) /\
      length (filter (fun ev => is_verify ev = true) tr) = length rounds /\
      search_calls tr = rounds_calls (retrievers self) t (length rounds).
Proof.
  induction remaining as [| remaining IH];
    intros t cs history w cs' history' w' tr Hlen H.
  - injection H as <- <- <- <-. exists []. rewrite app_nil_r.
    repeat split; auto; lia.
  - rewrite KylinProps.turns_S in H.
    destruct (run_round query t history w) as [[[[cs1 h1] | e] w1] tr1] eqn:Hround;
      [| discriminate].
    apply (run_round_shape query t history Hlen) in Hround
      as (round & -> & Hwf & -> & Hcalls & Hnv).
    simpl in H.
    destruct (verify_contexts (round_contexts round) query w1)
      as [[rv w2] trv] eqn:Hv.
    apply KylinProps.verify_contexts_spec in Hv as [Hchat _].
    destruct rv as [[] | e]; [| | discriminate].
    + injection H as <- <- <- <-. exists [round].
      split; [reflexivity |]. split; [simpl; lia |]. split; [simpl; lia |].
      split; [constructor; [exact Hwf | constructor] |]. split; [reflexivity |]. split.
      * rewrite filter_app, length_app, Hnv.
        rewrite <- (app_nil_r trv), (KylinProps.count_verify_turn _ _ _ _ Hchat).
        reflexivity.
      * rewrite search_calls_app, Hcalls, (search_calls_verify _ _ _ Hchat).
        unfold rounds_calls. simpl. rewrite !app_nil_r. reflexivity.
    + destruct (turns remaining query (S t) (round_contexts round)
                  (history ++ [round]) w2) as [[r3 w3] tr3] eqn:Hrest.
      injection H as -> <- <-.
      apply IH in Hrest as (rounds & -> & Hle & _ & Hwfs & -> & Hver & Hcalls3);
        [| rewrite length_app; simpl; lia].
      exists (round :: rounds).
      split; [rewrite <- app_assoc; reflexivity |]. split; [simpl; lia |].
      split; [simpl; lia |]. split; [constructor; assumption |].
      split; [symmetry; apply last_snoc_default |]. split.
      * rewrite filter_app, length_app, Hnv.
        rewrite (KylinProps.count_verify_turn _ _ _ _ Hchat), Hver. reflexivity.
      * rewrite search_calls_app, Hcalls.
        change (EvVerify t (round_contexts round) :: trv ++ tr3)
          with ((EvVerify t (round_contexts round) :: trv) ++ tr3).
        rewrite search_calls_app, (search_calls_verify _ _ _ Hchat), Hcalls3.
        reflexivity.
Qed.

(** X1: a search that returns has made at least one round and at most
    three (one without verification); the history holds, per round, one
    record per retriever in the order of the retrievers, and there was one
    call of [verify_contexts] per round. *)
Theorem history_has_one_record_per_retriever_and_round query (w : World)
    cs history w' tr :
  inner_search query w = (Ok (cs, history), w', tr) ->
  0 < length history <= total_turn_num self /\
  Forall (fun round => map rec_retriever round = retrievers self) history /\
  length (filter (fun ev => is_verify ev = true) tr) = length history.
Proof.
  intros H. apply (turns_shape query _ 0 [] [] w) in H as
      (rounds & -> & Hle & Hpos & Hwf & _ & Hver & _); [| reflexivity].
  simpl. split; [split; [apply Hpos | exact Hle] |].
  - unfold total_turn_num. destruct (verify self); lia.
  - split; [| exact Hver].
    eapply Forall_impl; [exact Hwf |]. intros round [Hnames _]. exact Hnames.
Qed.

(** X2: the searches of a search that returns are, turn after turn, one
    search of every retriever in the order of the retrievers, and no
    other. *)
Theorem every_round_searches_every_retriever_once query (w : World)
    cs history w' tr :
  inner_search query w = (Ok (cs, history), w', tr) ->
  search_calls tr = rounds_calls (retrievers self) 0 (length history).
Proof.
  intros H. apply (turns_shape query _ 0 [] [] w) in H as
      (rounds & -> & _ & _ & _ & _ & _ & Hcalls); [| reflexivity].
  exact Hcalls.
Qed.

(** X3: the contexts a search returns are those of the last round of the
    history it returns; the contexts of the rounds before are dropped. *)
Theorem returned_contexts_are_those_of_the_last_round query (w : World)
    cs history w' tr :
  inner_search query w = (Ok (cs, history), w', tr) ->
  exists earlier round,
    history = earlier ++ [round] /\ cs = round_contexts round.
Proof.
  intros H. apply (turns_shape query _ 0 [] [] w) in H as
      (rounds & -> & _ & Hpos & _ & -> & _ & _); [| reflexivity].
  assert (0 < length rounds) as Hlen
    by (apply Hpos; unfold total_turn_num; destruct (verify self); lia).
  destruct rounds as [| r0 rounds _] using rev_ind; [simpl in Hlen; lia |].
  exists rounds, r0. rewrite last_snoc. auto.
Qed.

Lemma record_contexts_ok rec :
  record_wf self rec ->
  Forall (fun c => has_text c = true /\ ctx_retriever c = rec_retriever rec)
    (record_contexts rec).
Proof.
  intros [Hbuilt Hsum]. unfold record_contexts.
  destruct (rec_summarized_contexts rec) as [summarized |].
  - destruct Hsum as [_ Hsame]. apply Forall_forall. intros c Hc.
    apply list_elem_of_filter in Hc as [Htext Hc]. split; [exact Htext |].
    apply list_elem_of_lookup in Hc as [i Hi].
    destruct (Forall2_lookup_r _ _ _ _ _ Hsame Hi) as (c0 & H0 & Hc0).
    rewrite Forall_forall in Hbuilt.
    destruct (Hbuilt c0 (list_elem_of_lookup_2 _ _ _ H0)) as (_ & Hname & _).
    rewrite <- Hname. unfold same_but_text in Hc0.
    change (ctx_retriever (set_text c None) = ctx_retriever (set_text c0 None)).
    rewrite Hc0. reflexivity.
  - eapply Forall_impl; [exact Hbuilt |]. intros c (_ & Hname & Htext).
    split; [unfold has_text; rewrite Htext; reflexivity | exact Hname].
Qed.

(** X4: every context a search returns has a text (a context whose
    summary made it null is never returned) and was retrieved by one of
    the retrievers of the searcher; without summarization its text is its
    full text. *)
Theorem returned_contexts_have_text query (w : World) cs history w' tr :
  inner_search query w = (Ok (cs, history), w', tr) ->
  Forall (fun c => ctx_text c <> None /\ ctx_retriever c ∈ retrievers self) cs /\
  (summary_context self = false ->
   Forall (fun c => ctx_text c = Some (ctx_full_text c)) cs).
Proof.
  intros H. apply (turns_shape query _ 0 [] [] w) in H as
      (rounds & -> & _ & Hpos & Hwf & -> & _ & _); [| reflexivity].
  assert (0 < length rounds) as Hlen
    by (apply Hpos; unfold total_turn_num; destruct (verify self); lia).
  destruct rounds as [| round rounds _] using rev_ind; [simpl in Hlen; lia |].
  rewrite last_snoc. simpl.
  apply Forall_app in Hwf as [_ Hround].
  pose proof (proj1 (Forall_singleton _ _) Hround) as [Hnames Hrecs].
  unfold round_contexts. split.
  - apply Forall_concat, Forall_fmap, Forall_forall. intros rec Hrec. simpl.
    rewrite Forall_forall in Hrecs.
    eapply Forall_impl; [apply record_contexts_ok, Hrecs, Hrec |].
    intros c [Htext Hname]. split.
    + unfold has_text in Htext. destruct (ctx_text c); [discriminate | discriminate].
    + rewrite Hname, <- Hnames. apply list_elem_of_fmap. eauto.
  - intros Hsum. apply Forall_concat, Forall_fmap, Forall_forall. intros rec Hrec.
    simpl. rewrite Forall_forall in Hrecs.
    destruct (Hrecs _ Hrec) as [Hbuilt Hshape]. unfold record_contexts.
    destruct (rec_summarized_contexts rec) as [summarized |];
      [destruct Hshape as [Hs _]; congruence |].
    eapply Forall_impl; [exact Hbuilt |]. intros c (_ & _ & Htext). exact Htext.
Qed.

(** X5: every record of the history a search returns holds contexts
    built for the record's own query and retriever, with their full text
    as text; it holds summarized contexts exactly when the searcher
    summarizes, one per context and equal to it but for the text. *)
Theorem history_records_are_well_formed query (w : World) cs history w' tr :
  inner_search query w = (Ok (cs, history), w', tr) ->
  Forall (Forall (record_wf self)) history.
Proof.
  intros H. apply (turns_shape query _ 0 [] [] w) in H as
      (rounds & -> & _ & _ & Hwf & _ & _ & _); [| reflexivity].
  simpl. eapply Forall_impl; [exact Hwf |]. intros round [_ Hrecs]. exact Hrecs.
Qed.

(** *** What a search never does *)

(** A property of every event that rounds and verifications keep holds of
    the whole search, whether it returns or raises. *)
Lemma turns_events (Q : event -> Prop) query :
  (forall t history (w : World) r w' tr,
     run_round query t history w = (r, w', tr) -> Forall Q tr) ->
  (forall t cs (w : World) r w' tr,
     verify_contexts cs query w = (r, w', tr) -> Forall Q (EvVerify t cs :: tr)) ->
  forall remaining t cs history (w : World) r w' tr,
    turns remaining query t cs history w = (r, w', tr) -> Forall Q tr.
Proof.
  intros Hround Hverify. induction remaining as [| remaining IH];
    intros t cs history w r w' tr H.
  - injection H as _ _ <-. constructor.
  - rewrite KylinProps.turns_S in H.
    destruct (run_round query t history w) as [[[cr | e] w1] tr1] eqn:Hr;
      apply Hround in Hr; [| injection H as _ _ <-; exact Hr].
    destruct (verify_contexts (fst cr) query w1) as [[rv w2] trv] eqn:Hv.
    apply (Hverify t) in Hv.
    destruct rv as [[] | e].
    + injection H as _ _ <-. apply Forall_app. auto.
    + destruct (turns remaining query (S t) (fst cr) (snd cr) w2)
        as [[r3 w3] tr3] eqn:Hrest.
      injection H as _ _ <-. apply IH in Hrest.
      change (EvVerify t cr.1 :: trv ++ tr3) with ((EvVerify t cr.1 :: trv) ++ tr3).
      rewrite !Forall_app. auto.
    + injection H as _ _ <-. apply Forall_app. auto.
Qed.

Lemma run_round_events (Q : event -> Prop) query t history (w : World) r w' tr :
  (forall acc ir (w0 : World) r0 w1 tr0,
     retriever_step query t acc ir w0 = (r0, w1, tr0) -> Forall Q tr0) ->
  run_round query t history w = (r, w', tr) -> Forall Q tr.
Proof.
  intros Hstep. unfold Kylin.run_round.
  apply (foldM_events (Forall Q)).
  - constructor.
  - intros l1 l2 H1 H2. apply Forall_app. auto.
  - intros b a s r0 s' tr0. apply Hstep.
Qed.

(** Without rewriting, a step searches the query itself. *)
Lemma retriever_step_plain query t acc ir (w : World) r w' tr :
  rewrite self = false ->
  retriever_step query t acc ir w = (r, w', tr) ->
  Forall (searches_only query) tr /\
  (summary_context self = false -> Forall no_model_call tr).
Proof.
  intros Hrw. destruct acc as [cs h], ir as [idx name].
  rewrite KylinProps.retriever_step_eq.
  destruct (query_to_search query t idx name h w) as [[rq w1] trq] eqn:Hq.
  apply KylinProps.query_to_search_spec in Hq
    as [(_ & -> & -> & ->) | [(Hrw' & _) | (Hrw' & _)]]; try congruence.
  destruct (retriever_search _ _ _ _ _) as [found w2]. cbv zeta.
  destruct (retrieved query name found) as [ctxs | e];
    [| intros [= _ _ <-]; split; [| intros _]; repeat constructor].
  destruct (h !! t) as [round |];
    [| intros [= _ _ <-]; split; [| intros _]; repeat constructor].
  destruct (summary_context self).
  - destruct (chat _ w2) as [[responses | e] w3]; intros [= _ _ <-];
      (split; [repeat constructor | discriminate]).
  - intros [= _ _ <-]. split; [| intros _]; repeat constructor.
Qed.

(** X6: a searcher that does not rewrite never calls [rewrite_query],
    and every search it makes, in every turn, is a search of the one query
    it was given; this holds of every run, also one that raises. *)
Theorem without_rewriting_every_search_uses_the_query query (w : World) r w' tr :
  rewrite self = false ->
  inner_search query w = (r, w', tr) ->
  Forall (searches_only query) tr.
Proof.
  intros Hrw. unfold Kylin.inner_search. apply turns_events.
  - intros t history w0 r0 w1 tr0. apply run_round_events.
    intros acc ir w2 r1 w3 tr1 Hs.
    apply (retriever_step_plain _ _ _ _ _ _ _ _ Hrw Hs).
  - intros t cs w0 r0 w1 tr0 Hv.
    apply KylinProps.verify_contexts_spec in Hv as [Hchat _].
    constructor; [exact I |].
    eapply Forall_impl; [exact Hchat |]. intros ev. destruct ev; simpl; tauto.
Qed.

(** X7: with rewriting, verification and summarization all disabled, a
    search never calls the language model. *)
Theorem plain_search_never_calls_the_model query (w : World) r w' tr :
  rewrite self = false -> verify self = false -> summary_context self = false ->
  inner_search query w = (r, w', tr) ->
  Forall no_model_call tr.
Proof.
  intros Hrw Hver Hsum. unfold Kylin.inner_search. apply turns_events.
  - intros t history w0 r0 w1 tr0. apply run_round_events.
    intros acc ir w2 r1 w3 tr1 Hs.
    apply (retriever_step_plain _ _ _ _ _ _ _ _ Hrw Hs), Hsum.
  - intros t cs w0 r0 w1 tr0 Hv.
    apply KylinProps.verify_contexts_spec in Hv as [_ Hoff].
    destruct (Hoff Hver) as (_ & _ & ->). repeat constructor.
Qed.

(** X8: when the verification of the first round passes, the search
    stops there: it returns that round alone, after one search of every
    retriever and one call of [verify_contexts]. *)
Theorem search_stops_at_the_first_pass query (w : World) cs history w' tr :
  (forall cs0 (w0 : World), fst (fst (verify_contexts cs0 query w0)) = Ok true) ->
  inner_search query w = (Ok (cs, history), w', tr) ->
  exists round,
    history = [round] /\ cs = round_contexts round /\
    search_calls tr = round_calls (retrievers self) 0 /\
    length (filter (fun ev => is_verify ev = true) tr) = 1.
Proof.
  intros Hpass H. unfold Kylin.inner_search in H.
  assert (exists remaining, total_turn_num self = S remaining) as [remaining Hrem]
    by (unfold total_turn_num; destruct (verify self); eauto).
  rewrite Hrem, KylinProps.turns_S in H.
  destruct (run_round query 0 [] w) as [[[[cs1 h1] | e] w1] tr1] eqn:Hround;
    [| discriminate].
  apply (run_round_shape query 0 [] eq_refl) in Hround
    as (round & -> & Hwf & -> & Hcalls & Hnv).
  simpl in H. specialize (Hpass (round_contexts round) w1).
  destruct (verify_contexts (round_contexts round) query w1)
    as [[rv w2] trv] eqn:Hv.
  simpl in Hpass. subst rv.
  apply KylinProps.verify_contexts_spec in Hv as [Hchat _].
  injection H as <- <- <- <-. exists round.
  split; [reflexivity |]. split; [reflexivity |]. split.
  - rewrite search_calls_app, Hcalls, (search_calls_verify _ _ _ Hchat).
    apply app_nil_r.
  - rewrite filter_app, length_app, Hnv.
    rewrite <- (app_nil_r trv), (KylinProps.count_verify_turn _ _ _ _ Hchat).
    reflexivity.
Qed.

(** *** Edges of the post-processing and of the summaries *)

(** X9: a result without ["texts"] makes the post-processing raise
    [KeyError], whenever it has identifiers to pair them with. *)
Theorem result_without_texts_raises_KeyError q' name (g : group) :
  g !! "texts" = None ->
  is_Some (g !! "indices") \/ is_Some (g !! "urls") ->
  post_process q' name g = Raise KeyError.
Proof.
  intros Ht Hids. unfold post_process.
  destruct (g !! "indices") as [ids |] eqn:Hi.
  - cbv beta iota zeta. rewrite Ht. reflexivity.
  - destruct Hids as [[ids Hids] | [urls Hu]]; [discriminate |].
    rewrite Hu. cbv beta iota zeta.
    rewrite lookup_insert_ne by discriminate. rewrite Ht. reflexivity.
Qed.

(** X10: when a result has ["indices"], these identify the texts,
    whatever ["urls"] holds; texts and identifiers are paired as far as
    both reach, so that surplus texts or identifiers are dropped without
    an error. *)
Theorem indices_win_and_surplus_is_dropped q' name (g : group) texts ids :
  g !! "texts" = Some texts -> g !! "indices" = Some ids ->
  post_process q' name g = Ok (map (make_context q' name) (zip texts ids)) /\
  length (map (make_context q' name) (zip texts ids)) =
    length texts `min` length ids.
Proof.
  intros Ht Hi. split; [apply KylinProps.post_process_indices; assumption |].
  rewrite length_map, length_zip_with. reflexivity.
Qed.

Lemma apply_summaries_beyond responses : forall ctxs i,
  length responses <= i -> apply_summaries responses ctxs !! i = ctxs !! i.
Proof.
  induction responses as [| summ responses IH]; intros [| ctx ctxs] [| i] Hi;
    simpl in *; try reflexivity; try lia.
  apply IH. lia.
Qed.

(** X11: summarizing asks the model once, with one prompt per context;
    it returns as many contexts as it got, each equal to the one it stems
    from but for the text, and a context beyond the last response of the
    model keeps the text it had. *)
Theorem summaries_keep_all_but_the_text ctxs question (w : World) summarized w' tr :
  summarize_contexts chat summary_prompt ctxs question w = (Ok summarized, w', tr) ->
  exists responses,
    tr = [EvChat (summary_prompts summary_prompt ctxs question) (Ok responses)] /\
    length (summary_prompts summary_prompt ctxs question) = length ctxs /\
    length summarized = length ctxs /\
    Forall2 same_but_text ctxs summarized /\
    forall i, length responses <= i -> summarized !! i = ctxs !! i.
Proof.
  rewrite KylinProps.summarize_contexts_eq.
  destruct (chat _ w) as [[responses | e] w1]; [| discriminate].
  intros [= <- <- <-]. exists responses.
  split; [reflexivity |]. split; [apply length_map |].
  split; [apply KylinProps.apply_summaries_length |].
  split; [apply apply_summaries_same | apply apply_summaries_beyond].
Qed.

End Searcher.

End KylinShapeProps.

(** ** Failures that end [inner_search] *)

Module KylinFatalProps.
Import Kylin KylinShape PyFacts KylinProps.

Section Searcher.
Context {World : Type}.
Variable chat : list prompt -> World -> res (list string) * World.
Variable retriever_search :
  string -> list string -> Z -> bool -> World -> res (list group) * World.
Variable rewrite_prompts : gmap string prompt.
Variable verify_prompt : prompt.
Variable summary_prompt : prompt.
Variable self : searcher.

Local Abbreviation rewrite_query := (rewrite_query chat rewrite_prompts).
Local Abbreviation verify_contexts := (verify_contexts chat verify_prompt self).
Local Abbreviation query_to_search := (query_to_search chat rewrite_prompts self).
Local Abbreviation retriever_step :=
  (retriever_step chat retriever_search rewrite_prompts summary_prompt self).
Local Abbreviation run_round :=
  (run_round chat retriever_search rewrite_prompts summary_prompt self).
Local Abbreviation turns :=
  (turns chat retriever_search rewrite_prompts verify_prompt summary_prompt self).
Local Abbreviation inner_search :=
  (inner_search chat retriever_search rewrite_prompts verify_prompt
     summary_prompt self).

(** An event that ends the step it occurs in with the exception [e] ends
    the search with it, when neither a call of the model nor a
    verification is such an event. *)
Section Fatal.
Variable P : event -> Prop.
Variable e : exn.
Hypothesis not_chat : forall ev, is_chat ev -> ~ P ev.
Hypothesis not_verify : forall t cs, ~ P (EvVerify t cs).
Hypothesis step_fatal :
  forall query t acc ir (w : World) r w' tr,
    retriever_step query t acc ir w = (r, w', tr) ->
    forall ev, ev ∈ tr -> P ev -> r = Raise e /\ exists tr0, tr = tr0 ++ [ev].

Lemma run_round_fatal_for query t history (w : World) r w' tr :
  run_round query t history w = (r, w', tr) ->
  forall ev, ev ∈ tr -> P ev -> r = Raise e /\ exists tr0, tr = tr0 ++ [ev].
Proof. unfold Kylin.run_round. apply foldM_fatal. exact (step_fatal query t). Qed.

Lemma turns_fatal_for query remaining : forall t cs history (w : World) r w' tr,
  turns remaining query t cs history w = (r, w', tr) ->
  forall ev, ev ∈ tr -> P ev -> r = Raise e /\ exists tr0, tr = tr0 ++ [ev].
Proof.
  induction remaining as [| remaining IH]; intros t cs history w r w' tr H ev Hin Hev.
  - injection H as _ _ <-. inversion Hin.
  - rewrite turns_S in H.
    destruct (run_round query t history w) as [[r1 w1] tr1] eqn:Hround.
    pose proof (run_round_fatal_for _ _ _ _ _ _ _ Hround) as Hfatal.
    destruct r1 as [cr | e1].
    2:{ injection H as <- _ <-. eapply Hfatal; eassumption. }
    destruct (verify_contexts (fst cr) query w1) as [[rv w2] trv] eqn:Hv.
    apply verify_contexts_spec in Hv as [Hchat _].
    assert (ev ∉ tr1 ++ EvVerify t (fst cr) :: trv) as Hnot.
    { intros Hin'. apply elem_of_app in Hin' as [Hin' | Hin'].
      - destruct (Hfatal _ Hin' Hev) as [Hr _]. discriminate.
      - apply elem_of_cons in Hin' as [-> | Hin']; [exact (not_verify _ _ Hev) |].
        rewrite Forall_forall in Hchat. exact (not_chat _ (Hchat _ Hin') Hev). }
    destruct rv as [[] | e1].
    + injection H as _ _ <-. destruct (Hnot Hin).
    + destruct (turns remaining query (S t) (fst cr) (snd cr) w2)
        as [[r3 w3] tr3] eqn:Hrest.
      injection H as <- _ <-.
      change (tr1 ++ EvVerify t (fst cr) :: trv ++ tr3)
        with (tr1 ++ (EvVerify t (fst cr) :: trv) ++ tr3) in *.
      rewrite app_assoc in *.
      apply elem_of_app in Hin as [Hin | Hin]; [destruct (Hnot Hin) |].
      destruct (IH _ _ _ _ _ _ _ Hrest _ Hin Hev) as [Hr [tr0 ->]].
      split; [exact Hr |]. eexists. apply app_assoc.
    + injection H as _ _ <-. destruct (Hnot Hin).
Qed.

End Fatal.

(** *** A retrieval that fails *)

Lemma failed_search_not_chat e ev : is_chat ev -> ~ failed_search e ev.
Proof. destruct ev; simpl; tauto. Qed.

Lemma failed_search_step e query t acc ir (w : World) r w' tr :
  retriever_step query t acc ir w = (r, w', tr) ->
  forall ev, ev ∈ tr -> failed_search e ev ->
  r = Raise e /\ exists tr0, tr = tr0 ++ [ev].
Proof.
  destruct acc as [cs history], ir as [idx name]. rewrite retriever_step_eq.
  destruct (query_to_search query t idx name history w) as [[rq w1] trq] eqn:Hq.
  apply query_to_search_spec in Hq.
  assert (forall ev, ev ∈ trq -> ~ failed_search e ev) as Hnone.
  { intros ev Hin.
    destruct Hq as [(_ & _ & _ & ->) | [(_ & -> & _) | (_ & fh & trc & _ & -> & Hc)]];
      try (inversion Hin; fail).
    apply elem_of_cons in Hin as [-> | Hin]; [intros [] |].
    rewrite Forall_forall in Hc. apply failed_search_not_chat, Hc, Hin. }
  destruct rq as [q' | e0]; [| intros [= <- <- <-] ev Hin Hev; destruct (Hnone _ Hin Hev)].
  destruct (retriever_search _ _ _ _ _) as [found w2]. cbv zeta.
  set (evs := EvSearch t idx name [q'] (retriever_top_k self)
                (disable_cache self) found).
  assert (forall (r0 : res (list context * list (list record))) tr1 ev,
            (forall ctxs, retrieved q' name found = Ok ctxs ->
               exists c, tr1 = trq ++ evs :: c /\ Forall is_chat c) ->
            (forall e0, retrieved q' name found = Raise e0 ->
               r0 = Raise e0 /\ tr1 = trq ++ [evs]) ->
            ev ∈ tr1 -> failed_search e ev ->
            r0 = Raise e /\ exists tr0, tr1 = tr0 ++ [ev]) as Hcase.
  { intros r0 tr1 ev Hok Hraise Hin Hev.
    destruct (retrieved q' name found) as [ctxs | e0] eqn:Hret.
    - destruct (Hok _ eq_refl) as (c & -> & Hc).
      apply elem_of_app in Hin as [Hin | Hin]; [destruct (Hnone _ Hin Hev) |].
      apply elem_of_cons in Hin as [-> | Hin].
      + unfold evs in Hev. simpl in Hev. congruence.
      + rewrite Forall_forall in Hc.
        destruct (failed_search_not_chat e ev (Hc _ Hin) Hev).
    - destruct (Hraise _ eq_refl) as [-> ->].
      apply elem_of_app in Hin as [Hin | Hin]; [destruct (Hnone _ Hin Hev) |].
      apply list_elem_of_singleton in Hin as ->.
      unfold evs in Hev. simpl in Hev. rewrite Hret in Hev. injection Hev as ->.
      split; [reflexivity | eauto]. }
  destruct (retrieved q' name found) as [ctxs | e0] eqn:Hret.
  - destruct (history !! t) as [round |].
    + destruct (summary_context self).
      * cbv zeta. destruct (chat _ w2) as [[responses | e0] w3];
          intros [= <- <- <-] ev Hin Hev;
          (eapply (Hcase _ _ ev); [| intros e1 [=] | exact Hin | exact Hev]);
          intros ctxs0 _; eexists; (split; [reflexivity | repeat constructor]).
      * intros [= <- <- <-] ev Hin Hev.
        eapply (Hcase _ _ ev); [| intros e1 [=] | exact Hin | exact Hev].
        intros ctxs0 _. exists []. split; [reflexivity | constructor].
    + intros [= <- <- <-] ev Hin Hev.
      eapply (Hcase _ _ ev); [| intros e1 [=] | exact Hin | exact Hev].
      intros ctxs0 _. exists []. split; [reflexivity | constructor].
  - intros [= <- <- <-] ev Hin Hev.
    eapply (Hcase _ _ ev); [intros ctxs [=] | | exact Hin | exact Hev].
    intros e1 [= <-]. auto.
Qed.

(** X25: [inner_search] handles no failure of a retrieval.  When a
    retriever raises, answers with an empty list, or gives a first result
    without texts or without identifiers, in whatever turn, the search
    raises that exception at once: the failed search is the last call it
    makes, and no contexts of earlier turns are returned. *)
Theorem failed_retrieval_is_fatal query (w : World) r w' tr ev e :
  inner_search query w = (r, w', tr) ->
  ev ∈ tr -> failed_search e ev ->
  r = Raise e /\ exists tr0, tr = tr0 ++ [ev].
Proof.
  intros H. eapply (turns_fatal_for (failed_search e) e); [| | | exact H].
  - apply failed_search_not_chat.
  - intros t cs [].
  - intros q t acc ir w0 r0 w0' tr0. apply failed_search_step.
Qed.

(** *** A retriever without a rewrite prompt *)

Lemma unprompted_not_chat ev : is_chat ev -> ~ unprompted_rewrite rewrite_prompts ev.
Proof. destruct ev; simpl; tauto. Qed.

Lemma unprompted_query query t idx name history (w : World) r w' tr :
  query_to_search query t idx name history w = (r, w', tr) ->
  forall ev, ev ∈ tr -> unprompted_rewrite rewrite_prompts ev ->
  r = Raise KeyError /\ tr = [ev].
Proof.
  unfold Kylin.query_to_search. destruct (rewrite self).
  - intros H. unfold bind at 1 in H. rewrite failing_history_eq in H.
    destruct (map_res _ _) as [fh | e0].
    + unfold bind at 1, emit at 1 in H.
      destruct (rewrite_query query name fh w) as [[r2 s2] l2] eqn:Hrw.
      injection H as <- <- <-. intros ev Hin Hev.
      pose proof (rewrite_query_events _ _ _ _ _ _ _ _ _ Hrw) as Hchat.
      apply elem_of_cons in Hin as [-> | Hin].
      * simpl in Hev. unfold Kylin.rewrite_query in Hrw. rewrite Hev in Hrw.
        injection Hrw as <- _ <-. split; reflexivity.
      * rewrite Forall_forall in Hchat.
        destruct (unprompted_not_chat ev (Hchat _ Hin) Hev).
    + injection H as _ _ <-. intros ev Hin. inversion Hin.
  - intros [= _ _ <-] ev Hin. inversion Hin.
Qed.

Lemma unprompted_step query t acc ir (w : World) r w' tr :
  retriever_step query t acc ir w = (r, w', tr) ->
  forall ev, ev ∈ tr -> unprompted_rewrite rewrite_prompts ev ->
  r = Raise KeyError /\ exists tr0, tr = tr0 ++ [ev].
Proof.
  destruct acc as [cs history], ir as [idx name]. rewrite retriever_step_eq.
  destruct (query_to_search query t idx name history w) as [[rq w1] trq] eqn:Hq.
  pose proof (unprompted_query _ _ _ _ _ _ _ _ _ Hq) as Hun.
  assert (forall (tr1 : list event) ev c,
            tr1 = trq ++ c ->
            Forall (fun ev => ~ unprompted_rewrite rewrite_prompts ev) c ->
            rq <> Raise KeyError ->
            ev ∈ tr1 -> ~ unprompted_rewrite rewrite_prompts ev) as Hnone.
  { intros tr1 ev c -> Hc Hrq Hin Hev.
    apply elem_of_app in Hin as [Hin | Hin].
    - destruct (Hun _ Hin Hev) as [Hr _]. contradiction.
    - rewrite Forall_forall in Hc. exact (Hc _ Hin Hev). }
  destruct rq as [q' | e0].
  - destruct (retriever_search _ _ _ _ _) as [found w2]. cbv zeta.
    assert (forall (r0 : res (list context * list (list record))) tr1 c,
              tr1 = trq ++ c ->
              Forall (fun ev => ~ unprompted_rewrite rewrite_prompts ev) c ->
              forall ev, ev ∈ tr1 -> unprompted_rewrite rewrite_prompts ev ->
              r0 = Raise KeyError /\ exists tr0, tr1 = tr0 ++ [ev]) as Hcase.
    { intros r0 tr1 c Htr Hc ev Hin Hev. exfalso.
      eapply (Hnone tr1 ev c); try eassumption. discriminate. }
    destruct (retrieved q' name found) as [ctxs | e0].
    + destruct (history !! t) as [round |].
      * destruct (summary_context self).
        -- cbv zeta. destruct (chat _ w2) as [[responses | e0] w3];
             intros [= <- <- <-]; eapply Hcase; [reflexivity | | reflexivity |];
             repeat constructor; intros [].
        -- intros [= <- <- <-]. eapply Hcase; [reflexivity |].
           repeat constructor; intros [].
      * intros [= <- <- <-]. eapply Hcase; [reflexivity |].
        repeat constructor; intros [].
    + intros [= <- <- <-]. eapply Hcase; [reflexivity |].
      repeat constructor; intros [].
  - intros [= <- <- <-] ev Hin Hev. destruct (Hun _ Hin Hev) as [Hr ->].
    injection Hr as ->. split; [reflexivity |]. exists []. reflexivity.
Qed.

(** X26: with [rewrite], a retriever that has no entry in the rewrite
    prompts ends the search with [KeyError] as soon as its query is to be
    rewritten: the model is not asked, the retriever is not searched, and
    nothing is called afterwards. *)
Theorem rewrite_without_prompt_raises_KeyError query (w : World) r w' tr ev :
  inner_search query w = (r, w', tr) ->
  ev ∈ tr -> unprompted_rewrite rewrite_prompts ev ->
  r = Raise KeyError /\ exists tr0, tr = tr0 ++ [ev].
Proof.
  intros H.
  eapply (turns_fatal_for (unprompted_rewrite rewrite_prompts) KeyError);
    [| | | exact H].
  - apply unprompted_not_chat.
  - intros t cs [].
  - intros q t acc ir w0 r0 w0' tr0. apply unprompted_step.
Qed.

End Searcher.

End KylinFatalProps.

(** ** More on the cached batch search: what is read, searched and written *)

Module RetrieverBaseShapeProps.
Import RetrieverBase RetrieverBaseShape PyFacts RetrieverBaseProps.

(** *** Lists: the positions and the queries of the misses *)

Section Misses.
Context {R : Type}.
Implicit Types results : list (option R).

Lemma enumerate_from_elem results : forall k n (r : option R),
  (n, r) ∈ zip (seq k (length results)) results <->
  k <= n /\ results !! (n - k) = Some r.
Proof.
  induction results as [| r0 results IH]; intros k n r; simpl.
  - split; [intros H; inversion H | intros [_ H]; discriminate].
  - rewrite elem_of_cons, IH. split.
    + intros [[= -> ->] | [Hk H]].
      * split; [lia |]. rewrite Nat.sub_diag. reflexivity.
      * split; [lia |]. replace (n - k) with (S (n - S k)) by lia. exact H.
    + intros [Hk H]. destruct (decide (n = k)) as [-> | Hne].
      * left. rewrite Nat.sub_diag in H. simpl in H. congruence.
      * right. split; [lia |].
        replace (n - k) with (S (n - S k)) in H by lia. exact H.
Qed.

Lemma new_indices_elem results n :
  n ∈ new_indices results <-> results !! n = Some None.
Proof.
  unfold new_indices, enumerate. rewrite list_elem_of_fmap. split.
  - intros ([m r] & -> & H). apply list_elem_of_filter in H as [Hr H].
    apply enumerate_from_elem in H as [_ H]. rewrite Nat.sub_0_r in H.
    simpl in *. destruct r; [discriminate | exact H].
  - intros H. exists (n, None). split; [reflexivity |].
    apply list_elem_of_filter. split; [reflexivity |].
    apply enumerate_from_elem. rewrite Nat.sub_0_r. split; [lia | exact H].
Qed.

Lemma new_indices_NoDup results : NoDup (new_indices results).
Proof.
  unfold new_indices, enumerate.
  apply (sublist_NoDup _ (seq 0 (length results))); [apply NoDup_seq |].
  rewrite <- (fst_zip (seq 0 (length results)) results) at 2
    by (rewrite length_seq; lia).
  apply fmap_sublist, sublist_filter.
Qed.

(** The misses, position by position: the queries of line 61 are the
    queries at the positions of line 62. *)
Lemma new_query_from {A} (f : string -> A) results : forall k (query : list string),
  length query = length results ->
  map (fun n => f <$> query !! (n - k))
    (map fst (filter (fun nr : nat * option R => is_None (snd nr) = true)
                (zip (seq k (length results)) results))) =
  map (fun q => Some (f q))
    (map fst (filter (fun qr : string * option R => is_None (snd qr) = true)
                (zip query results))).
Proof.
  induction results as [| r results IH]; intros k [| q query] Hlen;
    try discriminate; [reflexivity |].
  simpl in Hlen. injection Hlen as Hlen. simpl.
  assert (map (fun n => f <$> (q :: query) !! (n - k))
            (map fst (filter (fun nr : nat * option R => is_None (snd nr) = true)
                        (zip (seq (S k) (length results)) results))) =
          map (fun q => Some (f q))
            (map fst (filter (fun qr : string * option R => is_None (snd qr) = true)
                        (zip query results)))) as Hrest.
  { rewrite <- (IH (S k) query Hlen). apply Forall_fmap_ext, Forall_forall. intros n Hn.
    apply list_elem_of_fmap in Hn as ([m r0] & -> & Hn).
    apply list_elem_of_filter in Hn as [_ Hn].
    apply enumerate_from_elem in Hn as [Hk _]. simpl.
    replace (m - k) with (S (m - S k)) by lia. reflexivity. }
  rewrite !filter_cons. simpl. destruct r as [x |]; simpl.
  - destruct (decide (false = true)) as [|_]; [discriminate |]. exact Hrest.
  - destruct (decide (true = true)) as [_|]; [| congruence]. simpl.
    rewrite Nat.sub_diag. simpl. f_equal. exact Hrest.
Qed.

Lemma new_query_indices {A} (f : string -> A) (query : list string) results :
  length query = length results ->
  map (fun n => f <$> query !! n) (new_indices results) =
  map (fun q => Some (f q)) (new_query query results).
Proof.
  intros Hlen. unfold new_indices, new_query, enumerate.
  rewrite <- (new_query_from f results 0 query Hlen).
  apply map_ext. intros n. rewrite Nat.sub_0_r. reflexivity.
Qed.

Lemma new_query_length (query : list string) results :
  length query = length results ->
  length (new_query query results) = length (new_indices results).
Proof.
  intros Hlen. pose proof (new_query_indices (fun q => q) query results Hlen) as H.
  apply (f_equal length) in H. rewrite !length_map in H. symmetry. exact H.
Qed.

(** Lines 65-66 as a pure loop: [results[n] = r] for the pairs of the
    [zip]. *)
Lemma fill_other (pairs : list (nat * option R)) : forall results n,
  n ∉ map fst pairs ->
  foldl (fun acc nr => <[fst nr := snd nr]> acc) results pairs !! n = results !! n.
Proof.
  induction pairs as [| [m y] pairs IH]; intros results n Hn; [reflexivity |].
  simpl in *. apply not_elem_of_cons in Hn as [Hne Hn].
  rewrite IH by exact Hn. apply list_lookup_insert_ne. congruence.
Qed.

Lemma fill_at (pairs : list (nat * option R)) : forall results n x,
  NoDup (map fst pairs) -> (n, x) ∈ pairs -> n < length results ->
  foldl (fun acc nr => <[fst nr := snd nr]> acc) results pairs !! n = Some x.
Proof.
  induction pairs as [| [m y] pairs IH]; intros results n x Hnd Hin Hlt.
  - inversion Hin.
  - simpl in *. apply NoDup_cons in Hnd as [Hm Hnd].
    apply elem_of_cons in Hin as [[= -> ->] | Hin].
    + rewrite fill_other by exact Hm. apply list_lookup_insert_eq. exact Hlt.
    + apply IH; [exact Hnd | exact Hin | rewrite length_insert; exact Hlt].
Qed.

Lemma map_is_fmap {A B} (f : A -> B) (l : list A) : map f l = f <$> l.
Proof. induction l as [| a l IH]; simpl; [reflexivity | f_equal; exact IH]. Qed.

Lemma fst_zip_take {A B} (l : list A) : forall (k : list B),
  map fst (zip l k) = take (length k) l.
Proof.
  induction l as [| a l IH]; intros [| b k]; simpl; try reflexivity.
  f_equal. apply IH.
Qed.

Lemma zip_elem_lookup {A B} (l : list A) : forall (k : list B) a b,
  (a, b) ∈ zip l k <-> exists j, l !! j = Some a /\ k !! j = Some b.
Proof.
  intros k a b. rewrite list_elem_of_lookup. split.
  - intros [j Hj]. exists j. apply lookup_zip_with_Some in Hj as (a' & b' & [= -> ->] & H1 & H2).
    split; assumption.
  - intros (j & H1 & H2). exists j. apply lookup_zip_with_Some. eauto.
Qed.

(** What the assertion of line 68 sees after the loop of lines 65-67 has
    filled the positions of the misses with the answers [new_results]:
    no [None] is left exactly when there is an answer for every miss and
    the answers used are not [None]. *)
Lemma filled_all results (new_results : list (option R)) :
  Forall (fun r => is_None r = false)
    (foldl (fun acc nr => <[fst nr := snd nr]> acc) results
       (zip (new_indices results) new_results)) <->
  length (new_indices results) <= length new_results /\
  Forall (fun r => is_None r = false)
    (take (length (new_indices results)) new_results).
Proof.
  set (idxs := new_indices results).
  set (pairs := zip idxs new_results).
  assert (NoDup (map fst pairs)) as Hnd.
  { unfold pairs. rewrite fst_zip_take.
    eapply sublist_NoDup; [apply new_indices_NoDup | apply sublist_take]. }
  assert (forall n, n ∈ idxs -> n < length results) as Hrange.
  { intros n Hn. apply new_indices_elem in Hn. eapply lookup_lt_Some. exact Hn. }
  rewrite !Forall_lookup. split.
  - intros Hall. assert (length idxs <= length new_results) as Hlen.
    { destruct (le_lt_dec (length idxs) (length new_results)) as [| Hlt]; [assumption |].
      destruct (lookup_lt_is_Some_2 idxs (length new_results) Hlt) as [n Hn].
      assert (n ∉ map fst pairs) as Hout.
      { unfold pairs. rewrite fst_zip_take. intros Hin.
        apply list_elem_of_lookup in Hin as [j Hj].
        apply lookup_take_Some in Hj as [Hj Hlt'].
        pose proof (NoDup_lookup _ _ _ _ (new_indices_NoDup results) Hj Hn). lia. }
      assert (results !! n = Some None) as Hnone.
      { apply new_indices_elem. eapply list_elem_of_lookup_2. exact Hn. }
      specialize (Hall n None). rewrite fill_other in Hall by exact Hout.
      specialize (Hall Hnone). discriminate. }
    split; [exact Hlen |]. intros j x Hj. apply lookup_take_Some in Hj as [Hj Hlt].
    destruct (lookup_lt_is_Some_2 idxs j Hlt) as [n Hn].
    apply (Hall n x). apply fill_at; [exact Hnd | |].
    + apply zip_elem_lookup. eauto.
    + apply Hrange. eapply list_elem_of_lookup_2. exact Hn.
  - intros [Hlen Hall] n x Hx.
    destruct (decide (n ∈ map fst pairs)) as [Hin | Hout].
    + apply list_elem_of_fmap in Hin as ([m y] & -> & Hin). simpl in Hx.
      pose proof Hin as Hin'. apply zip_elem_lookup in Hin' as (j & Hj1 & Hj2).
      rewrite (fill_at pairs results m y) in Hx.
      * injection Hx as <-. apply (Hall j y). apply lookup_take_Some.
        split; [exact Hj2 | eapply lookup_lt_Some; exact Hj1].
      * exact Hnd.
      * exact Hin.
      * apply Hrange. eapply list_elem_of_lookup_2. exact Hj1.
    + rewrite fill_other in Hx by exact Hout.
      destruct x as [x |]; [reflexivity | exfalso]. apply Hout.
      unfold pairs. rewrite fst_zip_take, take_ge by exact Hlen.
      apply new_indices_elem. exact Hx.
Qed.

Lemma assert_all_iff results :
  is_ok (assert_all results) = true <-> Forall (fun r => is_None r = false) results.
Proof.
  unfold assert_all. rewrite Forall_forall.
  destruct (forallb _ results) eqn:Hall; simpl.
  - split; [intros _ | reflexivity]. rewrite forallb_forall in Hall.
    intros r Hr. apply list_elem_of_In, Hall in Hr. destruct r; [reflexivity | discriminate].
  - split; [discriminate |]. intros H. exfalso.
    assert (forallb (fun r : option R => negb (is_None r)) results = true) as Hyes.
    { apply forallb_forall. intros r Hr. apply list_elem_of_In, H in Hr. rewrite Hr.
      reflexivity. }
    congruence.
Qed.

Lemma assert_all_raises results e :
  assert_all results = Raise e -> e = AssertionError.
Proof. unfold assert_all. destruct (forallb _ _); congruence. Qed.

End Misses.

(** *** Traces *)

Section Traces.
Context {Cfg R Store World : Type}.
Variable cache_get : key Cfg -> Store -> res (option (entry Cfg R)) * Store.
Variable cache_put : key Cfg -> entry Cfg R -> Store -> res unit * Store.
Variable func :
  list string -> gmap string pyval -> World -> res (list (option R)) * World.

Local Abbreviation state := (state Store World).
Local Abbreviation event := (event Cfg R).
Local Abbreviation wrapper := (wrapper cache_get cache_put func).

Lemma gets_only (tr : list event) :
  Forall is_get tr -> put_keys tr = [] /\ func_args tr = [].
Proof.
  induction 1 as [| ev tr Hev _ [IH1 IH2]]; [split; reflexivity |].
  destruct ev; try contradiction. simpl. split; assumption.
Qed.

Lemma puts_only (tr : list event) :
  Forall is_put tr -> read_results tr = [] /\ func_args tr = [].
Proof.
  induction 1 as [| ev tr Hev _ [IH1 IH2]]; [split; reflexivity |].
  destruct ev; try contradiction. simpl. split; assumption.
Qed.

Lemma read_results_app (l1 l2 : list event) :
  read_results (l1 ++ l2) = read_results l1 ++ read_results l2.
Proof. apply omap_app. Qed.

Lemma put_keys_app (l1 l2 : list event) :
  put_keys (l1 ++ l2) = put_keys l1 ++ put_keys l2.
Proof. apply omap_app. Qed.

Lemma func_args_app (l1 l2 : list event) :
  func_args (l1 ++ l2) = func_args l1 ++ func_args l2.
Proof. apply omap_app. Qed.

(** Line 57 either builds the keys of the batch or fails before any
    cache is read. *)
Lemma hashkeys_keys_of cfg kw query (keys : list (key Cfg)) :
  hashkeys cfg (delete "disable_cache" kw) query = Ok keys ->
  keys = keys_of cfg kw query.
Proof.
  unfold hashkeys. revert keys.
  induction query as [| q query IH]; intros keys H; simpl in H.
  - injection H as <-. reflexivity.
  - unfold hashkey in H at 1.
    destruct (delete "disable_cache" kw !! "cfg"); [discriminate |].
    destruct (map_res _ query) as [ks | e]; [| discriminate].
    injection H as <-. simpl. f_equal. apply IH. reflexivity.
Qed.

(** Line 58: the reads that returned give the results, one per key; a
    read that fails, or finds nothing stored, ends the reading early. *)
Lemma lookup_all_reads keys : forall (s : state) r s' tr,
  lookup_all cache_get keys s = (r, s', tr) ->
  match r with
  | Ok results => read_results tr = results /\ length results = length keys
  | Raise _ => length (read_results tr) < length keys
  end.
Proof.
  induction keys as [| k keys IH]; intros s r s' tr H.
  - injection H as <- _ <-. split; reflexivity.
  - rewrite lookup_all_cons in H.
    destruct (cache_get k (store s)) as [[[[x k'] |] | e] st'].
    + destruct (lookup_all cache_get keys _) as [[[bs | e0] s2] l2] eqn:Hrec;
        injection H as <- _ <-; apply IH in Hrec; simpl in *.
      * destruct Hrec as [-> Hlen]. split; [reflexivity | lia].
      * lia.
    + injection H as <- _ <-. simpl. lia.
    + injection H as <- _ <-. simpl. lia.
Qed.

(** Lines 65-67 when no write fails and every position is in range. *)
Lemma write_back_ok keys pairs : forall results (s : state) r s' tr,
  write_back cache_put keys pairs results s = (r, s', tr) ->
  (forall k e, EvPut k (Raise e) ∉ tr) ->
  Forall (fun nr => fst nr < length results /\ is_Some (keys !! fst nr)) pairs ->
  r = Ok (foldl (fun acc nr => <[fst nr := snd nr]> acc) results pairs) /\
  map Some (put_keys tr) = map (fun nr => keys !! fst nr) pairs.
Proof.
  induction pairs as [| [n x] pairs IH]; intros results s r s' tr H Hputs Hrange.
  - injection H as <- _ <-. split; reflexivity.
  - apply Forall_cons in Hrange as [[Hn [k Hk]] Hrange]. simpl in Hn, Hk.
    rewrite write_back_cons in H.
    apply Nat.ltb_lt in Hn. rewrite Hn, Hk in H.
    destruct (cache_put k (x, k) (store s)) as [[u | e] st'].
    + destruct (write_back _ _ _ _ _) as [[r2 s2] l2] eqn:Hrec.
      injection H as <- _ <-. apply IH in Hrec as [-> Hkeys].
      * split; [reflexivity |]. simpl. rewrite Hk, Hkeys. reflexivity.
      * intros k0 e0 Hin. apply (Hputs k0 e0). right. exact Hin.
      * eapply Forall_impl; [exact Hrange |]. intros nr [H1 H2].
        rewrite length_insert. split; assumption.
    + injection H as _ _ <-. exfalso. apply (Hputs k e). left.
Qed.

(** Lines 65-66 never touch a position that holds a result. *)
Lemma write_back_keeps keys pairs : forall results (s : state) res s' tr,
  write_back cache_put keys pairs results s = (Ok res, s', tr) ->
  forall n, n ∉ map fst pairs -> res !! n = results !! n.
Proof.
  induction pairs as [| [m y] pairs IH]; intros results s res s' tr H n Hn.
  - injection H as <- _ _. reflexivity.
  - rewrite write_back_cons in H.
    destruct (m <? length results)%nat; [| discriminate].
    destruct (keys !! m) as [k |]; [| discriminate].
    destruct (cache_put k (y, k) (store s)) as [[u | e] st']; [| discriminate].
    destruct (write_back _ _ _ _ _) as [[r2 s2] l2] eqn:Hrec.
    injection H as -> _ _. simpl in Hn. apply not_elem_of_cons in Hn as [Hne Hn].
    rewrite (IH _ _ _ _ _ Hrec n Hn). apply list_lookup_insert_ne. congruence.
Qed.

(** X12: with the cache enabled, the wrapped search is called only once
    every key has been read; it is then called at most once, with exactly
    the queries whose stored result is [None], in the order of the batch,
    and with the keyword arguments of the call less [disable_cache].  A
    batch whose stored results are all present, and an empty batch, call
    nothing. *)
Theorem misses_are_searched_in_one_call cfg env query kw (s : state) r s' tr :
  truthy (disable_cache env kw) = false ->
  wrapper cfg env query kw s = (r, s', tr) ->
  length (read_results tr) <= length (as_list query) /\
  (length (read_results tr) < length (as_list query) ->
   is_ok r = false /\ func_args tr = []) /\
  (length (read_results tr) = length (as_list query) ->
   func_args tr =
     match new_query (as_list query) (read_results tr) with
     | [] => []
     | qs => [(qs, delete "disable_cache" kw)]
     end).
Proof.
  intros Hd H. rewrite wrapper_enabled in H by exact Hd. cbv zeta in H.
  destruct (hashkeys _ _ _) as [keys | e] eqn:Hk.
  - pose proof (hashkeys_length _ _ _ _ Hk) as Hklen.
    destruct (lookup_all cache_get keys s) as [[[rs | e] s1] l1] eqn:Hl.
    + pose proof (lookup_all_spec _ _ _ _ _ _ Hl) as (_ & Hgets & _).
      apply gets_only in Hgets as [_ Hnofunc].
      apply lookup_all_reads in Hl as [Hread Hlen].
      assert (forall l2 : list event,
                Forall is_put l2 -> read_results (l1 ++ l2) = rs) as Hreads.
      { intros l2 Hl2. apply puts_only in Hl2 as [Hl2 _].
        rewrite read_results_app, Hl2, app_nil_r. exact Hread. }
      destruct (new_query (as_list query) rs) as [| q0 nq] eqn:Hnq.
      * injection H as _ _ <-. rewrite Hread, Hnq.
        split; [lia |]. split; [lia |]. intros _. exact Hnofunc.
      * destruct (func _ _ _) as [[new_results | e] w'].
        -- destruct (write_back _ _ _ _ _) as [[r1 s2] l2] eqn:Hw.
           apply write_back_spec in Hw as (_ & Hputs & _).
           assert (tr = l1 ++ EvFunc (q0 :: nq) (delete "disable_cache" kw) :: l2)
             as ->.
           { destruct r1; injection H as _ _ <-; reflexivity. }
           assert (read_results
                     (l1 ++ EvFunc (q0 :: nq) (delete "disable_cache" kw) :: l2) = rs)
             as Hr.
           { rewrite read_results_app. simpl. apply puts_only in Hputs as [-> _].
             rewrite app_nil_r. exact Hread. }
           rewrite Hr, Hnq. split; [lia |]. split; [lia |]. intros _.
           rewrite func_args_app, Hnofunc. simpl.
           apply puts_only in Hputs as [_ ->]. reflexivity.
        -- injection H as _ _ <-.
           rewrite read_results_app, func_args_app, Hnofunc. simpl.
           rewrite app_nil_r, Hread, Hnq. split; [lia |]. split; [lia |].
           intros _. reflexivity.
    + injection H as <- _ <-.
      pose proof (lookup_all_spec _ _ _ _ _ _ Hl) as (_ & Hgets & _).
      apply gets_only in Hgets as [_ Hnofunc].
      apply lookup_all_reads in Hl as Hlt.
      split; [lia |]. split; [intros _; split; [reflexivity | exact Hnofunc] | lia].
  - injection H as <- _ <-. simpl. split; [lia |].
    split; [intros _; split; reflexivity |]. intros Hlen.
    destruct (as_list query); [| discriminate]. discriminate.
Qed.

(** X13: with the cache enabled, a call that returns gives one result per
    query and no [None]; a query whose stored result is present gets that
    stored result, whatever the wrapped search answers for the others. *)
Theorem stored_results_are_returned_as_stored cfg env query kw
    (s : state) results s' tr :
  truthy (disable_cache env kw) = false ->
  wrapper cfg env query kw s = (Ok results, s', tr) ->
  length results = length (as_list query) /\
  Forall (fun r => r <> None) results /\
  forall i x, read_results tr !! i = Some (Some x) -> results !! i = Some (Some x).
Proof.
  intros Hd H. split; [eapply wrapper_enabled_length; eassumption |].
  rewrite wrapper_enabled in H by exact Hd. cbv zeta in H.
  destruct (hashkeys _ _ _) as [keys | e] eqn:Hk; [| discriminate].
  destruct (lookup_all cache_get keys s) as [[[rs | e] s1] l1] eqn:Hl; [| discriminate].
  pose proof (lookup_all_reads _ _ _ _ _ Hl) as [Hread Hlen].
  assert (forall res, assert_all res = Ok results -> Forall (fun r => r <> None) results)
    as Hassert.
  { intros res Hres. pose proof (assert_all_ok _ _ Hres) as Heq. subst res.
    assert (is_ok (assert_all results) = true) as Hok by (rewrite Hres; reflexivity).
    apply assert_all_iff in Hok. eapply Forall_impl; [exact Hok |].
    intros r Hr ->. discriminate. }
  destruct (new_query (as_list query) rs) as [| q0 nq] eqn:Hnq.
  - injection H as H _ <-. split; [eapply Hassert; exact H |].
    apply assert_all_ok in H as ->. rewrite Hread. tauto.
  - destruct (func _ _ _) as [[new_results | e] w']; [| discriminate].
    destruct (write_back _ _ _ _ _) as [[[res | e] s2] l2] eqn:Hw; [| discriminate].
    injection H as H _ <-. split; [eapply Hassert; exact H |].
    apply assert_all_ok in H as ->.
    pose proof (write_back_spec _ _ _ _ _ _ _ _ Hw) as (_ & Hputs & _).
    rewrite read_results_app. simpl. apply puts_only in Hputs as [-> _].
    rewrite app_nil_r, Hread. intros i x Hi.
    rewrite (write_back_keeps _ _ _ _ _ _ _ Hw); [exact Hi |].
    rewrite fst_zip_take. intros Hin. apply elem_of_take in Hin as [j [Hj _]].
    apply list_elem_of_lookup_2, new_indices_elem in Hj. congruence.
Qed.

(** X14: with the cache enabled, when the wrapped search raises, the call
    raises the same exception, nothing is written to the cache, and the
    backend is left as the wrapped search left it. *)
Theorem failure_of_wrapped_search_writes_nothing cfg env query kw
    (s : state) r s' tr qs kw0 e w' :
  truthy (disable_cache env kw) = false ->
  wrapper cfg env query kw s = (r, s', tr) ->
  func_args tr = [(qs, kw0)] ->
  func qs kw0 (world s) = (Raise e, w') ->
  r = Raise e /\ put_keys tr = [] /\ world s' = w'.
Proof.
  intros Hd H Hargs Hf. rewrite wrapper_enabled in H by exact Hd. cbv zeta in H.
  destruct (hashkeys _ _ _) as [keys | e0] eqn:Hk;
    [| injection H as _ _ <-; discriminate].
  destruct (lookup_all cache_get keys s) as [[[rs | e0] s1] l1] eqn:Hl.
  - pose proof (lookup_all_spec _ _ _ _ _ _ Hl) as (Hworld & Hgets & _).
    apply gets_only in Hgets as [Hnoput Hnofunc].
    destruct (new_query (as_list query) rs) as [| q0 nq] eqn:Hnq.
    + injection H as _ _ <-. rewrite Hnofunc in Hargs. discriminate.
    + rewrite Hworld in H.
      destruct (func (q0 :: nq) _ (world s)) as [r0 w0] eqn:Hcall.
      assert ((q0 :: nq, delete "disable_cache" kw) = (qs, kw0)) as Heq.
      { destruct r0 as [new_results | e0].
        - destruct (write_back _ _ _ _ _) as [[r1 s2] l2].
          assert (tr = l1 ++ EvFunc (q0 :: nq) (delete "disable_cache" kw) :: l2)
            as -> by (destruct r1; injection H as _ _ <-; reflexivity).
          rewrite func_args_app, Hnofunc in Hargs. simpl in Hargs. congruence.
        - injection H as _ _ <-.
          rewrite func_args_app, Hnofunc in Hargs. simpl in Hargs. congruence. }
      injection Heq as <- <-. rewrite Hf in Hcall. injection Hcall as <- <-.
      injection H as <- <- <-. rewrite put_keys_app, Hnoput. simpl. tauto.
  - injection H as _ _ <-.
    pose proof (lookup_all_spec _ _ _ _ _ _ Hl) as (_ & Hgets & _).
    apply gets_only in Hgets as [_ Hnofunc]. rewrite Hnofunc in Hargs. discriminate.
Qed.

(** X15: with the cache enabled, the answers of the wrapped search are
    written to the cache before line 68 checks them.  When the wrapped
    search returns [new_results] for the misses [qs] and no write fails,
    the keys written are those of the first [len(new_results)] misses, in
    order; the call returns exactly when there is an answer for every miss
    and none of the answers used is [None], and raises [AssertionError]
    otherwise, after the writes. *)
Theorem answers_are_written_before_they_are_checked cfg env query kw
    (s : state) r s' tr qs kw0 new_results w' :
  truthy (disable_cache env kw) = false ->
  wrapper cfg env query kw s = (r, s', tr) ->
  func_args tr = [(qs, kw0)] ->
  func qs kw0 (world s) = (Ok new_results, w') ->
  Forall put_done tr ->
  put_keys tr = take (length new_results) (keys_of cfg kw qs) /\
  (is_ok r = true <->
   length qs <= length new_results /\
   Forall (fun x => x <> None) (take (length qs) new_results)) /\
  (is_ok r = false -> r = Raise AssertionError).
Proof.
  intros Hd H Hargs Hf Hdone.
  assert (forall k e, EvPut k (Raise e) ∉ tr) as Hputs.
  { intros k e Hin. rewrite Forall_forall in Hdone. exact (Hdone _ Hin). }
  clear Hdone.
  rewrite wrapper_enabled in H by exact Hd. cbv zeta in H.
  destruct (hashkeys _ _ _) as [keys | e0] eqn:Hk;
    [| injection H as _ _ <-; discriminate].
  pose proof (hashkeys_length _ _ _ _ Hk) as Hklen.
  apply hashkeys_keys_of in Hk. subst keys.
  destruct (lookup_all cache_get _ s) as [[[rs | e0] s1] l1] eqn:Hl.
  - pose proof (lookup_all_spec _ _ _ _ _ _ Hl) as (Hworld & Hgets & _).
    apply gets_only in Hgets as [Hnoput Hnofunc].
    apply lookup_all_reads in Hl as [_ Hlen]. rewrite Hklen in Hlen.
    destruct (new_query (as_list query) rs) as [| q0 nq] eqn:Hnq.
    + injection H as _ _ <-. rewrite Hnofunc in Hargs. discriminate.
    + rewrite Hworld in H.
      destruct (func (q0 :: nq) _ (world s)) as [r0 w0] eqn:Hcall.
      assert ((q0 :: nq, delete "disable_cache" kw) = (qs, kw0)) as Heq.
      { destruct r0 as [nr | e0].
        - destruct (write_back _ _ _ _ _) as [[r1 s2] l2].
          assert (tr = l1 ++ EvFunc (q0 :: nq) (delete "disable_cache" kw) :: l2)
            as -> by (destruct r1; injection H as _ _ <-; reflexivity).
          rewrite func_args_app, Hnofunc in Hargs. simpl in Hargs. congruence.
        - injection H as _ _ <-.
          rewrite func_args_app, Hnofunc in Hargs. simpl in Hargs. congruence. }
      injection Heq as <- <-. rewrite Hf in Hcall. injection Hcall as <- <-.
      rewrite <- Hnq in *. clear Hnq q0 nq.
      pose proof (new_query_length (as_list query) rs (eq_sym Hlen)) as Hqlen.
      destruct (write_back _ _ _ _ _) as [[r1 s2] l2] eqn:Hw.
      assert (tr = l1 ++ EvFunc (new_query (as_list query) rs)
                          (delete "disable_cache" kw) :: l2) as ->
        by (destruct r1; injection H as _ _ <-; reflexivity).
      apply write_back_ok in Hw as [-> Hkeys].
      * injection H as <- _. split; [| split].
        -- rewrite put_keys_app, Hnoput. simpl.
           apply (inj (fmap Some)). rewrite <- !map_is_fmap, Hkeys.
           rewrite <- (map_map fst (fun n => keys_of cfg kw (as_list query) !! n)).
           rewrite fst_zip_take, <- !List.firstn_map. f_equal.
           unfold keys_of. rewrite map_map.
           rewrite <- (new_query_indices
                         (fun q => (cfg, q, delete "disable_cache" kw))
                         (as_list query) rs (eq_sym Hlen)).
           apply map_ext. intros n. rewrite map_is_fmap. apply list_lookup_fmap.
        -- rewrite assert_all_iff, filled_all, Hqlen.
           split; intros [H1 H2]; (split; [exact H1 |]);
             (eapply Forall_impl; [exact H2 |]); intros [x |]; simpl; congruence.
        -- destruct (assert_all _) as [res | e0] eqn:Ha; [discriminate |].
           intros _. apply assert_all_raises in Ha. congruence.
      * intros k e0 Hin. apply (Hputs k e0). apply elem_of_app. right. right. exact Hin.
      * apply Forall_forall. intros [n x] Hin. simpl.
        apply elem_of_zip_l, new_indices_elem in Hin.
        apply lookup_lt_Some in Hin. split; [exact Hin |].
        apply lookup_lt_is_Some_2. unfold keys_of. rewrite length_map. lia.
  - injection H as _ _ <-.
    pose proof (lookup_all_spec _ _ _ _ _ _ Hl) as (_ & Hgets & _).
    apply gets_only in Hgets as [_ Hnofunc]. rewrite Hnofunc in Hargs. discriminate.
Qed.

End Traces.

(** *** The batches of [LocalRetriever.search] *)

Section LocalSearch.
Context {R World : Type}.
Variable batch_size : Z.
Variable query_preprocess_pipeline : string -> string.
Variable search_batch :
  list string -> gmap string pyval -> World -> res (list (option R)) * World.

Local Abbreviation search := (search batch_size query_preprocess_pipeline search_batch).

(** Lines 211-215 from batch [k0] on, for [m] batches of [b] queries that
    all start inside the list. *)
Lemma batches_loop_partition b (query : list string) kw m :
  forall k0 acc (w : World) r w' tr,
  0 < b ->
  (m = 0 \/ (k0 + m - 1) * b < length query) ->
  foldM (fun final_results idx =>
           bind (call_search_batch search_batch (take b (drop idx query)) kw)
             (fun results_ => ret (final_results ++ results_)))
    (map (fun k => k * b) (seq k0 m)) acc w = (r, w', tr) ->
  Forall (fun batch => 0 < length batch <= b) tr /\
  concat tr `prefix_of` drop (k0 * b) query /\
  (is_ok r = true -> concat tr = take (m * b) (drop (k0 * b) query)).
Proof.
  induction m as [| m IH]; intros k0 acc w r w' tr Hb Hin H.
  - injection H as <- _ <-. split; [constructor |].
    split; [apply prefix_nil | reflexivity].
  - destruct Hin as [| Hin]; [discriminate |]. simpl in H.
    assert (0 < length (take b (drop (k0 * b) query)) <= b) as Hbatch.
    { rewrite length_take, length_drop. nia. }
    pose proof (take_drop b (drop (k0 * b) query)) as Hsplit.
    rewrite drop_drop in Hsplit.
    apply bind_inv in H as [(e & Hstep & ->) | (acc' & w1 & l1 & l2 & Hstep & Hrest & ->)].
    + apply bind_inv in Hstep
        as [(e' & Hcall & _) | (rs & w2 & l3 & l4 & _ & Hret & _)];
        [| discriminate].
      unfold call_search_batch in Hcall.
      destruct (search_batch _ _ w) as [rb wb]. injection Hcall as _ _ <-.
      split; [constructor; [exact Hbatch | constructor] |].
      split; [| discriminate]. simpl. rewrite app_nil_r.
      rewrite <- Hsplit at 2. apply prefix_app_r. reflexivity.
    + apply bind_inv_ok in Hstep as (rs & w2 & l3 & l4 & Hcall & Hret & ->).
      injection Hret as _ _ <-. unfold call_search_batch in Hcall.
      destruct (search_batch _ _ w) as [rb wb]. injection Hcall as _ _ <-.
      apply IH in Hrest as (Hall & Hpre & Hok); [| exact Hb | lia].
      simpl.
      replace (S k0 * b) with (k0 * b + b) in Hpre, Hok by lia.
      split; [constructor; assumption |]. split.
      * apply (prefix_app (take b (drop (k0 * b) query))) in Hpre.
        rewrite Hsplit in Hpre. exact Hpre.
      * intros Hr. rewrite (Hok Hr).
        rewrite <- (drop_drop query b (k0 * b)). apply take_take_drop.
Qed.

(** X16: for a positive batch size, the batches handed to [search_batch]
    are consecutive slices of the preprocessed queries: none is empty,
    none is longer than the batch size, and together they are a prefix of
    the queries, all of them when the search returns. *)
Theorem batches_partition_the_queries query kw (w : World) r w' tr :
  (0 < batch_size)%Z ->
  search query kw w = (r, w', tr) ->
  Forall (fun batch => 0 < length batch <= Z.to_nat batch_size) tr /\
  concat tr `prefix_of` preprocessed query_preprocess_pipeline query kw /\
  (is_ok r = true -> concat tr = preprocessed query_preprocess_pipeline query kw).
Proof.
  intros Hpos. unfold RetrieverBase.search.
  fold (preprocessed query_preprocess_pipeline query kw).
  set (q' := preprocessed query_preprocess_pipeline query kw).
  unfold bind at 1. rewrite lift_res_eq. unfold batch_starts.
  destruct (Z.eqb_spec batch_size 0); [lia |].
  destruct (Z.ltb_spec batch_size 0); [lia |]. cbv zeta.
  match goal with |- context [foldM ?f ?l [] w] =>
    destruct (foldM f l [] w) as [[r0 w0] tr0] eqn:Hfold end.
  intros [= <- _ <-]. simpl.
  set (b := Z.to_nat batch_size) in *. assert (0 < b) as Hb by (unfold b; lia).
  apply batches_loop_partition in Hfold as (Hall & Hpre & Hok); [| exact Hb |].
  - simpl in Hpre, Hok. split; [exact Hall |]. split; [exact Hpre |].
    intros Hr. rewrite (Hok Hr). apply take_ge.
    pose proof (batches_cover (length q') b Hb). lia.
  - destruct (length q') as [| len] eqn:Hlen;
      [left; apply Nat.div_small; lia | right].
    replace (S len + b - 1) with (len + b) by lia.
    pose proof (Nat.div_mod_eq (len + b) b) as Hdiv.
    pose proof (Nat.mod_upper_bound (len + b) b ltac:(lia)) as Hmod.
    destruct ((len + b) / b) as [| d]; [lia |].
    replace (0 + S d - 1) with d by lia. nia.
Qed.

(** X17: a batch size that is not positive searches nothing: zero raises
    [ValueError] (the step of the [range] of line 211), a negative size
    returns the empty list whatever the queries are; neither calls
    [search_batch]. *)
Theorem nonpositive_batch_size_searches_nothing query kw (w : World) :
  (batch_size <= 0)%Z ->
  search query kw w =
    ((if (batch_size =? 0)%Z then Raise ValueError else Ok []), w, []).
Proof.
  intros Hneg. unfold RetrieverBase.search.
  unfold bind at 1. rewrite lift_res_eq. unfold batch_starts.
  destruct (Z.eqb_spec batch_size 0); [reflexivity |].
  destruct (Z.ltb_spec batch_size 0); [reflexivity | lia].
Qed.

End LocalSearch.

End RetrieverBaseShapeProps.

(** ** [test_speed] on a cached search *)

Module RetrieverSpeedProps.
Import RetrieverBase RetrieverSpeed.

Section TestSpeed.
Context {Cfg R Store World : Type}.
Variable cache_get : key Cfg -> Store -> res (option (entry Cfg R)) * Store.
Variable cache_put : key Cfg -> entry Cfg R -> Store -> res unit * Store.
Variable func :
  list string -> gmap string pyval -> World -> res (list (option R)) * World.
Variable cfg : Cfg.
Variable env : option string.
Variable top_k : Z.
Variable sents : list string.

Local Abbreviation test_speed :=
  (test_speed cache_get cache_put func cfg env top_k sents).

Lemma sample_done sample_num :
  (sample_num <= 0)%Z \/ sents <> [] -> exists query, sample sents sample_num = Done query.
Proof.
  intros Hs. unfold sample. destruct (Z.to_nat sample_num) as [| n] eqn:Hn; [eauto |].
  destruct sents as [| s0 l]; [| eauto].
  destruct Hs as [Hs | Hs]; [lia | contradiction].
Qed.

(** X24: [test_speed] cannot measure a cached search.  Line 156 passes
    [self.top_k] as a second positional argument, which the wrapper of
    line 40 does not take: whenever the loop runs (and the corpus can be
    sampled), the first search raises [TypeError]; neither the cache nor
    the wrapped search is reached. *)
Theorem test_speed_of_a_cached_search_raises_TypeError sample_num test_times
    search_kwargs (s : state Store World) :
  (0 < test_times)%Z ->
  (sample_num <= 0)%Z \/ sents <> [] ->
  test_speed sample_num test_times search_kwargs s =
    (Failed (Raised TypeError), s, []).
Proof.
  intros Htimes Hs. unfold RetrieverSpeed.test_speed.
  destruct (Z.to_nat test_times) as [| n] eqn:Hn; [lia |].
  cbn [rounds]. unfold timed_search.
  destruct (sample_done sample_num Hs) as [query ->].
  destruct (search_kwargs !! "disable_cache"); reflexivity.
Qed.

End TestSpeed.

End RetrieverSpeedProps.

(** ** The entry points of the searcher: extracting the needed
    information, searching, answering *)

Module KylinAnswerProps.
Import Kylin KylinShape KylinAnswer PyFacts.

(** *** Strings *)

#[local] Arguments String.append _ _ : simpl nomatch.

Lemma sapp_assoc (a b c : string) : (a +:+ b) +:+ c = a +:+ (b +:+ c).
Proof. induction a as [| x a IH]; simpl; [reflexivity | f_equal; exact IH]. Qed.

Lemma sapp_nil_r (a : string) : a +:+ "" = a.
Proof. induction a as [| x a IH]; simpl; [reflexivity | f_equal; exact IH]. Qed.

Lemma slength_app (a b : string) :
  String.length (a +:+ b) = String.length a + String.length b.
Proof. induction a as [| x a IH]; simpl; [reflexivity | f_equal; exact IH]. Qed.

Lemma consumed_app (pre rest : string) : consumed (pre +:+ rest) rest = pre.
Proof.
  unfold consumed. rewrite slength_app.
  replace (String.length pre + String.length rest - String.length rest)
    with (String.length pre) by lia.
  induction pre as [| x pre IH]; simpl.
  - destruct rest; reflexivity.
  - f_equal. exact IH.
Qed.

Lemma free_of_app a (s t : string) :
  free_of a (s +:+ t) = free_of a s && free_of a t.
Proof.
  induction s as [| x s IH]; simpl; [reflexivity |].
  rewrite IH. apply andb_assoc.
Qed.

Lemma digit_not_line_feed a : is_digit a = true -> Ascii.eqb line_feed a = false.
Proof.
  intros H. destruct (Ascii.eqb_spec line_feed a) as [<- |]; [discriminate | reflexivity].
Qed.

Lemma digit_not_bracket a : is_digit a = true -> Ascii.eqb "[" a = false.
Proof.
  intros H. destruct (Ascii.eqb_spec "[" a) as [<- |]; [discriminate | reflexivity].
Qed.

Lemma free_of_cons a b (s : string) :
  free_of a (String b s) = negb (Ascii.eqb a b) && free_of a s.
Proof. reflexivity. Qed.

Lemma all_digits_cons a (s : string) :
  all_digits (String a s) = is_digit a && all_digits s.
Proof. reflexivity. Qed.

Lemma digits_single_line ds : all_digits ds = true -> free_of line_feed ds = true.
Proof.
  induction ds as [| d ds IH]; [reflexivity |].
  rewrite all_digits_cons, free_of_cons.
  intros [Hd Hds]%andb_true_iff. rewrite (digit_not_line_feed d Hd). exact (IH Hds).
Qed.

(** *** The matcher *)

Lemma flat_map_map {A B C} (f : B -> list C) (g : A -> B) (l : list A) :
  flat_map f (map g l) = flat_map (fun x => f (g x)) l.
Proof. induction l as [| a l IH]; simpl; [reflexivity | rewrite IH; reflexivity]. Qed.

Lemma run_then a b s :
  run (Then a b) s =
  flat_map
    (fun m1 =>
       map (fun m2 =>
              (fst m2, match snd m2 with Some g => Some g | None => snd m1 end))
         (run b (fst m1)))
    (run a s).
Proof. reflexivity. Qed.

Lemma in_run_then a b s m :
  In m (run (Then a b) s) <->
  exists m1 m2,
    In m1 (run a s) /\ In m2 (run b (fst m1)) /\
    m = (fst m2, match snd m2 with Some g => Some g | None => snd m1 end).
Proof.
  rewrite run_then, in_flat_map. split.
  - intros (m1 & H1 & H). apply in_map_iff in H as (m2 & <- & H2). eauto.
  - intros (m1 & m2 & H1 & H2 & ->). exists m1. split; [exact H1 |].
    apply in_map_iff. eauto.
Qed.

Lemma in_run_chr a s m :
  In m (run (Chr a) s) -> s = String a (fst m) /\ snd m = None.
Proof.
  destruct s as [| b s]; simpl; [tauto |].
  destruct (Ascii.eqb_spec a b) as [-> |]; simpl; [| tauto].
  intros [<- | []]. split; reflexivity.
Qed.

Lemma run_chr_eq a s : run (Chr a) (String a s) = [(s, None)].
Proof. simpl. rewrite Ascii.eqb_refl. reflexivity. Qed.

Lemma run_chr_ne a b s : a <> b -> run (Chr a) (String b s) = [].
Proof.
  intros Hne. simpl. destruct (Ascii.eqb_spec a b); [contradiction | reflexivity].
Qed.

(** A run of the class: what is passed over is not empty and lies in the
    class. *)
Lemma spans_digit_inv s rest :
  In rest (spans Digit s) ->
  exists pre, s = pre +:+ rest /\ pre <> "" /\ all_digits pre = true.
Proof.
  revert rest. induction s as [| a s IH]; intros rest; simpl; [tauto |].
  destruct (is_digit a) eqn:Ha; [| intros []].
  intros [<- | Hin].
  - exists (String a ""). simpl. rewrite Ha. repeat split. discriminate.
  - apply IH in Hin as (pre & -> & _ & Hpre). exists (String a pre). simpl.
    rewrite Ha, Hpre. repeat split. discriminate.
Qed.

Lemma spans_dot_inv s rest :
  In rest (spans Dot s) ->
  exists pre, s = pre +:+ rest /\ pre <> "" /\ free_of line_feed pre = true.
Proof.
  revert rest. induction s as [| a s IH]; intros rest; [intros [] |].
  change (spans Dot (String a s))
    with (if negb (Ascii.eqb a line_feed) then s :: spans Dot s else []).
  destruct (Ascii.eqb a line_feed) eqn:Ha; [intros [] |].
  rewrite Ascii.eqb_sym in Ha. intros [<- | Hin].
  - exists (String a ""). split; [reflexivity |]. split; [discriminate |].
    rewrite free_of_cons, Ha. reflexivity.
  - apply IH in Hin as (pre & -> & _ & Hpre). exists (String a pre).
    split; [reflexivity |]. split; [discriminate |].
    rewrite free_of_cons, Ha, Hpre. reflexivity.
Qed.

(** A match of [\[\d+\]] went over a bracketed number. *)
Lemma bracketed_inv s m :
  In m (run bracketed_number s) ->
  exists ds,
    s = String "[" (ds +:+ String "]" (fst m)) /\
    all_digits ds = true /\ ds <> "" /\ snd m = None.
Proof.
  unfold bracketed_number. intros H.
  apply in_run_then in H as (m1 & m2 & H1 & H2 & ->).
  apply in_run_chr in H1 as [-> Hg1].
  apply in_run_then in H2 as (m3 & m4 & H3 & H4 & ->).
  apply in_run_chr in H4 as [Hrest Hg4].
  simpl in H3. apply in_map_iff in H3 as (rest & <- & H3).
  apply in_rev, spans_digit_inv in H3 as (ds & Hs & Hne & Hds).
  simpl in *. exists ds. rewrite Hs, Hrest, Hg4, Hg1. repeat split; assumption.
Qed.

Lemma in_run_ahead r s m :
  In m (run (Ahead r) s) -> m = (s, None) /\ exists m0, In m0 (run r s).
Proof.
  change (run (Ahead r) s)
    with (match run r s with [] => [] | _ :: _ => [(s, @None string)] end).
  destruct (run r s) as [| m0 l]; [intros [] |].
  intros [<- | []]. split; [reflexivity |]. exists m0. left. reflexivity.
Qed.

Lemma in_run_end s m : In m (run EndZ s) -> s = "".
Proof. destruct s; [reflexivity | intros []]. Qed.

Lemma in_run_group_lazy c s m :
  In m (run (Group (LazyPlus c)) s) ->
  exists rest, In rest (spans c s) /\ m = (rest, Some (consumed s rest)).
Proof.
  change (run (Group (LazyPlus c)) s)
    with (map (fun m => (fst m, Some (consumed s (fst m))))
            (map (fun rest : string => (rest, @None string)) (spans c s))).
  rewrite map_map. intros (rest & <- & Hin)%in_map_iff. eauto.
Qed.

(** A match of the pattern went over a bracketed number, a space, and an
    item that is not empty and holds no line feed, up to the end of the
    string or to an opening bracket. *)
Lemma info_inv s m :
  In m (run info_pattern s) ->
  exists ds item,
    s = String "[" (ds +:+ String "]" (String " " (item +:+ fst m))) /\
    all_digits ds = true /\ ds <> "" /\
    item <> "" /\ free_of line_feed item = true /\
    snd m = Some item /\
    (fst m = "" \/ exists t, fst m = String "[" t).
Proof.
  unfold info_pattern. intros H.
  apply in_run_then in H as (m1 & m2 & H1 & H2 & ->).
  apply bracketed_inv in H1 as (ds & -> & Hds & Hne & Hg1).
  apply in_run_then in H2 as (m3 & m4 & H3 & H4 & ->).
  apply in_run_chr in H3 as [H3 Hg3].
  apply in_run_then in H4 as (m5 & m6 & H5 & H6 & ->).
  apply in_run_group_lazy in H5 as (rest & H5 & ->).
  apply spans_dot_inv in H5 as (item & Hs & Hine & Hitem).
  apply in_run_ahead in H6 as [-> [m0 Hin]].
  assert (rest = "" \/ exists t, rest = String "[" t) as Hrest.
  { apply in_app_or in Hin as [Hin | Hin].
    - apply bracketed_inv in Hin as (ds' & Hr & _). right. eauto.
    - left. eapply in_run_end. exact Hin. }
  exists ds, item. cbn [fst snd] in *. rewrite H3, Hs, consumed_app.
  repeat split; assumption.
Qed.

(** The greedy run of digits before a closing bracket: only the longest
    run lets the rest of the pattern go on. *)
Lemma digits_then {B} (f : string -> list B) ds t :
  (forall a u, is_digit a = true -> f (String a u) = []) ->
  all_digits ds = true ->
  flat_map f (rev (spans Digit (ds +:+ String "]" t))) =
  match ds with
  | EmptyString => []
  | String _ _ => f (String "]" t)
  end.
Proof.
  intros Hf. induction ds as [| d ds IH]; simpl; [reflexivity |].
  intros [Hd Hds]%andb_true_iff. rewrite Hd. simpl.
  rewrite flat_map_app, (IH Hds). simpl. rewrite app_nil_r.
  destruct ds as [| d' ds]; simpl; [reflexivity |].
  simpl in Hds. apply andb_true_iff in Hds as [Hd' _].
  rewrite (Hf d' _ Hd'), app_nil_r. reflexivity.
Qed.

Lemma flat_map_single {A B} (f : A -> list B) (x : A) : flat_map f [x] = f x.
Proof. simpl. apply app_nil_r. Qed.

Lemma run_plus c s :
  run (Plus c) s = map (fun rest => (rest, None)) (rev (spans c s)).
Proof. reflexivity. Qed.

Lemma run_group_lazy c s :
  run (Group (LazyPlus c)) s =
  map (fun rest => (rest, Some (consumed s rest))) (spans c s).
Proof.
  change (run (Group (LazyPlus c)) s)
    with (map (fun m => (fst m, Some (consumed s (fst m))))
            (map (fun rest : string => (rest, @None string)) (spans c s))).
  apply map_map.
Qed.

Lemma run_bracketed ds t :
  all_digits ds = true -> ds <> "" ->
  run bracketed_number (String "[" (ds +:+ String "]" t)) = [(t, None)].
Proof.
  intros Hds Hne. unfold bracketed_number.
  rewrite run_then, run_chr_eq, flat_map_single. cbn [fst snd].
  rewrite run_then, run_plus, flat_map_map.
  rewrite (digits_then _ ds t); [| | exact Hds].
  - destruct ds; [contradiction |]. cbn [fst snd]. rewrite run_chr_eq. reflexivity.
  - intros a u Ha. cbn [fst snd]. rewrite run_chr_ne; [reflexivity |].
    intros <-. discriminate.
Qed.

Lemma run_bracketed_other s :
  (forall t, s <> String "[" t) -> run bracketed_number s = [].
Proof.
  intros Hs. destruct (run bracketed_number s) as [| m l] eqn:Hrun; [reflexivity |].
  assert (In m (run bracketed_number s)) as Hin by (rewrite Hrun; left; reflexivity).
  apply bracketed_inv in Hin as (ds & -> & _). exfalso. eapply Hs. reflexivity.
Qed.

Lemma run_ahead_eq r s :
  run (Ahead r) s = match run r s with [] => [] | _ :: _ => [(s, None)] end.
Proof. reflexivity. Qed.

Lemma run_or a b s : run (Or a b) s = run a s ++ run b s.
Proof. reflexivity. Qed.

Lemma run_ahead rest :
  item_ends rest ->
  run (Ahead (Or bracketed_number EndZ)) rest = [(rest, None)].
Proof.
  intros [-> | (ds & t & -> & Hds & Hne)]; [reflexivity |].
  rewrite run_ahead_eq, run_or, (run_bracketed ds t Hds Hne). reflexivity.
Qed.

Lemma run_ahead_other a s :
  a <> "["%char -> run (Ahead (Or bracketed_number EndZ)) (String a s) = [].
Proof.
  intros Ha. rewrite run_ahead_eq, run_or, run_bracketed_other; [reflexivity |].
  intros t [= -> _]. contradiction.
Qed.

Lemma spans_cons c a s :
  spans c (String a s) = if in_class c a then s :: spans c s else [].
Proof. reflexivity. Qed.

(** The lazy run of the group: it stops at the first place where the
    look-ahead holds. *)
Lemma lazy_item (whole : string) item rest :
  item <> "" -> free_of "[" item = true -> free_of line_feed item = true ->
  item_ends rest ->
  exists l,
    flat_map
      (fun u =>
         map (fun m2 : string * option string =>
                (fst m2,
                 match snd m2 with
                 | Some g => Some g
                 | None => Some (consumed whole u)
                 end))
           (run (Ahead (Or bracketed_number EndZ)) u))
      (spans Dot (item +:+ rest)) =
    (rest, Some (consumed whole rest)) :: l.
Proof.
  intros Hne Hfree Hline Hends. induction item as [| a item IH]; [contradiction |].
  rewrite free_of_cons in Hfree, Hline.
  apply andb_true_iff in Hfree as [Ha Hfree].
  apply andb_true_iff in Hline as [Hl Hline].
  change (String a item +:+ rest) with (String a (item +:+ rest)).
  rewrite spans_cons. unfold in_class. rewrite Ascii.eqb_sym.
  destruct (Ascii.eqb line_feed a); [discriminate |].
  cbn [negb flat_map]. destruct item as [| b item].
  - change ("" +:+ rest) with rest. rewrite (run_ahead rest Hends).
    cbn [map fst snd app]. eauto.
  - change (String b item +:+ rest) with (String b (item +:+ rest)).
    rewrite run_ahead_other.
    + cbn [map app]. apply IH; [discriminate | exact Hfree | exact Hline].
    + rewrite free_of_cons in Hfree. intros ->. discriminate.
Qed.

(** The pattern at the start of a numbered item that ends where the
    look-ahead holds: the first match is the item. *)
Lemma run_info_item ds item rest :
  all_digits ds = true -> ds <> "" ->
  item <> "" -> free_of "[" item = true -> free_of line_feed item = true ->
  item_ends rest ->
  exists l,
    run info_pattern (String "[" (ds +:+ String "]" (String " " (item +:+ rest)))) =
    (rest, Some item) :: l.
Proof.
  intros Hds Hne Hine Hfree Hline Hends. unfold info_pattern.
  rewrite run_then, (run_bracketed ds _ Hds Hne), flat_map_single. cbn [fst snd].
  rewrite run_then, run_chr_eq, flat_map_single. cbn [fst snd].
  rewrite run_then, run_group_lazy, flat_map_map. cbn [fst snd].
  destruct (lazy_item (item +:+ rest) item rest Hine Hfree Hline Hends) as [l Hl].
  rewrite Hl, !map_cons, consumed_app. cbn [fst snd]. eauto.
Qed.

Lemma run_info_other s :
  (forall t, s <> String "[" t) -> run info_pattern s = [].
Proof.
  intros Hs. unfold info_pattern.
  rewrite run_then, (run_bracketed_other s Hs). reflexivity.
Qed.

(** *** The scan *)

Lemma scan_skip (r : re) pre rest :
  scan r (String.length pre) (pre +:+ rest) = scan r 0 rest.
Proof. induction pre as [| a pre IH]; simpl; [destruct rest |]; auto. Qed.

Lemma scan_Forall (P : string -> Prop) (r : re) :
  (forall s m l, run r s = m :: l -> P (default "" (snd m))) ->
  forall s skip, Forall P (scan r skip s).
Proof.
  intros Hrun. induction s as [| a s IH]; intros [| k]; simpl; try constructor.
  - destruct (run r "") as [| m l] eqn:Hm; constructor; [| constructor].
    eapply Hrun. exact Hm.
  - destruct (run r (String a s)) as [| m l] eqn:Hm; [apply IH |].
    constructor; [eapply Hrun; exact Hm | apply IH].
  - apply IH.
Qed.

Lemma scan_free (s : string) :
  free_of "[" s = true -> scan info_pattern 0 s = [].
Proof.
  induction s as [| a s IH]; intros Hfree.
  - reflexivity.
  - simpl in Hfree. apply andb_true_iff in Hfree as [Ha Hfree].
    change (scan info_pattern 0 (String a s)) with
      (match run info_pattern (String a s) with
       | m :: _ =>
           default "" (snd m) ::
             scan info_pattern
               (String.length (String a s) - String.length (fst m) - 1) s
       | [] => scan info_pattern 0 s
       end).
    rewrite run_info_other; [exact (IH Hfree) |].
    intros t [= -> _]. discriminate.
Qed.

(** A text without an opening bracket after its first character, up to a
    line feed: whatever starts in it does not match. *)
Lemma split_line (x : string) : forall t rest y,
  free_of line_feed x = true ->
  t +:+ String line_feed rest = x +:+ y ->
  exists u, y = u +:+ String line_feed rest /\ t = x +:+ u.
Proof.
  induction x as [| a x IH]; intros t rest y Hx H; simpl in *.
  - exists t. split; [symmetry; exact H | reflexivity].
  - apply andb_true_iff in Hx as [Ha Hx]. destruct t as [| b t]; simpl in H.
    + injection H as <- _. discriminate.
    + injection H as -> H. apply IH in H as (u & -> & ->); [| exact Hx].
      exists u. split; reflexivity.
Qed.

Lemma run_info_line a t rest :
  free_of "[" t = true ->
  run info_pattern (String a (t +:+ String line_feed rest)) = [].
Proof.
  intros Hfree.
  destruct (run info_pattern (String a (t +:+ String line_feed rest)))
    as [| m l] eqn:Hrun; [reflexivity | exfalso].
  assert (In m (run info_pattern (String a (t +:+ String line_feed rest)))) as Hin
    by (rewrite Hrun; left; reflexivity).
  apply info_inv in Hin as (ds & item & Hs & Hds & _ & _ & Hitem & _ & Hrest).
  injection Hs as -> Hs.
  change (ds +:+ String "]" (String " " (item +:+ fst m)))
    with (ds +:+ ("] " +:+ (item +:+ fst m))) in Hs.
  rewrite <- !sapp_assoc in Hs.
  apply split_line in Hs as (u & Hm & ->).
  - rewrite free_of_app in Hfree. apply andb_true_iff in Hfree as [_ Hu].
    rewrite Hm in Hrest. destruct Hrest as [Hrest | [t' Hrest]].
    + destruct u; discriminate.
    + destruct u as [| b u]; [discriminate |].
      simpl in Hrest, Hu. injection Hrest as -> _. discriminate.
  - rewrite !free_of_app, (digits_single_line ds Hds), Hitem. reflexivity.
Qed.

Lemma scan_line (t : string) : forall rest,
  free_of "[" t = true ->
  scan info_pattern 0 (t +:+ String line_feed rest) = scan info_pattern 0 rest.
Proof.
  induction t as [| a t IH]; intros rest Hfree.
  - change (scan info_pattern 0 ("" +:+ String line_feed rest)) with
      (match run info_pattern (String line_feed rest) with
       | m :: _ =>
           default "" (snd m) ::
             scan info_pattern
               (String.length (String line_feed rest) - String.length (fst m) - 1)
               rest
       | [] => scan info_pattern 0 rest
       end).
    rewrite run_info_other; [reflexivity |]. intros t Hc. discriminate Hc.
  - simpl in Hfree. apply andb_true_iff in Hfree as [Ha Hfree].
    change (scan info_pattern 0 (String a t +:+ String line_feed rest)) with
      (match run info_pattern (String a (t +:+ String line_feed rest)) with
       | m :: _ =>
           default "" (snd m) ::
             scan info_pattern
               (String.length (String a (t +:+ String line_feed rest))
                - String.length (fst m) - 1)
               (t +:+ String line_feed rest)
       | [] => scan info_pattern 0 (t +:+ String line_feed rest)
       end).
    rewrite (run_info_line a t rest Hfree). exact (IH rest Hfree).
Qed.

(** X18: every item that line 328 extracts is a piece of one line: it is
    not empty and holds no line feed. *)
Theorem extracted_items_are_single_line (response : string) :
  Forall (fun item => item <> "" /\ free_of line_feed item = true)
    (findall info_pattern response).
Proof.
  apply scan_Forall. intros s m l Hrun.
  assert (In m (run info_pattern s)) as Hin by (rewrite Hrun; left; reflexivity).
  apply info_inv in Hin as (ds & item & _ & _ & _ & Hne & Hitem & -> & _).
  simpl. split; assumption.
Qed.

Lemma numbered_list_cons ds item items :
  numbered_list ((ds, item) :: items) =
  String "[" (ds +:+ String "]" (String " " (item +:+ numbered_list items))).
Proof.
  change (numbered_list ((ds, item) :: items))
    with (String "[" ((ds +:+ ("] " +:+ item)) +:+ numbered_list items)).
  rewrite sapp_assoc. reflexivity.
Qed.

(** X19: a numbered list written on one line is read back item by item:
    for items that are not empty and hold neither an opening bracket nor a
    line feed, each after a number in brackets and a space, line 328
    extracts exactly the items, in order. *)
Theorem one_line_list_is_read_back (items : list (string * string)) :
  Forall (fun ni =>
            all_digits (fst ni) = true /\ fst ni <> "" /\
            snd ni <> "" /\ free_of "[" (snd ni) = true /\
            free_of line_feed (snd ni) = true)
    items ->
  findall info_pattern (numbered_list items) = map snd items.
Proof.
  unfold findall. induction 1 as [| [ds item] items Hni Hitems IH]; [reflexivity |].
  destruct Hni as (Hds & Hne & Hine & Hfree & Hline). cbn [fst snd] in *.
  assert (item_ends (numbered_list items)) as Hends.
  { destruct Hitems as [| [ds' item'] items' (Hds' & Hne' & _) _];
      [left; reflexivity | right].
    exists ds', (String " " (item' +:+ numbered_list items')).
    rewrite numbered_list_cons. cbn [fst] in *. repeat split; assumption. }
  rewrite numbered_list_cons.
  destruct (run_info_item ds item (numbered_list items)
              Hds Hne Hine Hfree Hline Hends) as [l Hl].
  set (rest := numbered_list items) in *.
  set (body := ds +:+ String "]" (String " " (item +:+ rest))) in *.
  change (scan info_pattern 0 (String "[" body)) with
    (match run info_pattern (String "[" body) with
     | m :: _ =>
         default "" (snd m) ::
           scan info_pattern
             (String.length (String "[" body) - String.length (fst m) - 1) body
     | [] => scan info_pattern 0 body
     end).
  rewrite Hl. cbn [fst snd map]. change (default "" (Some item)) with item. f_equal.
  assert (body = (ds +:+ String "]" (String " " item)) +:+ rest) as ->
    by (unfold body; rewrite sapp_assoc; reflexivity).
  replace (String.length (String "[" ((ds +:+ String "]" (String " " item)) +:+ rest))
           - String.length rest - 1)
    with (String.length (ds +:+ String "]" (String " " item))).
  - rewrite scan_skip. exact IH.
  - cbn [String.length]. rewrite (slength_app _ rest). lia.
Qed.

(** X20: a line that ends in a line feed yields no item: when the text
    before a line feed holds no opening bracket after its first character
    (an item after its bracketed number, say), line 328 extracts what it
    extracts from the text after the line feed.  So of a numbered list
    written one item per line, only the last line can yield an item. *)
Theorem lines_before_a_line_feed_are_lost (lines : list string) (last : string) :
  Forall (fun line => free_of "[" (drop_string 1 line) = true) lines ->
  findall info_pattern
    (fold_right (fun line acc => line +:+ String line_feed acc) last lines) =
  findall info_pattern last.
Proof.
  unfold findall. induction 1 as [| line lines Hline _ IH]; [reflexivity |].
  simpl fold_right. rewrite <- IH.
  set (rest := fold_right (fun line acc => line +:+ String line_feed acc) last lines).
  destruct line as [| a t].
  - apply (scan_line "" rest). reflexivity.
  - simpl in Hline.
    change (scan info_pattern 0 (String a t +:+ String line_feed rest)) with
      (match run info_pattern (String a (t +:+ String line_feed rest)) with
       | m :: _ =>
           default "" (snd m) ::
             scan info_pattern
               (String.length (String a (t +:+ String line_feed rest))
                - String.length (fst m) - 1)
               (t +:+ String line_feed rest)
       | [] => scan info_pattern 0 (t +:+ String line_feed rest)
       end).
    rewrite (run_info_line a t rest Hline). apply scan_line. exact Hline.
Qed.

(** *** Searching and answering *)

Section Answer.
Context {World : Type}.
Variable chat : list prompt -> World -> res (list string) * World.
Variable generate : list prompt -> World -> res (list string) * World.
Variable retriever_search :
  string -> list string -> Z -> bool -> World -> res (list group) * World.
Variable rewrite_prompts : gmap string prompt.
Variable verify_prompt : prompt.
Variable summary_prompt : prompt.
Variable determine_info_prompt : prompt.
Variable generate_prompt : prompt.
Variable self : llm_searcher.

Local Abbreviation inner_search :=
  (inner_search chat retriever_search rewrite_prompts verify_prompt
     summary_prompt (inner self)).
Local Abbreviation determine_needed_information :=
  (determine_needed_information chat determine_info_prompt).
Local Abbreviation search_step :=
  (search_step chat retriever_search rewrite_prompts verify_prompt
     summary_prompt self).
Local Abbreviation search :=
  (search chat retriever_search rewrite_prompts verify_prompt summary_prompt
     determine_info_prompt self).
Local Abbreviation generate_with_context :=
  (generate_with_context generate generate_prompt).
Local Abbreviation _answer :=
  (_answer chat generate retriever_search rewrite_prompts verify_prompt
     summary_prompt determine_info_prompt generate_prompt self).
Local Abbreviation answer :=
  (answer chat generate retriever_search rewrite_prompts verify_prompt
     summary_prompt determine_info_prompt generate_prompt self).

(** The prompt of line 324. *)
Local Abbreviation info_prompt question :=
  (determine_info_prompt ++
     [{| role := "user"; content := "Question: " +:+ question |}]).

Lemma of_search_inv {A} (m : eff World Kylin.event A) (w : World) r w' tr :
  of_search m w = (r, w', tr) ->
  exists tr0, m w = (r, w', tr0) /\ tr = map EvSearcher tr0.
Proof.
  unfold of_search. destruct (m w) as [[r0 w0] tr0]. intros [= <- <- <-]. eauto.
Qed.

Lemma generations_search (tr0 : list Kylin.event) :
  generations (map EvSearcher tr0) = [].
Proof. induction tr0 as [| ev tr0 IH]; [reflexivity | exact IH]. Qed.

Lemma generations_app (l1 l2 : list event) :
  generations (l1 ++ l2) = generations l1 ++ generations l2.
Proof. apply omap_app. Qed.

(** Line 240 for one needed information. *)
Lemma inner_search_last q (w : World) cs history w' tr0 :
  inner_search q w = (Ok (cs, history), w', tr0) ->
  cs = last_round_contexts history /\
  0 < length history <= total_turn_num (inner self).
Proof.
  intros H.
  apply (KylinShapeProps.turns_shape chat retriever_search rewrite_prompts
           verify_prompt summary_prompt (inner self) q _ 0 [] [] w) in H
    as (rounds & -> & Hle & Hpos & _ & -> & _ & _); [| reflexivity].
  assert (0 < total_turn_num (inner self)) as Htotal
    by (unfold total_turn_num; destruct (verify (inner self)); lia).
  cbn [app]. split; [| split; [apply Hpos; exact Htotal | exact Hle]].
  unfold last_round_contexts. destruct (last rounds); reflexivity.
Qed.

Lemma search_step_ok acc q (w : World) acc' w' tr :
  search_step acc q w = (Ok acc', w', tr) ->
  exists cs history tr0,
    inner_search q w = (Ok (cs, history), w', tr0) /\
    tr = map EvSearcher tr0 /\
    acc' = (fst acc ++ cs,
            snd acc ++ [{| atom_query := q; retrieval_history := history |}]).
Proof.
  intros H. apply bind_inv_ok in H as ([cs history] & w1 & l1 & l2 & Hin & Hret & ->).
  injection Hret as <- <- <-. apply of_search_inv in Hin as (tr0 & Hin & ->).
  exists cs, history, tr0. rewrite app_nil_r. auto.
Qed.

(** Lines 239-244: the loop keeps the contexts equal to those of the last
    rounds of the entries, and adds one entry per needed information. *)
Lemma search_loop qs : forall acc (w : World) acc' w' tr,
  foldM search_step qs acc w = (Ok acc', w', tr) ->
  fst acc = flat_map (fun a => last_round_contexts (retrieval_history a)) (snd acc) ->
  Forall (fun a => 0 < length (retrieval_history a) <= total_turn_num (inner self))
    (snd acc) ->
  fst acc' = flat_map (fun a => last_round_contexts (retrieval_history a)) (snd acc') /\
  Forall (fun a => 0 < length (retrieval_history a) <= total_turn_num (inner self))
    (snd acc') /\
  map atom_query (snd acc') = map atom_query (snd acc) ++ qs /\
  generations tr = [].
Proof.
  induction qs as [| q qs IH]; intros acc w acc' w' tr H Hcs Hall.
  - injection H as <- _ <-. rewrite app_nil_r. auto.
  - cbn [foldM] in H.
    apply bind_inv_ok in H as (acc1 & w1 & l1 & l2 & Hstep & Hrest & ->).
    apply search_step_ok in Hstep as (cs & history & tr0 & Hin & -> & ->).
    apply inner_search_last in Hin as [-> Hlen].
    apply IH in Hrest as (Hcs' & Hall' & Hq & Hgen).
    + split; [exact Hcs' |]. split; [exact Hall' |]. split.
      * rewrite Hq. cbn [snd]. rewrite map_app, <- app_assoc. reflexivity.
      * rewrite generations_app, generations_search, Hgen. reflexivity.
    + cbn [fst snd]. rewrite flat_map_app, Hcs. cbn [flat_map].
      rewrite app_nil_r. reflexivity.
    + cbn [snd]. apply Forall_app. split; [exact Hall |].
      constructor; [exact Hlen | constructor].
Qed.

Lemma search_ok question (w : World)
    contexts track w' tr :
  search question w = (Ok (contexts, track), w', tr) ->
  KylinAnswer.question track = question /\
  generation_prompt track = None /\
  retrieved_contexts track = contexts /\
  contexts =
    flat_map (fun a => last_round_contexts (retrieval_history a)) (retrieval track) /\
  Forall (fun a => 0 < length (retrieval_history a) <= total_turn_num (inner self))
    (retrieval track) /\
  generations tr = [] /\
  (extract_info self = false -> map atom_query (retrieval track) = [question]) /\
  (extract_info self = true ->
   exists response others l,
     tr = EvSearcher (EvChat [info_prompt question] (Ok (response :: others))) :: l /\
     map atom_query (retrieval track) = findall info_pattern response).
Proof.
  intros H. unfold KylinAnswer.search in H.
  apply bind_inv_ok in H as (info_needed & w1 & l1 & l2 & Hinfo & H & ->).
  apply bind_inv_ok in H as ([cs entries] & w2 & l3 & l4 & Hloop & Hret & ->).
  injection Hret as <- <- <- <-. cbn [fst snd retrieval retrieved_contexts
    generation_prompt KylinAnswer.question].
  apply search_loop in Hloop as (Hcs & Hall & Hq & Hgen);
    [| reflexivity | constructor].
  cbn [fst snd map app] in *. rewrite app_nil_r.
  split; [reflexivity |]. split; [reflexivity |]. split; [reflexivity |].
  split; [exact Hcs |]. split; [exact Hall |].
  destruct (extract_info self).
  - apply bind_inv_ok in Hinfo as ([items resp] & w3 & l5 & l6 & Hdet & Hret & ->).
    injection Hret as <- <- <-. apply of_search_inv in Hdet as (tr0 & Hdet & ->).
    unfold KylinAnswer.determine_needed_information in Hdet.
    apply bind_inv_ok in Hdet as (responses & w4 & l7 & l8 & Hchat & Hdet & ->).
    apply bind_inv_ok in Hdet as (response & w5 & l9 & l10 & Hitem & Hret & ->).
    injection Hret as <- <- <- <-. rewrite lift_res_eq in Hitem.
    unfold call_chat in Hchat. destruct (chat _ w) as [r0 w0].
    injection Hchat as -> -> <-.
    destruct responses as [| response' others]; [discriminate |].
    injection Hitem as <- <- <-.
    split; [| split; [discriminate |]].
    + rewrite !generations_app, generations_search, Hgen. reflexivity.
    + intros _. exists response', others. eexists. split; [reflexivity | exact Hq].
  - injection Hinfo as <- <- <-.
    split; [| split; [intros _; exact Hq | discriminate]].
    rewrite !generations_app, Hgen. reflexivity.
Qed.

(** X21: what a search that returns hands back.  The track names the
    question, has no generation prompt yet, and holds the returned contexts;
    these are, entry by entry of the track, the contexts of the last round
    of the entry's retrieval history, and every history has between one and
    [total_turn_num] rounds.  Without [extract_info] the one entry is for
    the question itself; with it, the entries are for the items that line
    328 extracts from the first response of the model, in order. *)
Theorem search_track_accounts_for_the_contexts question (w : World)
    contexts track w' tr :
  search question w = (Ok (contexts, track), w', tr) ->
  KylinAnswer.question track = question /\
  generation_prompt track = None /\
  retrieved_contexts track = contexts /\
  contexts =
    flat_map (fun a => last_round_contexts (retrieval_history a)) (retrieval track) /\
  Forall (fun a => 0 < length (retrieval_history a) <= total_turn_num (inner self))
    (retrieval track) /\
  generations tr = [] /\
  (extract_info self = false -> map atom_query (retrieval track) = [question]) /\
  (extract_info self = true ->
   exists response others l,
     tr = EvSearcher (EvChat [info_prompt question] (Ok (response :: others))) :: l /\
     map atom_query (retrieval track) = findall info_pattern response).
Proof. apply search_ok. Qed.

(** X22: with [extract_info], when the first response of the model holds
    no opening bracket, the search finds nothing to search for: it returns
    no contexts and a track without entries, and calls no retriever. *)
Theorem response_without_items_searches_nothing question (w : World)
    response others w1 :
  extract_info self = true ->
  chat [info_prompt question] w = (Ok (response :: others), w1) ->
  free_of "[" response = true ->
  search question w =
    (Ok ([], {| KylinAnswer.question := question; retrieval := [];
                retrieved_contexts := []; generation_prompt := None |}),
     w1,
     [EvSearcher (EvChat [info_prompt question] (Ok (response :: others)))]).
Proof.
  intros Hex Hchat Hfree. unfold KylinAnswer.search. rewrite Hex.
  unfold bind, of_search, KylinAnswer.determine_needed_information, bind, call_chat.
  rewrite Hchat. cbn [lift_res item0 ret]. unfold findall.
  rewrite (scan_free response Hfree). reflexivity.
Qed.

Lemma _answer_ok question (w : World) response track w' tr :
  _answer question w = (Ok (response, track), w', tr) ->
  KylinAnswer.question track = question /\
  exists p, generation_prompt track = Some p /\ generations tr = [[p]].
Proof.
  intros H. unfold KylinAnswer._answer in H.
  apply bind_inv_ok in H as ([cs t0] & w1 & l1 & l2 & Hsearch & H & ->).
  apply bind_inv_ok in H as ([resp p] & w2 & l3 & l4 & Hgen & Hret & ->).
  injection Hret as <- <- <- <-.
  apply search_ok in Hsearch as (Hq & _ & _ & _ & _ & Hnogen & _).
  split; [exact Hq |]. exists p. split; [reflexivity |].
  unfold KylinAnswer.generate_with_context in Hgen.
  apply bind_inv_ok in Hgen as (responses & w3 & l5 & l6 & Hcall & Hgen & ->).
  apply bind_inv_ok in Hgen as (r1 & w4 & l7 & l8 & Hitem & Hret & ->).
  injection Hret as _ <- _ <-. rewrite lift_res_eq in Hitem.
  injection Hitem as _ _ <-.
  unfold call_generate in Hcall. destruct (generate _ w1) as [r0 w0].
  injection Hcall as _ _ <-.
  rewrite !generations_app, Hnogen. reflexivity.
Qed.

(** Lines 212-216. *)
Lemma answer_loop questions : forall acc (w : World) acc' w' tr,
  foldM (fun (acc : list string * list search_track) question =>
           bind (_answer question)
             (fun rt => ret (fst acc ++ [fst rt], snd acc ++ [snd rt])))
    questions acc w = (Ok acc', w', tr) ->
  length (fst acc') = length (fst acc) + length questions /\
  map KylinAnswer.question (snd acc') =
    map KylinAnswer.question (snd acc) ++ questions /\
  map generation_prompt (snd acc') =
    map generation_prompt (snd acc) ++ map head (generations tr) /\
  length (generations tr) = length questions.
Proof.
  induction questions as [| q questions IH]; intros acc w acc' w' tr H.
  - injection H as <- _ <-. cbn [map generations omap length].
    rewrite !app_nil_r, Nat.add_0_r. auto.
  - cbn [foldM] in H.
    apply bind_inv_ok in H as (acc1 & w1 & l1 & l2 & Hstep & Hrest & ->).
    apply bind_inv_ok in Hstep as ([resp t] & w2 & l3 & l4 & Hans & Hret & ->).
    injection Hret as <- <- <-.
    apply _answer_ok in Hans as (Hq & p & Hp & Hgen).
    apply IH in Hrest as (Hlen & Hqs & Hps & Hcount). cbn [fst snd] in *.
    rewrite app_nil_r, generations_app, Hgen. split; [| split; [| split]].
    + rewrite Hlen, length_app. simpl. lia.
    + rewrite Hqs, map_app, <- app_assoc. simpl. rewrite Hq. reflexivity.
    + rewrite Hps, map_app, <- app_assoc. simpl. rewrite Hp. reflexivity.
    + simpl. rewrite Hcount. reflexivity.
Qed.


End Answer.

End KylinAnswerProps.

(** ** The further properties on concrete runs *)

Module ShapeRuns.
Import Kylin KylinShape Examples MoreExamples.

Lemma history_has_one_record_per_retriever_and_round_witness :
  0 < length (history_of verified_run) <= total_turn_num verifying /\
  Forall (fun round => map rec_retriever round = retrievers verifying)
    (history_of verified_run) /\
  length (filter (fun ev => is_verify ev = true) (snd verified_run)) =
    length (history_of verified_run).
Proof.
  apply (KylinShapeProps.history_has_one_record_per_retriever_and_round
           ex_chat ex_search ex_rewrite_prompts ex_verify_prompt
           ex_summary_prompt verifying france 0
           (contexts_of verified_run) (history_of verified_run)
           (snd (fst verified_run)) (snd verified_run)).
  vm_compute. reflexivity.
Defined.

Lemma every_round_searches_every_retriever_once_witness :
  search_calls (snd verified_run) =
    rounds_calls (retrievers verifying) 0 (length (history_of verified_run)).
Proof.
  apply (KylinShapeProps.every_round_searches_every_retriever_once
           ex_chat ex_search ex_rewrite_prompts ex_verify_prompt
           ex_summary_prompt verifying france 0
           (contexts_of verified_run) (history_of verified_run)
           (snd (fst verified_run)) (snd verified_run)).
  vm_compute. reflexivity.
Defined.

Lemma returned_contexts_are_those_of_the_last_round_witness :
  exists earlier round,
    history_of verified_run = earlier ++ [round] /\
    contexts_of verified_run = round_contexts round.
Proof.
  apply (KylinShapeProps.returned_contexts_are_those_of_the_last_round
           ex_chat ex_search ex_rewrite_prompts ex_verify_prompt
           ex_summary_prompt verifying france 0
           (contexts_of verified_run) (history_of verified_run)
           (snd (fst verified_run)) (snd verified_run)).
  vm_compute. reflexivity.
Defined.

Lemma returned_contexts_have_text_witness :
  Forall (fun c => ctx_text c <> None /\ ctx_retriever c ∈ retrievers summarizing)
    (contexts_of summarized_run) /\
  (summary_context summarizing = false ->
   Forall (fun c => ctx_text c = Some (ctx_full_text c))
     (contexts_of summarized_run)).
Proof.
  apply (KylinShapeProps.returned_contexts_have_text
           ex_chat ex_search ex_rewrite_prompts ex_verify_prompt
           ex_summary_prompt summarizing france 0
           (contexts_of summarized_run) (history_of summarized_run)
           (snd (fst summarized_run)) (snd summarized_run)).
  vm_compute. reflexivity.
Defined.

Lemma history_records_are_well_formed_witness :
  Forall (Forall (record_wf summarizing)) (history_of summarized_run).
Proof.
  apply (KylinShapeProps.history_records_are_well_formed
           ex_chat ex_search ex_rewrite_prompts ex_verify_prompt
           ex_summary_prompt summarizing france 0
           (contexts_of summarized_run) (history_of summarized_run)
           (snd (fst summarized_run)) (snd summarized_run)).
  vm_compute. reflexivity.
Defined.

Lemma without_rewriting_every_search_uses_the_query_witness :
  Forall (searches_only france) (snd verified_run).
Proof.
  apply (KylinShapeProps.without_rewriting_every_search_uses_the_query
           ex_chat ex_search ex_rewrite_prompts ex_verify_prompt
           ex_summary_prompt verifying france 0
           (fst (fst verified_run)) (snd (fst verified_run)) (snd verified_run)).
  - reflexivity.
  - vm_compute. reflexivity.
Defined.

Lemma plain_search_never_calls_the_model_witness :
  Forall no_model_call (snd plain_run).
Proof.
  apply (KylinShapeProps.plain_search_never_calls_the_model
           ex_chat ex_search ex_rewrite_prompts ex_verify_prompt
           ex_summary_prompt plain france 0
           (fst (fst plain_run)) (snd (fst plain_run)) (snd plain_run)).
  - reflexivity.
  - reflexivity.
  - reflexivity.
  - vm_compute. reflexivity.
Defined.

Lemma search_stops_at_the_first_pass_witness :
  exists round,
    history_of granted_run = [round] /\
    contexts_of granted_run = round_contexts round /\
    search_calls (snd granted_run) = round_calls (retrievers verifying) 0 /\
    length (filter (fun ev => is_verify ev = true) (snd granted_run)) = 1.
Proof.
  apply (KylinShapeProps.search_stops_at_the_first_pass
           yes_chat ex_search ex_rewrite_prompts ex_verify_prompt
           ex_summary_prompt verifying france 0
           (contexts_of granted_run) (history_of granted_run)
           (snd (fst granted_run)) (snd granted_run)).
  - intros cs0 w0. reflexivity.
  - vm_compute. reflexivity.
Defined.

Lemma result_without_texts_raises_KeyError_witness :
  post_process france "bm25" no_texts = Raise KeyError.
Proof.
  apply (KylinShapeProps.result_without_texts_raises_KeyError france "bm25" no_texts).
  - vm_compute. reflexivity.
  - left. exists ["doc1"; "doc2"]. vm_compute. reflexivity.
Defined.

Lemma indices_win_and_surplus_is_dropped_witness :
  post_process france "bm25" (<["indices" := ["doc1"]]> (ex_group "web")) =
    Ok (map (make_context france "bm25") (zip ex_texts ["doc1"])) /\
  length (map (make_context france "bm25") (zip ex_texts ["doc1"])) =
    length ex_texts `min` length ["doc1"].
Proof.
  apply (KylinShapeProps.indices_win_and_surplus_is_dropped france "bm25"
           (<["indices" := ["doc1"]]> (ex_group "web")) ex_texts ["doc1"]).
  - vm_compute. reflexivity.
  - vm_compute. reflexivity.
Defined.

Lemma summaries_keep_all_but_the_text_witness :
  exists responses,
    snd summaries_run =
      [EvChat (summary_prompts ex_summary_prompt (bm25_contexts france) france)
         (Ok responses)] /\
    length (summary_prompts ex_summary_prompt (bm25_contexts france) france) =
      length (bm25_contexts france) /\
    length (returned (fst (fst summaries_run))) = length (bm25_contexts france) /\
    Forall2 same_but_text (bm25_contexts france)
      (returned (fst (fst summaries_run))) /\
    forall i, length responses <= i ->
      returned (fst (fst summaries_run)) !! i = bm25_contexts france !! i.
Proof.
  apply (KylinShapeProps.summaries_keep_all_but_the_text
           ex_chat ex_summary_prompt (bm25_contexts france) france 0
           (returned (fst (fst summaries_run)))
           (snd (fst summaries_run)) (snd summaries_run)).
  vm_compute. reflexivity.
Defined.

Lemma failed_retrieval_is_fatal_witness :
  fst (fst silent_run) = Raise IndexError /\
  exists tr0, snd silent_run = tr0 ++ [silent_event].
Proof.
  apply (KylinFatalProps.failed_retrieval_is_fatal
           ex_chat silent_search ex_rewrite_prompts ex_verify_prompt
           ex_summary_prompt plain france 0
           (fst (fst silent_run)) (snd (fst silent_run)) (snd silent_run)
           silent_event IndexError).
  - vm_compute. reflexivity.
  - apply (list_elem_of_lookup_2 _ 0). vm_compute. reflexivity.
  - vm_compute. reflexivity.
Defined.

Lemma rewrite_without_prompt_raises_KeyError_witness :
  fst (fst unprompted_run) = Raise KeyError /\
  exists tr0, snd unprompted_run = tr0 ++ [unprompted_event].
Proof.
  apply (KylinFatalProps.rewrite_without_prompt_raises_KeyError
           ex_chat ex_search only_bm25 ex_verify_prompt ex_summary_prompt
           (ex_searcher true false false) france 0
           (fst (fst unprompted_run)) (snd (fst unprompted_run))
           (snd unprompted_run) unprompted_event).
  - vm_compute. reflexivity.
  - apply (list_elem_of_lookup_2 _ 3). vm_compute. reflexivity.
  - vm_compute. reflexivity.
Defined.

End ShapeRuns.

Module CacheShapeRuns.
Import RetrieverBase RetrieverBaseShape Examples MoreExamples.

Lemma misses_are_searched_in_one_call_witness :
  length (read_results (snd refill)) <= length (as_list ab) /\
  (length (read_results (snd refill)) < length (as_list ab) ->
   is_ok (fst (fst refill)) = false /\ func_args (snd refill) = []) /\
  (length (read_results (snd refill)) = length (as_list ab) ->
   func_args (snd refill) =
     match new_query (as_list ab) (read_results (snd refill)) with
     | [] => []
     | qs => [(qs, delete "disable_cache" top_k_10)]
     end).
Proof.
  apply (RetrieverBaseShapeProps.misses_are_searched_in_one_call
           lru_get lru_put ex_func tt None ab top_k_10 stale_b
           (fst (fst refill)) (snd (fst refill)) (snd refill)).
  - vm_compute. reflexivity.
  - vm_compute. reflexivity.
Defined.

Lemma stored_results_are_returned_as_stored_witness :
  length (returned (fst (fst refill))) = length (as_list ab) /\
  Forall (fun r => r <> None) (returned (fst (fst refill))) /\
  forall i x,
    read_results (snd refill) !! i = Some (Some x) ->
    returned (fst (fst refill)) !! i = Some (Some x).
Proof.
  apply (RetrieverBaseShapeProps.stored_results_are_returned_as_stored
           lru_get lru_put ex_func tt None ab top_k_10 stale_b
           (returned (fst (fst refill))) (snd (fst refill)) (snd refill)).
  - vm_compute. reflexivity.
  - vm_compute. reflexivity.
Defined.

Lemma failure_of_wrapped_search_writes_nothing_witness :
  fst (fst refill_fails) = Raise index_offline /\
  put_keys (snd refill_fails) = [] /\
  world (snd (fst refill_fails)) = tt.
Proof.
  apply (RetrieverBaseShapeProps.failure_of_wrapped_search_writes_nothing
           lru_get lru_put failing_func tt None ab top_k_10 stale_b
           (fst (fst refill_fails)) (snd (fst refill_fails)) (snd refill_fails)
           ["b"] top_k_10 index_offline tt).
  - vm_compute. reflexivity.
  - vm_compute. reflexivity.
  - vm_compute. reflexivity.
  - vm_compute. reflexivity.
Defined.

Lemma answers_are_written_before_they_are_checked_witness :
  put_keys (snd refill) =
    take (length [Some ["doc:b"]]) (keys_of tt top_k_10 ["b"]) /\
  (is_ok (fst (fst refill)) = true <->
   length ["b"] <= length [Some ["doc:b"]] /\
   Forall (fun x => x <> None) (take (length ["b"]) [Some ["doc:b"]])) /\
  (is_ok (fst (fst refill)) = false -> fst (fst refill) = Raise AssertionError).
Proof.
  apply (RetrieverBaseShapeProps.answers_are_written_before_they_are_checked
           lru_get lru_put ex_func tt None ab top_k_10 stale_b
           (fst (fst refill)) (snd (fst refill)) (snd refill)
           ["b"] top_k_10 [Some ["doc:b"]] tt).
  - vm_compute. reflexivity.
  - vm_compute. reflexivity.
  - vm_compute. reflexivity.
  - vm_compute. reflexivity.
  - vm_compute. repeat constructor.
Defined.

Lemma batches_partition_the_queries_witness :
  Forall (fun batch => 0 < length batch <= Z.to_nat 2) (snd in_pairs) /\
  concat (snd in_pairs) `prefix_of` preprocessed (fun q => q) five ∅ /\
  (is_ok (fst (fst in_pairs)) = true ->
   concat (snd in_pairs) = preprocessed (fun q => q) five ∅).
Proof.
  apply (RetrieverBaseShapeProps.batches_partition_the_queries
           2 (fun q => q) ex_search_batch five ∅ tt
           (fst (fst in_pairs)) (snd (fst in_pairs)) (snd in_pairs)).
  - lia.
  - vm_compute. reflexivity.
Defined.

Lemma nonpositive_batch_size_searches_nothing_witness :
  search (-1) (fun q => q) ex_search_batch five ∅ tt =
    ((if (-1 =? 0)%Z then Raise ValueError else Ok []), tt, []).
Proof.
  apply (RetrieverBaseShapeProps.nonpositive_batch_size_searches_nothing
           (-1) (fun q => q) ex_search_batch five ∅ tt).
  lia.
Defined.

Lemma test_speed_of_a_cached_search_raises_TypeError_witness :
  RetrieverSpeed.test_speed lru_get lru_put ex_func tt None 10 corpus 3 10
    top_k_10 cold =
    (RetrieverSpeed.Failed (RetrieverSpeed.Raised TypeError), cold, []).
Proof.
  apply (RetrieverSpeedProps.test_speed_of_a_cached_search_raises_TypeError
           lru_get lru_put ex_func tt None 10 corpus 3 10 top_k_10 cold).
  - lia.
  - right. discriminate.
Defined.

End CacheShapeRuns.

Module AnswerRuns.
Import Kylin KylinAnswer Examples MoreExamples.

Lemma one_line_list_is_read_back_witness :
  findall info_pattern (numbered_list two_items) = map snd two_items.
Proof.
  apply (KylinAnswerProps.one_line_list_is_read_back two_items).
  repeat constructor; try reflexivity; discriminate.
Defined.

Lemma lines_before_a_line_feed_are_lost_witness :
  findall info_pattern
    (fold_right (fun line acc => line +:+ String line_feed acc) last_line two_lines) =
  findall info_pattern last_line.
Proof.
  apply (KylinAnswerProps.lines_before_a_line_feed_are_lost two_lines last_line).
  repeat constructor.
Defined.

Lemma search_track_accounts_for_the_contexts_witness :
  question (track_of extracting_run) = france /\
  generation_prompt (track_of extracting_run) = None /\
  retrieved_contexts (track_of extracting_run) = found_of extracting_run /\
  found_of extracting_run =
    flat_map (fun a => last_round_contexts (retrieval_history a))
      (retrieval (track_of extracting_run)) /\
  Forall (fun a => 0 < length (retrieval_history a) <= total_turn_num (inner extracting))
    (retrieval (track_of extracting_run)) /\
  generations (snd extracting_run) = [] /\
  (extract_info extracting = false ->
   map atom_query (retrieval (track_of extracting_run)) = [france]) /\
  (extract_info extracting = true ->
   exists response others l,
     snd extracting_run =
       EvSearcher
         (EvChat
            [ex_determine_prompt ++
               [{| role := "user"; content := "Question: " +:+ france |}]]
            (Ok (response :: others))) :: l /\
     map atom_query (retrieval (track_of extracting_run)) =
       findall info_pattern response).
Proof.
  apply (KylinAnswerProps.search_track_accounts_for_the_contexts
           listing_chat ex_search ex_rewrite_prompts ex_verify_prompt
           ex_summary_prompt ex_determine_prompt extracting france 0
           (found_of extracting_run) (track_of extracting_run)
           (snd (fst extracting_run)) (snd extracting_run)).
  vm_compute. reflexivity.
Defined.

Lemma response_without_items_searches_nothing_witness :
  KylinAnswer.search ex_chat ex_search ex_rewrite_prompts ex_verify_prompt
    ex_summary_prompt ex_determine_prompt extracting france 0 =
    (Ok ([], {| question := france; retrieval := [];
                retrieved_contexts := []; generation_prompt := None |}),
     1,
     [EvSearcher
        (EvChat
           [ex_determine_prompt ++
              [{| role := "user"; content := "Question: " +:+ france |}]]
           (Ok ["query 0"]))]).
Proof.
  apply (KylinAnswerProps.response_without_items_searches_nothing
           ex_chat ex_search ex_rewrite_prompts ex_verify_prompt
           ex_summary_prompt ex_determine_prompt extracting france 0
           "query 0" [] 1).
  - reflexivity.
  - vm_compute. reflexivity.
  - vm_compute. reflexivity.
Defined.


End AnswerRuns.
